(** * Tile-cooperative helpers of the AMP sort: reduce, scan, partition

    A shallow embedding of [AMP_helpers.hpp] (namespace [experimental]).

    - Iterators are positions ([nat]) into an array; an array is a
      [list Z]; reading or writing outside an array is undefined behaviour
      in C++ and is [None] here.
    - The element type [T] of the templates is an integer type; it is
      represented by the function [wrap] that reduces a mathematical result
      to the type ([wrap := id] for an unbounded integer, [wrap := u32] for
      [unsigned int]).  [T()] is [0].
    - The lanes of a tile run in lock step between two barriers; a phase
      between two barriers is the lanes' actions in lane order.
    - The tiles of the partition kernel are interleaved by a scheduler; an
      execution is a list of tile numbers, one entry per step.            *)

From Stdlib Require Import ZArith Lia List Bool.
From stdpp Require Import base option list.

#[local] Open Scope Z_scope.

(** ** Machine integers *)

(** [unsigned int]: 32 bits, arithmetic modulo [2^32]. *)
Definition u32 (z : Z) : Z := z mod 2 ^ 32.

Definition is_u32 (z : Z) : Prop := 0 <= z < 2 ^ 32.

(** ** [padded_cols] *)

(** [((length / rows) % 2u) ? (length / rows) : (length / rows) + 1u] *)
Definition padded_cols (length rows : Z) : Z :=
  if negb ((length / rows) mod 2 =? 0)
  then length / rows
  else u32 (length / rows + 1).

(** ** Arrays and tile memory *)

(** The phases of a tile: [body t] is what lane [t] does between two
    barriers. *)
Fixpoint run_lanes {S : Type} (body : nat -> S -> option S)
    (lanes : list nat) (s : S) : option S :=
  match lanes with
  | [] => Some s
  | t :: lanes' => s' ← body t s; run_lanes body lanes' s'
  end.

(** The arrays a tile works on: the arrays its caller passes, and the
    [tile_static] array that [thread_local_new<T, sz>()] returns, one per
    instantiation. *)
Inductive region : Type :=
| Buf (name : nat)
| RowSums (sz : nat).

#[global] Instance region_eq_dec : EqDecision region.
Proof. solve_decision. Defined.

Definition mem : Type := region -> list Z.

Definition mset (m : mem) (r : region) (a : list Z) : mem :=
  fun r' => if decide (r' = r) then a else m r'.

Definition mstore (m : mem) (r : region) (i : nat) (v : Z) : option mem :=
  if decide (i < length (m r))%nat
  then Some (mset m r (<[i := v]> (m r)))
  else None.

Section Tile.
(** [wrap] is the arithmetic of the value type [T]; [tile_dim0] the number
    of lanes of the tile. *)
Variable wrap : Z -> Z.
Variable tile_dim0 : nat.

Definition lanes : list nat := seq 0 tile_dim0.

(** *** [reduce] *)

(** [*(l - e - 1) += *(l - m - e - 1)] *)
Definition reduce_step (a : list Z) (l m e : nat) : option (list Z) :=
  x ← a !! (l - e - 1)%nat;
  y ← a !! (l - m - e - 1)%nat;
  Some (<[(l - e - 1)%nat := wrap (x + y)]> a).

(** [for (auto i = 0u; i < m; i += tidx.tile_dim0)] of lane [t]; the loop
    does not end when [tile_dim0] is 0, which is [None] here. *)
Fixpoint reduce_lane (fuel : nat) (l m t i : nat) (a : list Z)
    : option (list Z) :=
  if decide (i < m)%nat then
    match fuel with
    | O => None
    | S fuel' =>
        a' ← (if decide (t + i < m)%nat
              then reduce_step a l m (t + i) else Some a);
        reduce_lane fuel' l m t (i + tile_dim0) a'
    end
  else Some a.

(** [while (m) { ...; barrier; m /= 2u; }] *)
Fixpoint reduce_rounds (m : positive) (l : nat) (a : list Z)
    : option (list Z) :=
  a' ← run_lanes
         (fun t => reduce_lane (Pos.to_nat m) l (Pos.to_nat m) t 0) lanes a;
  match m with
  | xH => Some a'
  | xO m' | xI m' => reduce_rounds m' l a'
  end.

(** [reduce(f, l, tidx)] on the array [a]; the result is the array and the
    returned iterator. *)
Definition reduce (a : list Z) (f l : nat) : option (list Z * nat) :=
  if decide (l <= f)%nat then Some (a, l)
  else
    match N.of_nat ((l - f) / 2) with
    | N0 => Some (a, (l - 1)%nat)
    | Npos m => a' ← reduce_rounds m l a; Some (a', (l - 1)%nat)
    end.

(** *** [serial_scan], [serial_accumulate] *)

(** [while (f != l) { auto tmp = *f; *f++ = res; res += tmp; }] *)
Fixpoint scan_loop (k f : nat) (res : Z) (a : list Z) : option (list Z) :=
  match k with
  | O => Some a
  | S k' =>
      tmp ← a !! f;
      scan_loop k' (S f) (wrap (res + tmp)) (<[f := res]> a)
  end.

Definition serial_scan (a : list Z) (f l : nat) : option (list Z * nat) :=
  if decide (l <= f)%nat then Some (a, l)
  else a' ← scan_loop (l - f) f 0 a; Some (a', (l - 1)%nat).

(** The overload with a binary operation: [res] is declared without an
    initialiser, [uninit] is the value it happens to hold. *)
Fixpoint scan_loop_op (op : Z -> Z -> Z) (k f : nat) (res : Z)
    (a : list Z) : option (list Z) :=
  match k with
  | O => Some a
  | S k' =>
      tmp ← a !! f;
      scan_loop_op op k' (S f) (op res tmp) (<[f := res]> a)
  end.

Definition serial_scan_op (uninit : Z) (a : list Z) (f l : nat)
    (op : Z -> Z -> Z) : option (list Z * nat) :=
  if decide (l <= f)%nat then Some (a, l)
  else a' ← scan_loop_op op (l - f) f uninit a; Some (a', (l - 1)%nat).

(** [while (f != l) { init += *f++; }] *)
Fixpoint accumulate_loop (a : list Z) (k f : nat) (init : Z) : option Z :=
  match k with
  | O => Some init
  | S k' => x ← a !! f; accumulate_loop a k' (S f) (wrap (init + x))
  end.

Definition serial_accumulate (a : list Z) (f l : nat) (init : Z)
    : option Z :=
  if decide (l <= f)%nat then Some init
  else accumulate_loop a (l - f) f init.

(** *** The two-level [scan] *)

(** The column count of [mtx_view(rows, padded_cols(l - f, rows), &*f)]. *)
Definition cols (rows f l : nat) : nat :=
  Z.to_nat (padded_cols (u32 (Z.of_nat l - Z.of_nat f)) (Z.of_nat rows)).

(** [reduce_rows<rows>], lane [t]: row [t] is [[row_f, row_f + cols)]. *)
Definition reduce_rows (rows : nat) (r : region) (f l : nat)
    (t : nat) (m : mem) : option mem :=
  if decide (t < rows)%nat then
    let row_f := (f + t * cols rows f l)%nat in
    let row_e := (row_f + cols rows f l)%nat in
    let row_l := if decide (row_e <= l)%nat then row_e else l in
    s ← serial_accumulate (m r) row_f row_l 0;
    mstore m (RowSums rows) t s
  else Some m.

(** [while ((i != end(row)) && (i != l))]: [k] is [end(row) - i]. *)
Fixpoint row_walk (k i l : nat) (res : Z) (a : list Z)
    : option (list Z) :=
  match k with
  | O => Some a
  | S k' =>
      if decide (i = l) then Some a
      else
        tmp ← a !! i;
        row_walk k' (S i) l (wrap (res + tmp)) (<[i := res]> a)
  end.

(** [scan_rows<rows>], lane [t]. *)
Definition scan_rows (rows : nat) (r : region) (f l : nat)
    (t : nat) (m : mem) : option mem :=
  if decide (t < rows)%nat then
    res ← m (RowSums rows) !! t;
    a' ← row_walk (cols rows f l) (f + t * cols rows f l)%nat l res (m r);
    Some (mset m r a')
  else Some m.

(** [scan_sums]: [rows] is 8; the serial scan of the eight sums is done by
    the lane with [tidx.tile_origin == tidx.global], lane 0. *)
Definition scan_sums (r : region) (f l : nat) (m : mem) : option mem :=
  m1 ← run_lanes (reduce_rows 8 r f l) lanes m;
  m2 ← run_lanes
         (fun t m =>
            if decide (t = 0)%nat then
              '(a', _) ← serial_scan (m (RowSums 8)) 0 8;
              Some (mset m (RowSums 8) a')
            else Some m) lanes m1;
  run_lanes (scan_rows 8 r f l) lanes m2.

(** [rows = tidx.tile_dim0 < 64u ? tidx.tile_dim0 : 64u] *)
Definition scan_rows_count : nat :=
  if decide (tile_dim0 < 64)%nat then tile_dim0 else 64%nat.

(** [scan(f, l, tidx)] on the range [[f, l)] of the array [r]. *)
Definition scan (r : region) (f l : nat) (m : mem) : option (mem * nat) :=
  if decide (l <= f)%nat then Some (m, l)
  else
    let rows := scan_rows_count in
    m1 ← run_lanes (reduce_rows rows r f l) lanes m;
    m2 ← scan_sums (RowSums rows) 0 rows m1;
    m3 ← run_lanes (scan_rows rows r f l) lanes m2;
    Some (m3, (l - 1)%nat).
End Tile.

(** ** [partition] *)

Definition SIMD_w : nat := 64.

(** [concurrency::atomic_compare_exchange(dest, expected, value)] as amp.h
    documents it: when [*dest] equals [*expected] it stores [value] and
    returns true, otherwise it stores [*dest] into [*expected] and returns
    false.  The result is (returned flag, new [*dest], new [*expected]). *)
Definition amp_cas (cur expected value : Z) : bool * Z * Z :=
  if cur =? expected then (true, value, expected) else (false, cur, cur).

(** The program points of a tile of the kernel, at the granularity of its
    accesses to global memory. *)
Inductive pc : Type :=
| PcLoad          (* tmp = valid ? range[tidx.global] : T() *)
| PcReleaseOwn    (* release_block(blocks, tidx, tidx.tile[0]) *)
| PcReserveTrue   (* flags, scans, true_idx = atomic_fetch_add(...) *)
| PcReserveFalse  (* false_idx = atomic_fetch_sub(...) - false_off *)
| PcAcquireTrue   (* acquire_block(blocks, tidx, true_idx / SIMD_w) *)
| PcWriteTrue     (* range(true_idx + p_true[tidx.local]) = tmp *)
| PcReleaseTrue   (* release_block(blocks, tidx, true_idx / SIMD_w) *)
| PcAcquireFalse  (* acquire_block(blocks, tidx, false_idx / SIMD_w) *)
| PcWriteFalse    (* range(false_idx + p_false[tidx.local]) = tmp *)
| PcReleaseFalse  (* release_block(blocks, tidx, false_idx / SIMD_w) *)
| PcDone.

#[global] Instance pc_eq_dec : EqDecision pc.
Proof. solve_decision. Defined.

Section Partition.
Context {A : Type}.
(** The predicate, [T()], the compare-and-exchange of the device, and the
    contents of the [tile_static] arrays before they are written. *)
Variable p : A -> bool.
Variable dflt : A.
Variable cas : Z -> Z -> Z -> bool * Z * Z.
Variable junk : region -> nat -> Z.

(** The private state of a tile: the lanes' [tmp], the two scanned flag
    arrays, the reservations of the leader lane, and the local [unlocked]
    of [acquire_block]. *)
Record tile : Type := Tile {
  t_pc : pc;
  t_tmp : list A;
  t_p_true : list Z;
  t_p_false : list Z;
  t_true_off : Z;
  t_false_off : Z;
  t_true_idx : Z;
  t_false_idx : Z;
  t_expected : Z
}.

(** Global memory: the sequence, the lock table, the two counters; and the
    tiles. *)
Record state : Type := State {
  range : list A;
  blocks : list Z;
  first : Z;
  second : Z;
  tiles : list tile
}.

Definition tile_static : mem := fun r =>
  match r with
  | Buf _ => map (junk r) (seq 0 SIMD_w)
  | RowSums sz => map (junk r) (seq 0 sz)
  end.

Definition b2u (b : bool) : Z := if b then 1 else 0.

(** [range.extent.contains(tidx.global)] for lane [t] of tile [g]. *)
Definition lane_valid (n g t : nat) : bool :=
  bool_decide (g * SIMD_w + t < n)%nat.

Definition load_tmp (rg : list A) (g : nat) : list A :=
  map (fun t => if lane_valid (length rg) g t
                then nth (g * SIMD_w + t) rg dflt else dflt)
      (seq 0 SIMD_w).

(** [valid ? p(tmp) : 0u] and [valid ? !p(tmp) : 0u] *)
Definition flag_true (n g : nat) (tmp : list A) (t : nat) : Z :=
  if lane_valid n g t then b2u (p (nth t tmp dflt)) else 0.
Definition flag_false (n g : nat) (tmp : list A) (t : nat) : Z :=
  if lane_valid n g t then b2u (negb (p (nth t tmp dflt))) else 0.

(** The flags, the two scans, and the offsets of lane [SIMD_w - 1]. *)
Definition tile_scans (n g : nat) (tmp : list A)
    : option (list Z * list Z) :=
  let m0 := mset (mset tile_static
                    (Buf 0) (map (flag_true n g tmp) (seq 0 SIMD_w)))
                    (Buf 1) (map (flag_false n g tmp) (seq 0 SIMD_w)) in
  '(m1, _) ← scan u32 SIMD_w (Buf 0) 0 SIMD_w m0;
  '(m2, _) ← scan u32 SIMD_w (Buf 1) 0 SIMD_w m1;
  Some (m2 (Buf 0), m2 (Buf 1)).

Definition tile_offsets (n g : nat) (tmp : list A) (pt pf : list Z)
    : option (Z * Z) :=
  a ← pt !! (SIMD_w - 1)%nat;
  b ← pf !! (SIMD_w - 1)%nat;
  Some (u32 (a + flag_true n g tmp (SIMD_w - 1)),
        u32 (b + flag_false n g tmp (SIMD_w - 1))).

(** The writes of one run: lane [t] stores its [tmp] at [base + offs[t]]
    when [sel] holds of it. *)
Definition write_lane (n g : nat) (tmp : list A) (sel : A -> bool)
    (base : Z) (offs : list Z) (t : nat) (rg : list A) : option (list A) :=
  if lane_valid n g t && sel (nth t tmp dflt) then
    off ← offs !! t;
    let i := Z.to_nat (u32 (base + off)) in
    if decide (i < length rg)%nat
    then Some (<[i := nth t tmp dflt]> rg) else None
  else Some rg.

Definition write_run (n g : nat) (tmp : list A) (sel : A -> bool)
    (base : Z) (offs : list Z) (rg : list A) : option (list A) :=
  run_lanes (write_lane n g tmp sel base offs) (seq 0 SIMD_w) rg.

Definition block_of (idx : Z) : nat := Z.to_nat (idx / Z.of_nat SIMD_w).

(** [atomic_exchange(&blocks(block), 0u)] *)
Definition release_block (bl : list Z) (block : nat) : option (list Z) :=
  if decide (block < length bl)%nat then Some (<[block := 0]> bl) else None.

(** One attempt of the spin loop of [acquire_block]. *)
Definition try_acquire (bl : list Z) (block : nat) (expected : Z)
    : option (bool * list Z * Z) :=
  cur ← bl !! block;
  let '(ok, cur', expected') := cas cur expected 1 in
  Some (ok, <[block := cur']> bl, expected').

Definition set_pc (tl : tile) (c : pc) : tile :=
  Tile c (t_tmp tl) (t_p_true tl) (t_p_false tl) (t_true_off tl)
    (t_false_off tl) (t_true_idx tl) (t_false_idx tl) (t_expected tl).

Definition set_expected (tl : tile) (c : pc) (e : Z) : tile :=
  Tile c (t_tmp tl) (t_p_true tl) (t_p_false tl) (t_true_off tl)
    (t_false_off tl) (t_true_idx tl) (t_false_idx tl) e.

Definition put_tile (s : state) (g : nat) (tl : tile) : state :=
  State (range s) (blocks s) (first s) (second s) (<[g := tl]> (tiles s)).

(** One step of tile [g]. *)
Definition step_tile (s : state) (g : nat) (tl : tile) : option state :=
  let n := length (range s) in
  match t_pc tl with
  | PcLoad =>
      Some (put_tile s g
              (Tile PcReleaseOwn (load_tmp (range s) g) (t_p_true tl)
                 (t_p_false tl) (t_true_off tl) (t_false_off tl)
                 (t_true_idx tl) (t_false_idx tl) (t_expected tl)))
  | PcReleaseOwn =>
      bl ← release_block (blocks s) g;
      Some (State (range s) bl (first s) (second s)
              (<[g := set_pc tl PcReserveTrue]> (tiles s)))
  | PcReserveTrue =>
      '(pt, pf) ← tile_scans n g (t_tmp tl);
      '(true_off, false_off) ← tile_offsets n g (t_tmp tl) pt pf;
      Some (State (range s) (blocks s) (u32 (first s + true_off))
              (second s)
              (<[g := Tile PcReserveFalse (t_tmp tl) pt pf true_off
                        false_off (first s) (t_false_idx tl)
                        (t_expected tl)]> (tiles s)))
  | PcReserveFalse =>
      Some (State (range s) (blocks s) (first s)
              (u32 (second s - t_false_off tl))
              (<[g := Tile PcAcquireTrue (t_tmp tl) (t_p_true tl)
                        (t_p_false tl) (t_true_off tl) (t_false_off tl)
                        (t_true_idx tl)
                        (u32 (second s - t_false_off tl)) 0]> (tiles s)))
  | PcAcquireTrue =>
      '(ok, bl, e) ← try_acquire (blocks s) (block_of (t_true_idx tl))
                       (t_expected tl);
      Some (State (range s) bl (first s) (second s)
              (<[g := set_expected tl
                        (if ok : bool then PcWriteTrue else PcAcquireTrue) e]>
                 (tiles s)))
  | PcWriteTrue =>
      rg ← write_run n g (t_tmp tl) p (t_true_idx tl) (t_p_true tl)
             (range s);
      Some (State rg (blocks s) (first s) (second s)
              (<[g := set_pc tl PcReleaseTrue]> (tiles s)))
  | PcReleaseTrue =>
      bl ← release_block (blocks s) (block_of (t_true_idx tl));
      Some (State (range s) bl (first s) (second s)
              (<[g := set_expected tl PcAcquireFalse 0]> (tiles s)))
  | PcAcquireFalse =>
      '(ok, bl, e) ← try_acquire (blocks s) (block_of (t_false_idx tl))
                       (t_expected tl);
      Some (State (range s) bl (first s) (second s)
              (<[g := set_expected tl
                        (if ok : bool then PcWriteFalse else PcAcquireFalse) e]>
                 (tiles s)))
  | PcWriteFalse =>
      rg ← write_run n g (t_tmp tl) (fun x => negb (p x)) (t_false_idx tl)
             (t_p_false tl) (range s);
      Some (State rg (blocks s) (first s) (second s)
              (<[g := set_pc tl PcReleaseFalse]> (tiles s)))
  | PcReleaseFalse =>
      bl ← release_block (blocks s) (block_of (t_false_idx tl));
      Some (State (range s) bl (first s) (second s)
              (<[g := set_pc tl PcDone]> (tiles s)))
  | PcDone => Some s
  end.

(** The scheduler lets tile [g] take a step; a tile that does not exist
    takes none. *)
Definition step (s : state) (g : nat) : option state :=
  match tiles s !! g with
  | Some tl => step_tile s g tl
  | None => Some s
  end.

Fixpoint run (sched : list nat) (s : state) : option state :=
  match sched with
  | [] => Some s
  | g :: sched' => s' ← step s g; run sched' s'
  end.


(** [range.extent.tile<SIMD_w>().pad()] divided into tiles. *)
Definition n_tiles (n : nat) : nat := (n + (SIMD_w - 1)) / SIMD_w.

Definition tile0 : tile := Tile PcLoad [] [] [] 0 0 0 0 0.

(** The state the second [parallel_for_each] starts from: every block
    locked, [cnt(0u, range.extent.size())]. *)
Definition init_state (rg : list A) : state :=
  State rg (replicate (n_tiles (length rg)) 1) 0 (u32 (Z.of_nat (length rg)))
    (replicate (n_tiles (length rg)) tile0).

Definition finished (s : state) : bool :=
  forallb (fun tl => bool_decide (t_pc tl = PcDone)) (tiles s).

(** [partition(f, l, p)] on the array [a] under the schedule [sched];
    [None] when the kernel runs into undefined behaviour or [sched] leaves
    a tile unfinished. *)
Definition partition (sched : list nat) (a : list A) (f l : nat)
    : option (list A * nat) :=
  if decide (l <= f)%nat then Some (a, l)
  else
    s ← run sched (init_state (take (l - f) (drop f a)));
    if finished s
    then Some (take f a ++ range s ++ drop l a,
               (f + Z.to_nat (first s))%nat)
    else None.
End Partition.

(** ** Specification vocabulary *)

(** The arithmetic of an integer element type [T]: [wrap] reduces a
    mathematical sum to the type. *)
Class IntegerType (wrap : Z -> Z) : Prop := {
  wrap_add_l : forall x y, wrap (wrap x + y) = wrap (x + y);
  wrap_add_r : forall x y, wrap (x + wrap y) = wrap (x + y);
  wrap_0 : wrap 0 = 0
}.

Definition sumZ (xs : list Z) : Z := foldr Z.add 0 xs.

(** The elements at the positions [[i, j)] of [a]. *)
Definition slice (a : list Z) (i j : nat) : list Z := take (j - i) (drop i a).

(** A view of [lanes] rows of [c] columns tiles a range of [n] elements: it
    reaches the end of the range and no row starts past it. *)
Definition covers (lanes c n : nat) : Prop :=
  (1 <= c /\ n <= lanes * c /\ (lanes - 1) * c <= n)%nat.

(** [2^k] as the loop counter of [reduce]. *)
Fixpoint pow2_pos (k : nat) : positive :=
  match k with
  | O => xH
  | S k' => xO (pow2_pos k')
  end.

(** The first position of row [t] of a view with [c] columns on a range that
    starts at [f], and the position where the walk of that row stops. *)
Definition row_first (c f t : nat) : nat := (f + t * c)%nat.
Definition row_last (c f l t : nat) : nat := Nat.min (row_first c f t + c) l.

(** What a round of [reduce] with span [m] has done to [a] once it has
    processed the elements [e] with [D e]. *)
Definition round_inv (wrap : Z -> Z) (a : list Z) (l m : nat)
    (D : nat -> Prop) (a1 : list Z) : Prop :=
  length a1 = length a /\
  (forall j, (l - m <= j < l)%nat -> D (l - 1 - j)%nat ->
     a1 !! j = (x ← a !! j; y ← a !! (j - m)%nat; Some (wrap (x + y)))) /\
  (forall j, ~ ((l - m <= j < l)%nat /\ D (l - 1 - j)%nat) ->
     a1 !! j = a !! j).

(** The elements lane [t] of [reduce] has processed before its stride [q],
    with the lanes before it done. *)
Definition processed (tile_dim0 t q : nat) (e : nat) : Prop :=
  ((e mod tile_dim0 < t)%nat \/
   ((e mod tile_dim0)%nat = t /\ (e / tile_dim0 < q)%nat)).









(** The order of the program points. *)
Definition rank (c : pc) : nat :=
  match c with
  | PcLoad => 0 | PcReleaseOwn => 1 | PcReserveTrue => 2
  | PcReserveFalse => 3 | PcAcquireTrue => 4 | PcWriteTrue => 5
  | PcReleaseTrue => 6 | PcAcquireFalse => 7 | PcWriteFalse => 8
  | PcReleaseFalse => 9 | PcDone => 10
  end.




(** ** The serial helpers

    [lower_bound], [upper_bound], [copy], [merge], [swap], [swap_ranges],
    [max], [min], [pow], the [serial_accumulate] that takes an operation,
    and the spin loop of [acquire_block].

    The loops of these functions are run with a bound on the number of
    their iterations, so that a loop that does not end can be told from one
    that runs into undefined behaviour. *)

Inductive outcome (R : Type) : Type :=
| Done (r : R)     (* the function returns [r] *)
| Undefined        (* it reads or writes outside the array *)
| Running.         (* it has not returned within the bound *)

Arguments Done {R} r.
Arguments Undefined {R}.
Arguments Running {R}.

Definition outcome_bind {R S : Type} (o : outcome R) (k : R -> outcome S)
    : outcome S :=
  match o with
  | Done r => k r
  | Undefined => Undefined
  | Running => Running
  end.

(** The elements at the positions [[i, j)] of an array of any type. *)
Definition span {T : Type} (a : list T) (i j : nat) : list T :=
  take (j - i) (drop i a).

Section Serial.
Context {T : Type}.
(** [operator<] of the value type. *)
Variable less : T -> T -> bool.

(** *** [lower_bound], [upper_bound] *)

(** [while (f < l) { auto i0 = f + (l - f) / 2;
                     if ( *i0 < val ) f = ++i0; else l = i0; }] *)
Fixpoint lower_bound (fuel : nat) (a : list T) (f l : nat) (val : T)
    : outcome nat :=
  if decide (f < l)%nat then
    match fuel with
    | O => Running
    | S fuel' =>
        let i0 := (f + (l - f) / 2)%nat in
        match a !! i0 with
        | None => Undefined
        | Some x =>
            if less x val then lower_bound fuel' a (S i0) l val
            else lower_bound fuel' a f i0 val
        end
    end
  else Done f.

(** [if ( val < *i0 ) l = i0; else f = ++i0;] *)
Fixpoint upper_bound (fuel : nat) (a : list T) (f l : nat) (val : T)
    : outcome nat :=
  if decide (f < l)%nat then
    match fuel with
    | O => Running
    | S fuel' =>
        let i0 := (f + (l - f) / 2)%nat in
        match a !! i0 with
        | None => Undefined
        | Some x =>
            if less val x then upper_bound fuel' a f i0 val
            else upper_bound fuel' a (S i0) l val
        end
    end
  else Done f.

(** *** [copy] *)

(** [while (i_f < i_l) { *o_f = *i_f; o_f += off; i_f += off; }]; the
    result is the array and the returned [o_f]. *)
Fixpoint copy (fuel : nat) (a : list T) (i_f i_l o_f off : nat)
    : outcome (list T * nat) :=
  if decide (i_f < i_l)%nat then
    match fuel with
    | O => Running
    | S fuel' =>
        match a !! i_f with
        | None => Undefined
        | Some x =>
            if decide (o_f < length a)%nat
            then copy fuel' (<[o_f := x]> a) (i_f + off) i_l (o_f + off) off
            else Undefined
        end
    end
  else Done (a, o_f).

(** *** [merge] *)

(** [while ((f_1 != l_1) && (f_2 != l_2))
      *o_f++ = ( *f_1 < *f_2 ) ? *f_1++ : *f_2++;]
    The result is the array and the three iterators the loop leaves. *)
Fixpoint merge_heads (fuel : nat) (a : list T) (f_1 l_1 f_2 l_2 o_f : nat)
    : outcome (list T * nat * nat * nat) :=
  if decide (f_1 <> l_1 /\ f_2 <> l_2) then
    match fuel with
    | O => Running
    | S fuel' =>
        match a !! f_1, a !! f_2 with
        | Some x, Some y =>
            if decide (o_f < length a)%nat then
              if less x y
              then merge_heads fuel' (<[o_f := x]> a)
                     (S f_1) l_1 f_2 l_2 (S o_f)
              else merge_heads fuel' (<[o_f := y]> a)
                     f_1 l_1 (S f_2) l_2 (S o_f)
            else Undefined
        | _, _ => Undefined
        end
    end
  else Done (a, f_1, f_2, o_f).

(** [while (f != l) *o_f++ = *f++;] *)
Fixpoint merge_rest (fuel : nat) (a : list T) (f l o_f : nat)
    : outcome (list T * nat) :=
  if decide (f <> l) then
    match fuel with
    | O => Running
    | S fuel' =>
        match a !! f with
        | None => Undefined
        | Some x =>
            if decide (o_f < length a)%nat
            then merge_rest fuel' (<[o_f := x]> a) (S f) l (S o_f)
            else Undefined
        end
    end
  else Done (a, o_f).

(** [merge(f_1, l_1, f_2, l_2, o_f)]: the three loops, each within the
    bound. *)
Definition merge (fuel : nat) (a : list T) (f_1 l_1 f_2 l_2 o_f : nat)
    : outcome (list T * nat) :=
  outcome_bind (merge_heads fuel a f_1 l_1 f_2 l_2 o_f)
    (fun '(a1, f_1', f_2', o1) =>
       outcome_bind (merge_rest fuel a1 f_1' l_1 o1)
         (fun '(a2, o2) => merge_rest fuel a2 f_2' l_2 o2)).

(** *** [swap], [swap_ranges] *)

(** [const auto tmp = a; a = b; b = tmp;] on the elements at [i] and
    [j]. *)
Definition swap (a : list T) (i j : nat) : option (list T) :=
  tmp ← a !! i;
  b ← a !! j;
  Some (<[j := tmp]> (<[i := b]> a)).

(** [while (f_A < l_A) { swap( *f_A, *f_B ); f_A += off; f_B += off; }] *)
Fixpoint swap_ranges (fuel : nat) (a : list T) (f_A l_A f_B off : nat)
    : outcome (list T) :=
  if decide (f_A < l_A)%nat then
    match fuel with
    | O => Running
    | S fuel' =>
        match swap a f_A f_B with
        | None => Undefined
        | Some a' => swap_ranges fuel' a' (f_A + off) l_A (f_B + off) off
        end
    end
  else Done a.
End Serial.

(** *** [max], [min] for unsigned integers *)

(** The conversion of an [unsigned int] to [int], and
    [concurrency::direct3d::imax] and [imin], which take and return
    [int]. *)
Definition to_int (z : Z) : Z := if z <? 2 ^ 31 then z else z - 2 ^ 32.
Definition imax (x y : Z) : Z := Z.max x y.
Definition imin (x y : Z) : Z := Z.min x y.

(** [max(x0, x1)] and [min(x0, x1)] at [T = unsigned int]:
    [return (concurrency::direct3d::imax(x0, x1))], the result converted
    back to [unsigned int]. *)
Definition max_unsigned (x0 x1 : Z) : Z := u32 (imax (to_int x0) (to_int x1)).
Definition min_unsigned (x0 x1 : Z) : Z := u32 (imin (to_int x0) (to_int x1)).

(** *** [pow] *)

(** The values of [T] are integers; [n / T(2)] and [n % T(2)] are the
    truncating division of C++, [Z.quot] and [Z.rem]. *)

(** [pow_accum]:
    [while (true) { if (n % T(2) == T(1)) { r = o(r, a);
                                            if (n == T(1)) return (r); }
                    a = o(a, a); n /= T(2); }] *)
Fixpoint pow_accum (fuel : nat) (o : Z -> Z -> Z) (r a n : Z) : outcome Z :=
  match fuel with
  | O => Running
  | S fuel' =>
      if Z.rem n 2 =? 1 then
        if n =? 1 then Done (o r a)
        else pow_accum fuel' o (o r a) (o a a) (Z.quot n 2)
      else pow_accum fuel' o r (o a a) (Z.quot n 2)
  end.

(** [while (n % T(2) == T(0)) { a = op(a, a); n /= T(2); }] *)
Fixpoint pow_even (fuel : nat) (op : Z -> Z -> Z) (a n : Z)
    : outcome (Z * Z) :=
  if Z.rem n 2 =? 0 then
    match fuel with
    | O => Running
    | S fuel' => pow_even fuel' op (op a a) (Z.quot n 2)
    end
  else Done (a, n).

(** [pow(a, n, op)] *)
Definition pow (fuel : nat) (a n : Z) (op : Z -> Z -> Z) : outcome Z :=
  if n =? 0 then Done 1
  else
    outcome_bind (pow_even fuel op a n)
      (fun '(a', n') =>
         let n'' := Z.quot n' 2 in
         if n'' =? 0 then Done a'
         else pow_accum fuel op a' (op a' a') n'').

(** *** [serial_accumulate] with an operation *)

(** [while (f != l) { init = op(init, *f++); }] *)
Fixpoint accumulate_loop_op (op : Z -> Z -> Z) (a : list Z) (k f : nat)
    (init : Z) : option Z :=
  match k with
  | O => Some init
  | S k' => x ← a !! f; accumulate_loop_op op a k' (S f) (op init x)
  end.

Definition serial_accumulate_op (a : list Z) (f l : nat) (init : Z)
    (op : Z -> Z -> Z) : option Z :=
  if decide (l <= f)%nat then Some init
  else accumulate_loop_op op a (l - f) f init.

(** *** [acquire_block] *)

(** The spin loop of the lane that takes the lock:
    [unsigned int unlocked = 0u; unsigned int locked = 1u;
     while (!atomic_compare_exchange(&blocks(block), &unlocked, locked)) {}]
    with no other tile running between its attempts. *)
Fixpoint acquire_spin (fuel : nat) (bl : list Z) (block : nat)
    (unlocked : Z) : outcome (list Z) :=
  match fuel with
  | O => Running
  | S fuel' =>
      match try_acquire amp_cas bl block unlocked with
      | None => Undefined
      | Some (true, bl', _) => Done bl'
      | Some (false, bl', unlocked') =>
          acquire_spin fuel' bl' block unlocked'
      end
  end.

Definition acquire_block (fuel : nat) (bl : list Z) (block : nat)
    : outcome (list Z) :=
  acquire_spin fuel bl block 0.

(** ** Vocabulary for the serial helpers *)

(** What the templates ask of [operator<]: a strict weak order. *)
Class StrictWeakOrder {T : Type} (less : T -> T -> bool) : Prop := {
  less_irrefl : forall x, less x x = false;
  less_trans : forall x y z,
    less x y = true -> less y z = true -> less x z = true;
  less_incomparable : forall x y z,
    less x y = false -> less y z = false -> less x z = false
}.

(** The range [[f, l)] of [a] is in non-descending order. *)
Definition ascending {T : Type} (less : T -> T -> bool) (a : list T)
    (f l : nat) : Prop :=
  forall i j x y, (f <= i)%nat -> (i <= j)%nat -> (j < l)%nat ->
    a !! i = Some x -> a !! j = Some y -> less y x = false.

(** The number of iterations of a loop that walks [[f, l)] in steps of
    [off]. *)
Definition strides (f l off : nat) : nat := ((l - f + (off - 1)) / off)%nat.

(** [op] applied to [k + 1] copies of [a], from the right. *)
Fixpoint op_power (op : Z -> Z -> Z) (a : Z) (k : nat) : Z :=
  match k with
  | O => a
  | S k' => op a (op_power op a k')
  end.

(** The list that merging two lists by the rule of [merge] gives: the head
    of the first list is taken when it is less than the head of the
    second. *)
Fixpoint merge_lists {T : Type} (less : T -> T -> bool) (xs ys : list T)
    {struct xs} : list T :=
  match xs with
  | [] => ys
  | x :: xs' =>
      (fix merge_into (ys : list T) : list T :=
         match ys with
         | [] => x :: xs'
         | y :: ys' =>
             if less x y then x :: merge_lists less xs' ys
             else y :: merge_into ys'
         end) ys
  end.

(** A list in non-descending order: no element is less than one before
    it. *)
Fixpoint nondescending {T : Type} (less : T -> T -> bool) (zs : list T)
    : Prop :=
  match zs with
  | [] => True
  | z :: zs' => Forall (fun y => less y z = false) zs' /\
                nondescending less zs'
  end.

(** ** Vocabulary for the partition kernel *)

(** Every element of the sequence, and every element that a tile holds in
    a valid lane once it has loaded its chunk, satisfies [P]. *)
Definition values_ok {A : Type} (P : A -> Prop) (dflt : A) (n : nat)
    (s : state (A := A)) : Prop :=
  length (range s) = n /\ Forall P (range s) /\
  forall g tl t, tiles s !! g = Some tl -> t_pc tl <> PcLoad ->
    (t < SIMD_w)%nat -> lane_valid n g t = true ->
    P (nth t (t_tmp tl) dflt).

(** No tile has reserved a false run that holds an element, and no tile is
    past the acquisition of the block of its false run. *)
Definition no_false_run {A : Type} (n : nat) (s : state (A := A)) : Prop :=
  length (blocks s) = n_tiles n /\ second s = Z.of_nat n /\
  forall g tl, tiles s !! g = Some tl ->
    (rank (t_pc tl) <= 7)%nat /\
    ((3 <= rank (t_pc tl))%nat -> t_false_off tl = 0) /\
    ((4 <= rank (t_pc tl))%nat -> t_false_idx tl = Z.of_nat n).

(** * Proofs *)

(** ** [padded_cols] *)

Lemma padded_cols_quot_range (length rows : Z) :
  is_u32 length -> 0 < rows -> 0 <= length / rows < 2 ^ 32.
Proof.
  intros [H0 H1] Hr. split.
  - apply Z.div_pos; lia.
  - apply Z.le_lt_trans with length; [|lia].
    apply Z.div_le_upper_bound; nia.
Qed.

Lemma padded_cols_of_odd_quotient (length rows : Z) :
  (length / rows) mod 2 = 1 -> padded_cols length rows = length / rows.
Proof.
  intros H. unfold padded_cols. rewrite H. reflexivity.
Qed.

Lemma padded_cols_of_even_quotient (length rows : Z) :
  is_u32 length -> 0 < rows ->
  (length / rows) mod 2 = 0 -> padded_cols length rows = length / rows + 1.
Proof.
  intros Hl Hr H. unfold padded_cols. rewrite H. simpl.
  pose proof (padded_cols_quot_range length rows Hl Hr) as [Hq0 Hq1].
  unfold u32. apply Z.mod_small. split; [lia|].
  (* an even quotient is at most 2^32 - 2 *)
  assert (length / rows <> 2 ^ 32 - 1).
  { intros E. rewrite E in H. vm_compute in H. discriminate. }
  lia.
Qed.

Lemma odd_coprime_32 (c : Z) : c mod 2 = 1 -> Z.gcd c 32 = 1.
Proof.
  intros Hodd.
  rewrite Z.gcd_comm, <- Z.gcd_mod by lia. rewrite Z.gcd_comm.
  assert (Hm : (c mod 32) mod 2 = 1).
  { rewrite Z.mod_mod_divide; [exact Hodd|]. exists 16. reflexivity. }
  pose proof (Z.mod_pos_bound c 32 ltac:(lia)) as Hb.
  remember (c mod 32) as x eqn:Hx. clear Hx Hodd c.
  assert (Hcases : x = 1 \/ x = 3 \/ x = 5 \/ x = 7 \/ x = 9 \/ x = 11 \/
          x = 13 \/ x = 15 \/ x = 17 \/ x = 19 \/ x = 21 \/ x = 23 \/
          x = 25 \/ x = 27 \/ x = 29 \/ x = 31).
  { assert (x = 2 * (x / 2) + 1) by (pose proof (Z.div_mod x 2); lia). lia. }
  repeat (destruct Hcases as [->|Hcases]; [reflexivity|]).
  subst x. reflexivity.
Qed.

(** C7.  For every [length] and every [rows > 0] (both [unsigned int]),
    [padded_cols length rows] is odd, hence co-prime with the 32 banks of the
    scratch memory: it is the quotient [length / rows] when that quotient is
    odd and [length / rows + 1] when the quotient is even (0 included). *)
Theorem padded_cols_odd (length rows : Z) :
  is_u32 length -> 0 < rows ->
  Z.odd (padded_cols length rows) = true /\
  Z.gcd (padded_cols length rows) 32 = 1 /\
  (Z.odd (length / rows) = true -> padded_cols length rows = length / rows) /\
  (Z.even (length / rows) = true ->
   padded_cols length rows = length / rows + 1).
Proof.
  intros Hl Hr.
  assert (Hcase : (length / rows) mod 2 = 0 \/ (length / rows) mod 2 = 1).
  { pose proof (Z.mod_pos_bound (length / rows) 2). lia. }
  assert (Hodd : padded_cols length rows mod 2 = 1).
  { destruct Hcase as [He|Ho].
    - rewrite padded_cols_of_even_quotient by assumption.
      rewrite <- Zplus_mod_idemp_l, He. reflexivity.
    - rewrite padded_cols_of_odd_quotient by assumption. exact Ho. }
  split; [|split; [|split]].
  - rewrite Zmod_odd in Hodd.
    destruct (Z.odd (padded_cols length rows)); [reflexivity|discriminate].
  - apply odd_coprime_32, Hodd.
  - intros H. apply padded_cols_of_odd_quotient.
    rewrite Zmod_odd, H. reflexivity.
  - intros H. apply padded_cols_of_even_quotient; try assumption.
    rewrite Zmod_even, H. reflexivity.
Qed.

Lemma padded_cols_odd_witness :
  Z.odd (padded_cols 64 8) = true /\ padded_cols 64 8 = 9 /\
  padded_cols 3 8 = 1 /\ padded_cols 24 8 = 3.
Proof.
  destruct (padded_cols_odd 64 8) as (Ho & _ & _ & He);
    [unfold is_u32; lia | lia |].
  split; [exact Ho|]. split; [exact (He eq_refl)|].
  split; reflexivity.
Defined.

(** ** Sums and slices *)

Lemma sumZ_app (xs ys : list Z) : sumZ (xs ++ ys) = sumZ xs + sumZ ys.
Proof. induction xs as [|x xs IH]; simpl; [reflexivity|]. rewrite IH. lia. Qed.

Lemma sumZ_cons (x : Z) (xs : list Z) : sumZ (x :: xs) = x + sumZ xs.
Proof. reflexivity. Qed.

Lemma slice_nil (a : list Z) (i j : nat) : (j <= i)%nat -> slice a i j = [].
Proof.
  intros H. unfold slice. replace (j - i)%nat with 0%nat by lia. reflexivity.
Qed.

Lemma slice_cons (a : list Z) (i j : nat) (x : Z) :
  (i < j)%nat -> a !! i = Some x -> slice a i j = x :: slice a (S i) j.
Proof.
  intros Hij Hx. unfold slice.
  replace (j - i)%nat with (S (j - S i)) by lia.
  rewrite (drop_S a x i Hx). reflexivity.
Qed.

Lemma slice_app (a : list Z) (i j k : nat) :
  (i <= j <= k)%nat -> slice a i k = slice a i j ++ slice a j k.
Proof.
  intros H. unfold slice.
  replace (k - i)%nat with ((j - i) + (k - j))%nat by lia.
  rewrite <- take_take_drop, drop_drop.
  replace (i + (j - i))%nat with j by lia. reflexivity.
Qed.

Lemma slice_snoc (a : list Z) (i j : nat) (x : Z) :
  (i <= j)%nat -> a !! j = Some x -> slice a i (S j) = slice a i j ++ [x].
Proof.
  intros Hij Hx. rewrite (slice_app a i j (S j)) by lia.
  rewrite (slice_cons a j (S j) x) by (lia || assumption).
  rewrite (slice_nil a (S j) (S j)) by lia. reflexivity.
Qed.

Lemma slice_ext (a b : list Z) (i j : nat) :
  (forall t, (i <= t < j)%nat -> a !! t = b !! t) -> slice a i j = slice b i j.
Proof.
  intros H. apply list_eq. intros k. unfold slice.
  rewrite !lookup_take. destruct (decide (k < j - i)%nat); [|reflexivity].
  rewrite !lookup_drop. apply H. lia.
Qed.

Lemma sumZ_slice_split (a : list Z) (i j k : nat) :
  (i <= j <= k)%nat ->
  sumZ (slice a i k) = sumZ (slice a i j) + sumZ (slice a j k).
Proof. intros H. rewrite (slice_app a i j k H). apply sumZ_app. Qed.

(** ** The loops of the serial helpers *)

Lemma run_lanes_app {S : Type} (body : nat -> S -> option S)
    (xs ys : list nat) (s : S) :
  run_lanes body (xs ++ ys) s
  = s' ← run_lanes body xs s; run_lanes body ys s'.
Proof.
  revert s. induction xs as [|x xs IH]; intros s; simpl; [reflexivity|].
  destruct (body x s) as [s1|]; simpl; [apply IH|reflexivity].
Qed.

(** A phase establishes an invariant [P k] when every lane [t] takes it from
    [P t] to [P (S t)]. *)
Lemma run_lanes_inv {S : Type} (body : nat -> S -> option S)
    (P : nat -> S -> Prop) (k : nat) (s : S) :
  P 0%nat s ->
  (forall t s, (t < k)%nat -> P t s ->
     exists s', body t s = Some s' /\ P (Datatypes.S t) s') ->
  exists s', run_lanes body (seq 0 k) s = Some s' /\ P k s'.
Proof.
  intros H0 Hstep. induction k as [|k IH].
  - exists s. split; [reflexivity|exact H0].
  - destruct IH as (s1 & Hrun & HP).
    { intros t s0 Ht. apply Hstep. lia. }
    destruct (Hstep k s1 ltac:(lia) HP) as (s2 & Hb & HP2).
    exists s2. split; [|exact HP2].
    rewrite seq_S, run_lanes_app, Hrun. simpl. rewrite Hb. reflexivity.
Qed.

Section Arithmetic.
Variable wrap : Z -> Z.
Context `{HT : !IntegerType wrap}.

Lemma wrap_idem (x : Z) : wrap (wrap x) = wrap x.
Proof.
  replace (wrap x) with (wrap x + 0) at 1 by lia.
  rewrite wrap_add_l, Z.add_0_r. reflexivity.
Qed.

Lemma accumulate_loop_spec (a : list Z) (k f : nat) (init : Z) :
  (f + k <= length a)%nat -> wrap init = init ->
  accumulate_loop wrap a k f init
  = Some (wrap (init + sumZ (slice a f (f + k)))).
Proof.
  revert f init. induction k as [|k IH]; intros f init Hlen Hinit; simpl.
  - rewrite slice_nil by lia. simpl. rewrite Z.add_0_r, Hinit. reflexivity.
  - destruct (lookup_lt_is_Some_2 a f ltac:(lia)) as [x Hx].
    rewrite Hx. simpl. rewrite IH by (lia || apply wrap_idem).
    rewrite (slice_cons a f (f + S k) x) by (lia || assumption).
    rewrite sumZ_cons.
    replace (S f + k)%nat with (f + S k)%nat by lia.
    rewrite wrap_add_l. f_equal. f_equal. lia.
Qed.

Lemma serial_accumulate_spec (a : list Z) (f l : nat) :
  (l <= length a)%nat ->
  serial_accumulate wrap a f l 0 = Some (wrap (sumZ (slice a f l))).
Proof.
  intros Hl. unfold serial_accumulate. destruct (decide (l <= f)%nat).
  - rewrite slice_nil by lia. simpl. rewrite wrap_0. reflexivity.
  - rewrite accumulate_loop_spec by (lia || apply wrap_0).
    replace (f + (l - f))%nat with l by lia. reflexivity.
Qed.

(** The walk of one row: it stops at [e], the end of the row or of the
    range, and leaves the running sums behind. *)
Lemma row_walk_spec (k i l : nat) (res : Z) (a : list Z) :
  (i <= l)%nat -> (Nat.min (i + k) l <= length a)%nat -> wrap res = res ->
  exists a', row_walk wrap k i l res a = Some a' /\
    length a' = length a /\
    forall j, a' !! j =
      if decide (i <= j < Nat.min (i + k) l)%nat
      then Some (wrap (res + sumZ (slice a i j)))
      else a !! j.
Proof.
  revert i res a. induction k as [|k IH]; intros i res a Hil Hlen Hres.
  - exists a. simpl. split; [reflexivity|]. split; [reflexivity|].
    intros j. destruct (decide _); [lia|reflexivity].
  - simpl. destruct (decide (i = l)) as [->|Hne].
    + exists a. split; [reflexivity|]. split; [reflexivity|].
      intros j. destruct (decide _); [lia|reflexivity].
    + destruct (lookup_lt_is_Some_2 a i ltac:(lia)) as [x Hx].
      rewrite Hx. simpl.
      destruct (IH (S i) (wrap (res + x)) (<[i := res]> a))
        as (a' & Hrun & Hlen' & Hlook).
      { lia. } { rewrite length_insert. lia. } { apply wrap_idem. }
      exists a'. split; [exact Hrun|].
      split; [rewrite Hlen', length_insert; reflexivity|].
      intros j. rewrite Hlook.
      replace (S i + k)%nat with (i + S k)%nat by lia.
      destruct (decide (S i <= j < Nat.min (i + S k) l)%nat) as [Hj|Hj].
      * destruct (decide _); [|lia].
        rewrite (slice_ext (<[i := res]> a) a (S i) j).
        2:{ intros t Ht. apply list_lookup_insert_ne. lia. }
        rewrite (slice_cons a i j x) by (lia || assumption).
        rewrite sumZ_cons, wrap_add_l. f_equal. f_equal. lia.
      * destruct (decide (i <= j < Nat.min (i + S k) l)%nat) as [Hj'|Hj'].
        -- assert (j = i) as -> by lia.
           rewrite list_lookup_insert_eq by lia.
           rewrite slice_nil by lia. simpl.
           rewrite Z.add_0_r, Hres. reflexivity.
        -- apply list_lookup_insert_ne. lia.
Qed.

Lemma scan_loop_row_walk (k f l : nat) (res : Z) (a : list Z) :
  (f + k <= l)%nat -> scan_loop wrap k f res a = row_walk wrap k f l res a.
Proof.
  revert f res a. induction k as [|k IH]; intros f res a H; simpl.
  - reflexivity.
  - destruct (decide (f = l)); [lia|].
    destruct (a !! f); simpl; [|reflexivity]. apply IH. lia.
Qed.

(** [serial_scan] leaves the exclusive prefix sums in [[f, l)] and returns
    the last position. *)
Lemma serial_scan_spec (a : list Z) (f l : nat) :
  (f < l <= length a)%nat ->
  exists a', serial_scan wrap a f l = Some (a', (l - 1)%nat) /\
    length a' = length a /\
    forall j, a' !! j =
      if decide (f <= j < l)%nat
      then Some (wrap (sumZ (slice a f j)))
      else a !! j.
Proof.
  intros H. unfold serial_scan. destruct (decide (l <= f)%nat); [lia|].
  rewrite (scan_loop_row_walk _ _ l) by lia.
  destruct (row_walk_spec (l - f) f l 0 a) as (a' & Hrun & Hlen & Hlook);
    [lia|lia|apply wrap_0|].
  exists a'. rewrite Hrun. simpl. split; [reflexivity|].
  split; [exact Hlen|]. intros j. rewrite Hlook.
  replace (Nat.min (f + (l - f)) l) with l by lia.
  destruct (decide _); reflexivity.
Qed.
End Arithmetic.

(** ** The operator-parameterized [serial_scan] *)

(** It leaves [res], [op res a_f], [op (op res a_f) a_(f+1)], ... in the
    range, [res] being the value the accumulator starts with. *)
Lemma scan_loop_op_spec (op : Z -> Z -> Z) (k f : nat) (res : Z)
    (a : list Z) :
  (f + k <= length a)%nat ->
  exists a', scan_loop_op op k f res a = Some a' /\
    length a' = length a /\
    forall j, a' !! j =
      if decide (f <= j < f + k)%nat
      then Some (fold_left op (slice a f j) res)
      else a !! j.
Proof.
  revert f res a. induction k as [|k IH]; intros f res a Hlen.
  - exists a. split; [reflexivity|]. split; [reflexivity|].
    intros j. destruct (decide _); [lia|reflexivity].
  - simpl. destruct (lookup_lt_is_Some_2 a f ltac:(lia)) as [x Hx].
    rewrite Hx. simpl.
    destruct (IH (S f) (op res x) (<[f := res]> a))
      as (a' & Hrun & Hlen' & Hlook).
    { rewrite length_insert. lia. }
    exists a'. split; [exact Hrun|].
    split; [rewrite Hlen', length_insert; reflexivity|].
    intros j. rewrite Hlook.
    destruct (decide (S f <= j < S f + k)%nat) as [Hj|Hj].
    + destruct (decide _); [|lia].
      rewrite (slice_ext (<[f := res]> a) a (S f) j).
      2:{ intros t Ht. apply list_lookup_insert_ne. lia. }
      rewrite (slice_cons a f j x) by (lia || assumption). reflexivity.
    + destruct (decide (f <= j < f + S k)%nat) as [Hj'|Hj'].
      * assert (j = f) as -> by lia.
        rewrite list_lookup_insert_eq by lia.
        rewrite slice_nil by lia. reflexivity.
      * apply list_lookup_insert_ne. lia.
Qed.

Lemma serial_scan_op_spec (op : Z -> Z -> Z) (uninit : Z) (a : list Z)
    (f l : nat) :
  (f < l <= length a)%nat ->
  exists a', serial_scan_op uninit a f l op = Some (a', (l - 1)%nat) /\
    length a' = length a /\
    a' !! f = Some uninit /\
    forall j x, (f <= j)%nat -> (S j < l)%nat -> a !! j = Some x ->
      a' !! S j = (y ← a' !! j; Some (op y x)).
Proof.
  intros H. unfold serial_scan_op. destruct (decide (l <= f)%nat); [lia|].
  destruct (scan_loop_op_spec op (l - f) f uninit a ltac:(lia))
    as (a' & -> & Hlen & Hlook).
  simpl. exists a'. split; [reflexivity|]. split; [exact Hlen|]. split.
  - rewrite Hlook. destruct (decide _); [|lia].
    rewrite slice_nil by lia. reflexivity.
  - intros j x Hj HSj Hx. rewrite !Hlook.
    destruct (decide (f <= S j < f + (l - f))%nat); [|lia].
    destruct (decide (f <= j < f + (l - f))%nat); [|lia].
    rewrite (slice_snoc a f j x Hj Hx), fold_left_app. reflexivity.
Qed.

Lemma mset_eq (m : mem) (r : region) (a : list Z) : mset m r a r = a.
Proof. unfold mset. destruct (decide (r = r)); [reflexivity|congruence]. Qed.

Lemma mset_ne (m : mem) (r r' : region) (a : list Z) :
  r' <> r -> mset m r a r' = m r'.
Proof.
  intros H. unfold mset. destruct (decide (r' = r)); [congruence|reflexivity].
Qed.

Lemma run_lanes_skip {S : Type} (body : nat -> S -> option S)
    (ts : list nat) (s : S) :
  (forall t, In t ts -> body t s = Some s) -> run_lanes body ts s = Some s.
Proof.
  induction ts as [|t ts IH]; intros H; simpl; [reflexivity|].
  rewrite H by (left; reflexivity). simpl. apply IH.
  intros u Hu. apply H. right. exact Hu.
Qed.

(** The row of a position. *)
Lemma row_of_position (c f t j : nat) :
  (row_first c f t <= j < row_first c f t + c)%nat -> ((j - f) / c)%nat = t.
Proof.
  unfold row_first. intros H. symmetry.
  apply (Nat.div_unique (j - f) c t (j - f - t * c)); lia.
Qed.

Lemma position_in_row (c f j : nat) :
  (1 <= c)%nat -> (f <= j)%nat ->
  (row_first c f ((j - f) / c) <= j < row_first c f ((j - f) / c) + c)%nat.
Proof.
  intros Hc Hj. unfold row_first.
  pose proof (Nat.div_mod_eq (j - f) c) as E.
  pose proof (Nat.mod_upper_bound (j - f) c ltac:(lia)) as B.
  lia.
Qed.

Section Rows.
Variable wrap : Z -> Z.
Context `{HT : !IntegerType wrap}.

Variable tile_dim0 : nat.

Lemma reduce_rows_phase (rows : nat) (r : region) (f l : nat) (m : mem) :
  r <> RowSums rows -> (l <= length (m r))%nat ->
  length (m (RowSums rows)) = rows ->
  exists m', run_lanes (reduce_rows wrap rows r f l) (seq 0 tile_dim0) m
             = Some m' /\
    (forall r', r' <> RowSums rows -> m' r' = m r') /\
    length (m' (RowSums rows)) = rows /\
    forall t, m' (RowSums rows) !! t =
      if decide (t < Nat.min rows tile_dim0)%nat
      then Some (wrap (sumZ (slice (m r) (row_first (cols rows f l) f t)
                               (row_last (cols rows f l) f l t))))
      else m (RowSums rows) !! t.
Proof.
  intros Hne Hl Hlen.
  set (c := cols rows f l). set (sums := RowSums rows) in *.
  pose (P := fun (k : nat) (m' : mem) =>
    (forall r', r' <> sums -> m' r' = m r') /\
    length (m' sums) = rows /\
    forall t, m' sums !! t =
      if decide (t < Nat.min rows k)%nat
      then Some (wrap (sumZ (slice (m r) (row_first c f t)
                               (row_last c f l t))))
      else m sums !! t).
  destruct (run_lanes_inv (reduce_rows wrap rows r f l) P tile_dim0 m)
    as (m' & Hrun & HP).
  - split; [reflexivity|]. split; [exact Hlen|].
    intros t. destruct (decide _); [lia|reflexivity].
  - intros t m1 Ht (Hfr & Hlen1 & Hs). unfold reduce_rows.
    destruct (decide (t < rows)%nat) as [Htr|Htr].
    + fold c. fold (row_first c f t).
      replace (if decide (row_first c f t + c <= l)%nat
               then (row_first c f t + c)%nat else l)
        with (row_last c f l t)
        by (unfold row_last; destruct (decide _); lia).
      rewrite (Hfr r Hne).
      rewrite serial_accumulate_spec
        by (assumption || (unfold row_last; lia)).
      simpl. unfold mstore. fold sums.
      destruct (decide (t < length (m1 sums))%nat); [|lia].
      eexists. split; [reflexivity|]. split; [|split].
      * intros r' Hr'. rewrite mset_ne by exact Hr'. apply Hfr, Hr'.
      * rewrite mset_eq, length_insert. exact Hlen1.
      * intros u. rewrite mset_eq.
        destruct (decide (u = t)) as [->|Hut].
        -- rewrite list_lookup_insert_eq by lia.
           destruct (decide _); [reflexivity|lia].
        -- rewrite list_lookup_insert_ne by lia. rewrite Hs.
           destruct (decide (u < Nat.min rows t)%nat);
             destruct (decide (u < Nat.min rows (S t))%nat);
             try reflexivity; lia.
    + exists m1. split; [reflexivity|]. split; [exact Hfr|].
      split; [exact Hlen1|]. intros u. rewrite Hs.
      destruct (decide (u < Nat.min rows t)%nat);
        destruct (decide (u < Nat.min rows (S t))%nat);
        try reflexivity; lia.
  - exists m'. split; [exact Hrun|]. exact HP.
Qed.

(** The sums of the rows before row [t] add up to the sum of the range up
    to the start of row [t]. *)
Lemma row_sums_prefix (c f l : nat) (a s : list Z) (k t : nat) :
  (f <= l)%nat -> (t <= k)%nat ->
  (forall u, (u < k)%nat ->
     s !! u = Some (wrap (sumZ (slice a (row_first c f u)
                                  (row_last c f l u))))) ->
  wrap (sumZ (slice s 0 t))
  = wrap (sumZ (slice a f (Nat.min (row_first c f t) l))).
Proof.
  intros Hfl Htk Hs. induction t as [|t IH].
  - rewrite !slice_nil by (unfold row_first; lia). reflexivity.
  - rewrite (slice_snoc s 0 t _ ltac:(lia) (Hs t ltac:(lia))).
    rewrite sumZ_app, sumZ_cons. simpl sumZ.
    rewrite Z.add_0_r, wrap_add_r, <- wrap_add_l, IH by lia.
    rewrite wrap_add_l.
    rewrite (sumZ_slice_split a f (Nat.min (row_first c f t) l)
               (Nat.min (row_first c f (S t)) l))
      by (unfold row_first; lia).
    f_equal. f_equal.
    destruct (decide (row_first c f t <= l)%nat) as [Hle|Hgt].
    + replace (Nat.min (row_first c f t) l) with (row_first c f t) by lia.
      replace (Nat.min (row_first c f (S t)) l) with (row_last c f l t)
        by (unfold row_last, row_first; lia).
      reflexivity.
    + rewrite !slice_nil; [reflexivity| |];
        unfold row_last, row_first in *; lia.
Qed.

Lemma scan_rows_phase (rows : nat) (r : region) (f l : nat) (m : mem)
    (seed : nat -> Z) :
  r <> RowSums rows -> (f <= l <= length (m r))%nat ->
  covers (Nat.min rows tile_dim0) (cols rows f l) (l - f) ->
  (forall t, (t < Nat.min rows tile_dim0)%nat ->
     m (RowSums rows) !! t = Some (seed t) /\ wrap (seed t) = seed t) ->
  exists m', run_lanes (scan_rows wrap rows r f l) (seq 0 tile_dim0) m
             = Some m' /\
    (forall r', r' <> r -> m' r' = m r') /\
    length (m' r) = length (m r) /\
    forall j, m' r !! j =
      if decide (f <= j < l)%nat
      then Some (wrap (seed ((j - f) / cols rows f l)%nat
                       + sumZ (slice (m r)
                                 (row_first (cols rows f l) f
                                    ((j - f) / cols rows f l)) j)))
      else m r !! j.
Proof.
  intros Hne Hfl (Hc & Hcov & Hlast) Hseed.
  set (c := cols rows f l) in *. set (sums := RowSums rows) in *.
  pose (B := fun k : nat => Nat.min (row_first c f (Nat.min k rows)) l).
  pose (P := fun (k : nat) (m' : mem) =>
    (forall r', r' <> r -> m' r' = m r') /\
    length (m' r) = length (m r) /\
    forall j, m' r !! j =
      if decide (f <= j < B k)%nat
      then Some (wrap (seed ((j - f) / c)%nat
                       + sumZ (slice (m r) (row_first c f ((j - f) / c)) j)))
      else m r !! j).
  destruct (run_lanes_inv (scan_rows wrap rows r f l) P tile_dim0 m)
    as (m' & Hrun & Hfr & Hlen & Hlook).
  - split; [reflexivity|]. split; [reflexivity|].
    intros j. unfold B, row_first. destruct (decide _); [lia|reflexivity].
  - intros t m1 Ht (Hfr & Hlen1 & Hl1). unfold scan_rows.
    destruct (decide (t < rows)%nat) as [Htr|Htr].
    + fold c sums. fold (row_first c f t).
      destruct (Hseed t ltac:(lia)) as [Hst Hw].
      rewrite (Hfr sums) by congruence. rewrite Hst. simpl.
      assert (Hrow : (row_first c f t <= l)%nat).
      { unfold row_first. nia. }
      destruct (row_walk_spec wrap (cols rows f l)
                  (row_first c f t) l (seed t) (m1 r))
        as (a' & Hwalk & Hlen' & Hlook'); [lia|lia|exact Hw|].
      fold c in Hwalk, Hlook'. rewrite Hwalk. simpl.
      eexists. split; [reflexivity|]. split; [|split].
      * intros r' Hr'. rewrite mset_ne by exact Hr'. apply Hfr, Hr'.
      * rewrite mset_eq. lia.
      * intros j. rewrite mset_eq, Hlook'.
        assert (HBt : B t = row_first c f t).
        { unfold B. replace (Nat.min t rows) with t by lia. lia. }
        assert (HBS : B (S t) = Nat.min (row_first c f t + c) l).
        { unfold B. replace (Nat.min (S t) rows) with (S t) by lia.
          unfold row_first. lia. }
        destruct (decide (row_first c f t <= j
                          < Nat.min (row_first c f t + c) l)%nat) as [Hj|Hj].
        -- destruct (decide (f <= j < B (S t))%nat) as [_|Hn];
             [|unfold row_first in *; lia].
           rewrite (row_of_position c f t j) by lia.
           rewrite (slice_ext (m1 r) (m r) (row_first c f t) j);
             [reflexivity|].
           intros u Hu. rewrite Hl1.
           destruct (decide (f <= u < B t)%nat); [lia|reflexivity].
        -- rewrite Hl1.
           destruct (decide (f <= j < B t)%nat);
             destruct (decide (f <= j < B (S t))%nat);
             try reflexivity; lia.
    + exists m1. split; [reflexivity|]. split; [exact Hfr|].
      split; [exact Hlen1|]. intros j. rewrite Hl1.
      replace (B (S t)) with (B t)
        by (unfold B; replace (Nat.min (S t) rows) with (Nat.min t rows)
              by lia; reflexivity).
      reflexivity.
  - exists m'. split; [exact Hrun|]. split; [exact Hfr|].
    split; [exact Hlen|]. intros j. rewrite Hlook.
    assert (HB : B tile_dim0 = l).
    { unfold B, row_first.
      replace (Nat.min tile_dim0 rows) with (Nat.min rows tile_dim0) by lia.
      lia. }
    rewrite HB. reflexivity.
Qed.
End Rows.

Section TwoLevel.
Variable wrap : Z -> Z.
Context `{HT : !IntegerType wrap}.

(** Seeding the walk of the row of [j] with the exclusive sum of the row
    sums before it gives the exclusive sum at [j]. *)
Lemma seeded_row_sum (c f l lanes : nat) (a s : list Z) (j : nat) :
  covers lanes c (l - f) -> (f <= j < l)%nat ->
  (forall u, (u < lanes)%nat ->
     s !! u = Some (wrap (sumZ (slice a (row_first c f u)
                                  (row_last c f l u))))) ->
  wrap (wrap (sumZ (slice s 0 ((j - f) / c)))
        + sumZ (slice a (row_first c f ((j - f) / c)) j))
  = wrap (sumZ (slice a f j)).
Proof.
  intros (Hc & Hcov & Hlast) Hj Hs.
  pose proof (position_in_row c f j Hc ltac:(lia)) as Hrow.
  assert (Ht : ((j - f) / c < lanes)%nat).
  { apply Nat.Div0.div_lt_upper_bound. nia. }
  rewrite (row_sums_prefix wrap c f l a s lanes)
    by (lia || assumption).
  replace (Nat.min (row_first c f ((j - f) / c)) l)
    with (row_first c f ((j - f) / c)) by lia.
  rewrite wrap_add_l.
  rewrite <- sumZ_slice_split by (unfold row_first in *; lia).
  reflexivity.
Qed.

Variable tile_dim0 : nat.
Hypothesis tile_dim_pos : (0 < tile_dim0)%nat.

Lemma scan_sums_spec (r : region) (f l : nat) (m : mem) :
  r <> RowSums 8 -> (f < l <= length (m r))%nat ->
  length (m (RowSums 8)) = 8%nat ->
  covers (Nat.min 8 tile_dim0) (cols 8 f l) (l - f) ->
  exists m', scan_sums wrap tile_dim0 r f l m = Some m' /\
    (forall r', r' <> r -> r' <> RowSums 8 -> m' r' = m r') /\
    length (m' r) = length (m r) /\
    length (m' (RowSums 8)) = 8%nat /\
    forall j, m' r !! j =
      if decide (f <= j < l)%nat
      then Some (wrap (sumZ (slice (m r) f j)))
      else m r !! j.
Proof.
  intros Hne Hfl Hlen8 Hcov. unfold scan_sums, lanes.
  destruct (reduce_rows_phase wrap tile_dim0 8 r f l m)
    as (m1 & -> & Hfr1 & Hlen1 & Hs1); [assumption|lia|assumption|].
  simpl.
  assert (Hseq : exists k, seq 0 tile_dim0 = 0%nat :: seq 1 k).
  { destruct tile_dim0 as [|k]; [lia|]. exists k. reflexivity. }
  destruct Hseq as (k & Hseq). rewrite Hseq.
  cbn [run_lanes]. destruct (decide (0 = 0)%nat); [|lia].
  destruct (serial_scan_spec wrap (m1 (RowSums 8)) 0 8)
    as (a' & -> & Hlen' & Hlook'); [lia|].
  simpl.
  rewrite run_lanes_skip.
  2:{ intros t Ht. apply in_seq in Ht.
      destruct (decide (t = 0)%nat); [lia|reflexivity]. }
  simpl.
  set (m2 := mset m1 (RowSums 8) a').
  destruct (scan_rows_phase wrap tile_dim0 8 r f l m2
              (fun t => wrap (sumZ (slice (m1 (RowSums 8)) 0 t))))
    as (m3 & Hrun3 & Hfr3 & Hlen3 & Hlook3).
  - assumption.
  - unfold m2. rewrite mset_ne by assumption. rewrite Hfr1 by assumption. lia.
  - assumption.
  - intros t Ht. split; [|apply wrap_idem; assumption].
    unfold m2. rewrite mset_eq, Hlook'.
    destruct (decide (0 <= t < 8)%nat); [reflexivity|lia].
  - exists m3. rewrite Hseq in Hrun3. split; [exact Hrun3|].
    assert (Hm2r : m2 r = m r).
    { unfold m2. rewrite mset_ne by assumption. apply Hfr1. assumption. }
    split; [|split; [|split]].
    + intros r' Hr1 Hr2. rewrite Hfr3 by assumption.
      unfold m2. rewrite mset_ne by assumption. apply Hfr1. assumption.
    + rewrite Hlen3, Hm2r. reflexivity.
    + rewrite Hfr3 by congruence. unfold m2. rewrite mset_eq. lia.
    + intros j. rewrite Hlook3, Hm2r.
      destruct (decide (f <= j < l)%nat) as [Hj|Hj]; [|reflexivity].
      f_equal.
      apply (seeded_row_sum (cols 8 f l) f l (Nat.min 8 tile_dim0)).
      * exact Hcov.
      * exact Hj.
      * intros u Hu. rewrite Hs1.
        destruct (decide (u < Nat.min 8 tile_dim0)%nat); [reflexivity|lia].
Qed.

Lemma wrap_sum_wrapped (xs ys : list Z) :
  length xs = length ys ->
  (forall t, xs !! t = wrap <$> ys !! t) ->
  wrap (sumZ xs) = wrap (sumZ ys).
Proof.
  revert ys. induction xs as [|x xs IH]; intros [|y ys] Hlen H;
    simpl in Hlen; try discriminate; [reflexivity|].
  rewrite !sumZ_cons.
  pose proof (H 0%nat) as H0. simpl in H0. injection H0 as ->.
  rewrite wrap_add_l, <- wrap_add_r, (IH ys), wrap_add_r; [reflexivity|lia|].
  intros t. apply (H (S t)).
Qed.

(** With eight rows the row sums of [scan] and those of [scan_sums] are the
    same array: [thread_local_new<T, 8>()] returns the one [tile_static]
    array of its instantiation to both.  The view then has one column. *)
Lemma cols_8_8 : cols 8 0 8 = 1%nat.
Proof. reflexivity. Qed.

Lemma reduce_rows_aliased (m : mem) :
  length (m (RowSums 8)) = 8%nat ->
  exists m', run_lanes (reduce_rows wrap 8 (RowSums 8) 0 8)
               (seq 0 tile_dim0) m = Some m' /\
    (forall r', r' <> RowSums 8 -> m' r' = m r') /\
    length (m' (RowSums 8)) = 8%nat /\
    forall t, m' (RowSums 8) !! t =
      if decide (t < Nat.min 8 tile_dim0)%nat
      then wrap <$> m (RowSums 8) !! t
      else m (RowSums 8) !! t.
Proof.
  intros Hlen.
  pose (P := fun (k : nat) (m' : mem) =>
    (forall r', r' <> RowSums 8 -> m' r' = m r') /\
    length (m' (RowSums 8)) = 8%nat /\
    forall t, m' (RowSums 8) !! t =
      if decide (t < Nat.min 8 k)%nat
      then wrap <$> m (RowSums 8) !! t
      else m (RowSums 8) !! t).
  destruct (run_lanes_inv (reduce_rows wrap 8 (RowSums 8) 0 8) P tile_dim0 m)
    as (m' & Hrun & HP).
  - split; [reflexivity|]. split; [exact Hlen|].
    intros t. destruct (decide _); [lia|reflexivity].
  - intros t m1 Ht (Hfr & Hlen1 & Hs). unfold reduce_rows.
    destruct (decide (t < 8)%nat) as [Ht8|Ht8].
    + rewrite cols_8_8.
      replace (0 + t * 1)%nat with t by lia.
      destruct (decide (t + 1 <= 8)%nat); [|lia].
      rewrite serial_accumulate_spec by (assumption || lia).
      destruct (lookup_lt_is_Some_2 (m1 (RowSums 8)) t ltac:(lia)) as [x Hx].
      rewrite (slice_cons _ t (t + 1) x) by (lia || assumption).
      rewrite slice_nil by lia. rewrite sumZ_cons. simpl sumZ.
      rewrite Z.add_0_r. simpl. unfold mstore.
      destruct (decide (t < length (m1 (RowSums 8)))%nat); [|lia].
      eexists. split; [reflexivity|]. split; [|split].
      * intros r' Hr'. rewrite mset_ne by exact Hr'. apply Hfr, Hr'.
      * rewrite mset_eq, length_insert. exact Hlen1.
      * intros u. rewrite mset_eq.
        destruct (decide (u = t)) as [->|Hut].
        -- rewrite list_lookup_insert_eq by lia.
           destruct (decide _); [|lia].
           rewrite Hs in Hx. destruct (decide _) in Hx; [lia|].
           rewrite Hx. reflexivity.
        -- rewrite list_lookup_insert_ne by lia. rewrite Hs.
           destruct (decide (u < Nat.min 8 t)%nat);
             destruct (decide (u < Nat.min 8 (S t))%nat);
             try reflexivity; lia.
    + exists m1. split; [reflexivity|]. split; [exact Hfr|].
      split; [exact Hlen1|]. intros u. rewrite Hs.
      destruct (decide (u < Nat.min 8 t)%nat);
        destruct (decide (u < Nat.min 8 (S t))%nat);
        try reflexivity; lia.
  - exists m'. split; [exact Hrun|]. exact HP.
Qed.

Lemma scan_rows_aliased (m : mem) :
  length (m (RowSums 8)) = 8%nat ->
  exists m', run_lanes (scan_rows wrap 8 (RowSums 8) 0 8)
               (seq 0 tile_dim0) m = Some m' /\
    forall r', m' r' = m r'.
Proof.
  intros Hlen.
  destruct (run_lanes_inv (scan_rows wrap 8 (RowSums 8) 0 8)
              (fun _ m' => forall r', m' r' = m r') tile_dim0 m)
    as (m' & Hrun & HP).
  - reflexivity.
  - intros t m1 Ht Hfr. unfold scan_rows.
    destruct (decide (t < 8)%nat) as [Ht8|Ht8]; [|exists m1; split; auto].
    rewrite cols_8_8. replace (0 + t * 1)%nat with t by lia.
    destruct (lookup_lt_is_Some_2 (m1 (RowSums 8)) t
                ltac:(rewrite Hfr; lia)) as [x Hx].
    rewrite Hx. simpl. destruct (decide (t = 8%nat)); [lia|].
    rewrite Hx. simpl. eexists. split; [reflexivity|].
    intros r'. destruct (decide (r' = RowSums 8)) as [->|Hr'].
    + rewrite mset_eq, list_insert_id by exact Hx. apply Hfr.
    + rewrite mset_ne by exact Hr'. apply Hfr.
  - exists m'. split; [exact Hrun|exact HP].
Qed.

Lemma scan_sums_aliased (m : mem) :
  length (m (RowSums 8)) = 8%nat ->
  exists m', scan_sums wrap tile_dim0 (RowSums 8) 0 8 m = Some m' /\
    (forall r', r' <> RowSums 8 -> m' r' = m r') /\
    length (m' (RowSums 8)) = 8%nat /\
    forall j, (j < Nat.min 8 tile_dim0)%nat ->
      m' (RowSums 8) !! j = Some (wrap (sumZ (slice (m (RowSums 8)) 0 j))).
Proof.
  intros Hlen. unfold scan_sums, lanes.
  destruct (reduce_rows_aliased m Hlen) as (m1 & -> & Hfr1 & Hlen1 & Hs1).
  cbn [mbind option_bind].
  assert (Hseq : exists k, seq 0 tile_dim0 = 0%nat :: seq 1 k).
  { destruct tile_dim0 as [|k]; [lia|]. exists k. reflexivity. }
  destruct Hseq as (k & Hseq). rewrite Hseq.
  cbn [run_lanes]. destruct (decide (0 = 0)%nat); [|lia].
  destruct (serial_scan_spec wrap (m1 (RowSums 8)) 0 8)
    as (a' & -> & Hlen' & Hlook'); [lia|].
  cbn [mbind option_bind].
  rewrite run_lanes_skip.
  2:{ intros t Ht. apply in_seq in Ht.
      destruct (decide (t = 0)%nat); [lia|reflexivity]. }
  cbn [mbind option_bind].
  destruct (scan_rows_aliased (mset m1 (RowSums 8) a'))
    as (m3 & Hrun3 & Hfr3).
  { rewrite mset_eq. lia. }
  rewrite Hseq in Hrun3.
  exists m3. split; [exact Hrun3|]. split; [|split].
  - intros r' Hr'. rewrite Hfr3, mset_ne by exact Hr'. apply Hfr1, Hr'.
  - rewrite Hfr3, mset_eq. lia.
  - intros j Hj. rewrite Hfr3, mset_eq, Hlook'.
    destruct (decide (0 <= j < 8)%nat); [|lia]. f_equal.
    apply wrap_sum_wrapped.
    + unfold slice. rewrite !length_take, !length_drop. lia.
    + intros t. unfold slice. rewrite !lookup_take, !drop_0.
      destruct (decide (t < j - 0)%nat); [|reflexivity].
      rewrite Hs1. destruct (decide _); [reflexivity|lia].
Qed.

(** The tiled scan leaves the exclusive prefix sums in [[f, l)] and
    returns the last position, when the two views tile their ranges. *)
Lemma scan_spec (name : nat) (f l : nat) (m : mem) :
  let rows := scan_rows_count tile_dim0 in
  (f < l <= length (m (Buf name)))%nat ->
  length (m (RowSums rows)) = rows ->
  length (m (RowSums 8)) = 8%nat ->
  covers rows (cols rows f l) (l - f) ->
  covers (Nat.min 8 tile_dim0) (cols 8 0 rows) rows ->
  exists m', scan wrap tile_dim0 (Buf name) f l m = Some (m', (l - 1)%nat) /\
    (forall name', name' <> name -> m' (Buf name') = m (Buf name')) /\
    (forall r', length (m' r') = length (m r')) /\
    forall j, m' (Buf name) !! j =
      if decide (f <= j < l)%nat
      then Some (wrap (sumZ (slice (m (Buf name)) f j)))
      else m (Buf name) !! j.
Proof.
  intros rows Hfl HlenR Hlen8 Hcov1 Hcov2. unfold scan.
  destruct (decide (l <= f)%nat); [lia|]. fold rows.
  assert (Hrows : (0 < rows <= tile_dim0)%nat).
  { unfold rows, scan_rows_count. destruct (decide _); lia. }
  destruct (reduce_rows_phase wrap tile_dim0 rows
              (Buf name) f l m)
    as (m1 & Hrun1 & Hfr1 & Hlen1 & Hs1); [congruence|lia|assumption|].
  unfold lanes. rewrite Hrun1. simpl.
  assert (Hmid : exists m2,
            scan_sums wrap tile_dim0 (RowSums rows) 0 rows m1 = Some m2 /\
            (forall r', r' <> RowSums rows -> r' <> RowSums 8 ->
               m2 r' = m1 r') /\
            (forall r', length (m2 r') = length (m1 r')) /\
            forall j, (j < rows)%nat ->
              m2 (RowSums rows) !! j
              = Some (wrap (sumZ (slice (m1 (RowSums rows)) 0 j)))).
  { destruct (decide (rows = 8%nat)) as [E8|Hne8].
    - rewrite E8 in *.
      destruct (scan_sums_aliased m1 Hlen1) as (m2 & -> & Hfr2 & Hlen2 & Hl2).
      exists m2. split; [reflexivity|]. split; [|split].
      + intros r' Hr' _. apply Hfr2, Hr'.
      + intros r'. destruct (decide (r' = RowSums 8)) as [->|Hr'];
          [lia|rewrite Hfr2 by exact Hr'; reflexivity].
      + intros j Hj. apply Hl2. lia.
    - destruct (scan_sums_spec (RowSums rows) 0 rows m1)
        as (m2 & -> & Hfr2 & Hlen2 & Hlen2' & Hlook2).
      { congruence. } { lia. }
      { rewrite Hfr1 by congruence. assumption. }
      { replace (rows - 0)%nat with rows by lia. assumption. }
      exists m2. split; [reflexivity|]. split; [exact Hfr2|]. split.
      + intros r'. destruct (decide (r' = RowSums rows)) as [->|H2]; [lia|].
        destruct (decide (r' = RowSums 8)) as [->|H3].
        * rewrite Hlen2', Hfr1 by congruence. lia.
        * rewrite Hfr2 by assumption. reflexivity.
      + intros j Hj. rewrite Hlook2.
        destruct (decide (0 <= j < rows)%nat); [reflexivity|lia]. }
  destruct Hmid as (m2 & -> & Hfr2 & Hlen2 & Hlook2). simpl.
  destruct (scan_rows_phase wrap tile_dim0 rows (Buf name) f l m2
              (fun t => wrap (sumZ (slice (m1 (RowSums rows)) 0 t))))
    as (m3 & -> & Hfr3 & Hlen3 & Hlook3).
  - congruence.
  - rewrite Hfr2, Hfr1 by congruence. lia.
  - replace (Nat.min rows tile_dim0) with rows by lia. assumption.
  - intros t Ht. split; [|apply wrap_idem; assumption].
    apply Hlook2. lia.
  - simpl. exists m3. split; [reflexivity|].
    assert (Hm2r : m2 (Buf name) = m (Buf name)).
    { rewrite Hfr2, Hfr1 by congruence. reflexivity. }
    split; [|split].
    + intros name' Hn. rewrite Hfr3, Hfr2, Hfr1 by congruence. reflexivity.
    + intros r'. destruct (decide (r' = Buf name)) as [->|H1].
      { rewrite Hlen3, Hm2r. reflexivity. }
      rewrite Hfr3 by assumption. rewrite Hlen2.
      destruct (decide (r' = RowSums rows)) as [->|H2]; [lia|].
      rewrite Hfr1 by assumption. reflexivity.
    + intros j. rewrite Hlook3, Hm2r.
      destruct (decide (f <= j < l)%nat) as [Hj|Hj]; [|reflexivity].
      f_equal. apply (seeded_row_sum (cols rows f l) f l rows).
      * exact Hcov1.
      * exact Hj.
      * intros u Hu. rewrite Hs1.
        destruct (decide (u < Nat.min rows tile_dim0)%nat);
          [reflexivity|lia].
Qed.
End TwoLevel.

Lemma pow2_pos_to_nat (k : nat) : Pos.to_nat (pow2_pos k) = (2 ^ k)%nat.
Proof.
  induction k as [|k IH]; [reflexivity|].
  cbn [pow2_pos]. rewrite Pos2Nat.inj_xO, IH, Nat.pow_succ_r'. reflexivity.
Qed.

Lemma pow2_pos_of_nat (k : nat) : N.of_nat (2 ^ k) = Npos (pow2_pos k).
Proof.
  rewrite <- pow2_pos_to_nat. rewrite positive_nat_N. reflexivity.
Qed.

Section Reduce.
Variable wrap : Z -> Z.
Context `{HT : !IntegerType wrap}.

Variable tile_dim0 : nat.
Hypothesis tile_dim_pos : (0 < tile_dim0)%nat.

Lemma round_inv_iff (a : list Z) (l m : nat) (D D' : nat -> Prop)
    (a1 : list Z) :
  (forall e, (e < m)%nat -> D e <-> D' e) ->
  round_inv wrap a l m D a1 -> round_inv wrap a l m D' a1.
Proof.
  intros H (Hlen & H1 & H2). split; [exact Hlen|]. split.
  - intros j Hj HD. apply H1; [exact Hj|]. apply H; [lia|exact HD].
  - intros j Hn. apply H2. intros [Hj HD]. apply Hn. split; [exact Hj|].
    apply H; [lia|exact HD].
Qed.

Lemma reduce_step_inv (a : list Z) (l m e : nat) (D : nat -> Prop)
    (a1 : list Z) :
  (2 * m <= l <= length a)%nat -> (e < m)%nat -> ~ D e ->
  round_inv wrap a l m D a1 ->
  exists a2, reduce_step wrap a1 l m e = Some a2 /\
    round_inv wrap a l m (fun e' => D e' \/ e' = e) a2.
Proof.
  intros Hl He HnD (Hlen & H1 & H2). unfold reduce_step.
  destruct (lookup_lt_is_Some_2 a (l - e - 1) ltac:(lia)) as [x Hx].
  destruct (lookup_lt_is_Some_2 a (l - m - e - 1) ltac:(lia)) as [y Hy].
  rewrite (H2 (l - e - 1)%nat), Hx.
  2:{ intros [_ HD]. apply HnD.
      replace (l - 1 - (l - e - 1))%nat with e in HD by lia. exact HD. }
  rewrite (H2 (l - m - e - 1)%nat), Hy by lia. simpl.
  eexists. split; [reflexivity|]. split; [|split].
  - rewrite length_insert. exact Hlen.
  - intros j Hj [HD|Hje].
    + rewrite list_lookup_insert_ne.
      * apply H1; assumption.
      * intros E. apply HnD. subst j.
        replace (l - 1 - (l - e - 1))%nat with e in HD by lia. exact HD.
    + assert (j = (l - e - 1)%nat) as -> by lia.
      rewrite list_lookup_insert_eq by lia. rewrite Hx. simpl.
      replace (l - e - 1 - m)%nat with (l - m - e - 1)%nat by lia.
      rewrite Hy. reflexivity.
  - intros j Hn. rewrite list_lookup_insert_ne.
    + apply H2. intros [Hj HD]. apply Hn. split; [exact Hj|]. left. exact HD.
    + intros E. apply Hn. subst j. split; [lia|]. right. lia.
Qed.

Lemma processed_next (t q e : nat) :
  (t < tile_dim0)%nat ->
  processed tile_dim0 t (S q) e <->
  processed tile_dim0 t q e \/ e = (t + q * tile_dim0)%nat.
Proof.
  intros Ht. unfold processed.
  pose proof (Nat.div_mod_eq e tile_dim0) as E.
  pose proof (Nat.mod_upper_bound e tile_dim0 ltac:(lia)) as B.
  split.
  - intros [H|[H1 H2]]; [left; left; exact H|].
    destruct (decide (e / tile_dim0 < q)%nat).
    + left. right. split; assumption.
    + right. assert (e / tile_dim0 = q)%nat by lia. nia.
  - intros [[H|[H1 H2]]|H].
    + left. exact H.
    + right. split; [exact H1|lia].
    + right. subst e.
      rewrite Nat.Div0.mod_add, Nat.mod_small by lia.
      rewrite Nat.div_add, Nat.div_small by lia. split; lia.
Qed.

Lemma processed_fresh (t q : nat) :
  (t < tile_dim0)%nat -> ~ processed tile_dim0 t q (t + q * tile_dim0).
Proof.
  intros Ht. unfold processed.
  rewrite Nat.Div0.mod_add, Nat.mod_small by lia.
  rewrite Nat.div_add, Nat.div_small by lia. lia.
Qed.

Lemma reduce_lane_inv (a : list Z) (l m t : nat) :
  (2 * m <= l <= length a)%nat -> (t < tile_dim0)%nat ->
  forall fuel q a1,
    (m <= fuel + q * tile_dim0)%nat ->
    round_inv wrap a l m (processed tile_dim0 t q) a1 ->
    exists a2, reduce_lane wrap tile_dim0 fuel l m t (q * tile_dim0) a1
               = Some a2 /\
      round_inv wrap a l m (processed tile_dim0 (S t) 0) a2.
Proof.
  intros Hl Ht. induction fuel as [|fuel IH]; intros q a1 Hfuel Hinv.
  - simpl. destruct (decide (q * tile_dim0 < m)%nat); [lia|].
    exists a1. split; [reflexivity|].
    apply (round_inv_iff a l m (processed tile_dim0 t q)); [|exact Hinv].
    intros e He. unfold processed.
    pose proof (Nat.div_mod_eq e tile_dim0) as E.
    pose proof (Nat.mod_upper_bound e tile_dim0 ltac:(lia)) as B.
    split.
    + intros [H|[H1 H2]]; left; lia.
    + intros [H|[H1 H2]]; [|lia].
      destruct (decide (e mod tile_dim0 < t)%nat); [left; assumption|].
      right. split; [lia|]. nia.
  - cbn [reduce_lane]. destruct (decide (q * tile_dim0 < m)%nat) as [Hq|Hq].
    + destruct (decide (t + q * tile_dim0 < m)%nat) as [He|He].
      * destruct (reduce_step_inv a l m (t + q * tile_dim0)
                    (processed tile_dim0 t q) a1 Hl He
                    (processed_fresh t q Ht) Hinv)
          as (a2 & -> & Hinv2).
        simpl. replace (q * tile_dim0 + tile_dim0)%nat
          with (S q * tile_dim0)%nat by lia.
        apply IH; [lia|].
        apply (round_inv_iff a l m
                 (fun e' => processed tile_dim0 t q e'
                            \/ e' = (t + q * tile_dim0)%nat));
          [|exact Hinv2].
        intros e _. symmetry. apply processed_next, Ht.
      * simpl. replace (q * tile_dim0 + tile_dim0)%nat
          with (S q * tile_dim0)%nat by lia.
        apply IH; [lia|].
        apply (round_inv_iff a l m (processed tile_dim0 t q)); [|exact Hinv].
        intros e Hem. rewrite processed_next by exact Ht. split; [tauto|].
        intros [H|H]; [exact H|lia].
    + exists a1. split; [reflexivity|].
      apply (round_inv_iff a l m (processed tile_dim0 t q)); [|exact Hinv].
      intros e He. unfold processed.
      pose proof (Nat.div_mod_eq e tile_dim0) as E.
      pose proof (Nat.mod_upper_bound e tile_dim0 ltac:(lia)) as B.
      split.
      * intros [H|[H1 H2]]; left; lia.
      * intros [H|[H1 H2]]; [|lia].
        destruct (decide (e mod tile_dim0 < t)%nat); [left; assumption|].
        right. split; [lia|]. nia.
Qed.

(** One round: every position of the upper [m] has the element [m] below
    it added. *)
Lemma reduce_round_spec (a : list Z) (l m : nat) :
  (2 * m <= l <= length a)%nat ->
  exists a1,
    run_lanes (fun t => reduce_lane wrap tile_dim0 m l m t 0)
      (seq 0 tile_dim0) a = Some a1 /\
    length a1 = length a /\
    (forall j, (l - m <= j < l)%nat ->
       a1 !! j = (x ← a !! j; y ← a !! (j - m)%nat; Some (wrap (x + y)))) /\
    (forall j, ~ (l - m <= j < l)%nat -> a1 !! j = a !! j).
Proof.
  intros Hl.
  destruct (run_lanes_inv (fun t => reduce_lane wrap tile_dim0 m l m t 0)
              (fun t a1 => round_inv wrap a l m (processed tile_dim0 t 0) a1)
              tile_dim0 a)
    as (a1 & Hrun & Hlen & H1 & H2).
  - split; [reflexivity|]. split.
    + intros j _ [H|[_ H]]; lia.
    + reflexivity.
  - intros t a1 Ht Hinv.
    apply (reduce_lane_inv a l m t Hl Ht m 0 a1); [lia|exact Hinv].
  - exists a1. split; [exact Hrun|]. split; [exact Hlen|]. split.
    + intros j Hj. apply H1; [exact Hj|]. left.
      apply Nat.mod_upper_bound. lia.
    + intros j Hj. apply H2. tauto.
Qed.

Lemma folded_sum (a a1 : list Z) (b w i : nat) :
  (w <= b)%nat -> (b + w <= length a)%nat -> (i <= w)%nat ->
  (forall j, (b <= j < b + w)%nat ->
     a1 !! j = (x ← a !! j; y ← a !! (j - w)%nat; Some (wrap (x + y)))) ->
  wrap (sumZ (slice a1 b (b + i)))
  = wrap (sumZ (slice a (b - w) (b - w + i)) + sumZ (slice a b (b + i))).
Proof.
  intros Hw Hlen Hi H1. induction i as [|i IH].
  - rewrite !slice_nil by lia. reflexivity.
  - destruct (lookup_lt_is_Some_2 a (b + i) ltac:(lia)) as [x Hx].
    destruct (lookup_lt_is_Some_2 a (b - w + i) ltac:(lia)) as [y Hy].
    assert (Ha1 : a1 !! (b + i)%nat = Some (wrap (x + y))).
    { rewrite H1 by lia. rewrite Hx. simpl.
      replace (b + i - w)%nat with (b - w + i)%nat by lia.
      rewrite Hy. reflexivity. }
    replace (b + S i)%nat with (S (b + i)) by lia.
    replace (b - w + S i)%nat with (S (b - w + i)) by lia.
    rewrite (slice_snoc a1 b (b + i) _ ltac:(lia) Ha1).
    rewrite (slice_snoc a b (b + i) _ ltac:(lia) Hx).
    rewrite (slice_snoc a (b - w) (b - w + i) _ ltac:(lia) Hy).
    rewrite !sumZ_app, !sumZ_cons. simpl sumZ. rewrite !Z.add_0_r.
    rewrite wrap_add_r, <- wrap_add_l, IH by lia. rewrite wrap_add_l.
    f_equal. lia.
Qed.

Lemma reduce_rounds_pow2 (k : nat) (l : nat) (a : list Z) :
  (2 * 2 ^ k <= l <= length a)%nat ->
  exists a', reduce_rounds wrap tile_dim0 (pow2_pos k) l a = Some a' /\
    length a' = length a /\
    a' !! (l - 1)%nat = Some (wrap (sumZ (slice a (l - 2 * 2 ^ k) l))) /\
    forall j, ~ (l - 2 ^ k <= j < l)%nat -> a' !! j = a !! j.
Proof.
  revert a. induction k as [|k IH]; intros a Hl.
  - cbn [pow2_pos reduce_rounds]. unfold lanes.
    change (Pos.to_nat 1) with 1%nat.
    change (2 ^ 0)%nat with 1%nat in *.
    destruct (reduce_round_spec a l 1 ltac:(lia))
      as (a1 & -> & Hlen & H1 & H2).
    simpl. exists a1. split; [reflexivity|]. split; [exact Hlen|].
    split; [|exact H2].
    destruct (lookup_lt_is_Some_2 a (l - 1) ltac:(lia)) as [x Hx].
    destruct (lookup_lt_is_Some_2 a (l - 2) ltac:(lia)) as [y Hy].
    rewrite H1 by lia. rewrite Hx. simpl.
    replace (l - 1 - 1)%nat with (l - 2)%nat by lia. rewrite Hy. simpl.
    replace (l - 2 * 1)%nat with (l - 2)%nat by lia.
    rewrite (slice_cons a (l - 2) l y) by (lia || assumption).
    replace (S (l - 2)) with (l - 1)%nat by lia.
    rewrite (slice_cons a (l - 1) l x) by (lia || assumption).
    rewrite slice_nil by lia. rewrite !sumZ_cons. simpl sumZ.
    do 2 f_equal. lia.
  - cbn [pow2_pos reduce_rounds]. unfold lanes.
    rewrite Pos2Nat.inj_xO, pow2_pos_to_nat.
    rewrite Nat.pow_succ_r' in *.
    destruct (reduce_round_spec a l (2 * 2 ^ k) ltac:(lia))
      as (a1 & -> & Hlen & H1 & H2).
    simpl. destruct (IH a1 ltac:(lia)) as (a' & -> & Hlen' & Hlast & Hout).
    exists a'. split; [reflexivity|]. split; [lia|]. split.
    + rewrite Hlast.
      pose proof (folded_sum a a1 (l - 2 * 2 ^ k) (2 * 2 ^ k) (2 * 2 ^ k)
                    ltac:(lia) ltac:(lia) ltac:(lia)) as Hf.
      replace (l - 2 * 2 ^ k + 2 * 2 ^ k)%nat with l in Hf by lia.
      rewrite Hf.
      * replace (l - 2 * 2 ^ k - 2 * 2 ^ k + 2 * 2 ^ k)%nat
          with (l - 2 * 2 ^ k)%nat by lia.
        rewrite <- sumZ_slice_split by lia.
        match goal with
        | |- Some (wrap (sumZ (slice a ?u l)))
             = Some (wrap (sumZ (slice a ?v l))) =>
            replace u with v by lia
        end.
        reflexivity.
      * intros j Hj. apply H1. lia.
    + intros j Hj. rewrite Hout by lia. apply H2. lia.
Qed.

(** On a range of [2^k] elements that holds values of the type, [reduce]
    returns the last position, which holds the sum of the range; nothing
    outside the range is written. *)
Lemma reduce_pow2_spec (k : nat) (a : list Z) (f l : nat) :
  (l <= length a)%nat -> (l - f)%nat = (2 ^ k)%nat ->
  (forall x, x ∈ slice a f l -> wrap x = x) ->
  exists a', reduce wrap tile_dim0 a f l = Some (a', (l - 1)%nat) /\
    length a' = length a /\
    a' !! (l - 1)%nat = Some (wrap (sumZ (slice a f l))) /\
    forall j, ~ (f <= j < l)%nat -> a' !! j = a !! j.
Proof.
  intros Hl Hn Hval. unfold reduce.
  pose proof (Nat.pow_nonzero 2 k ltac:(lia)) as Hpos.
  destruct (decide (l <= f)%nat); [lia|]. rewrite Hn.
  destruct k as [|k].
  - change (2 ^ 0 / 2)%nat with 0%nat. simpl.
    exists a. split; [reflexivity|]. split; [reflexivity|].
    split; [|reflexivity].
    change (2 ^ 0)%nat with 1%nat in Hn.
    destruct (lookup_lt_is_Some_2 a (l - 1) ltac:(lia)) as [x Hx].
    assert (Hs : slice a f l = [x]).
    { replace f with (l - 1)%nat by lia.
      rewrite (slice_cons a (l - 1) l x) by (lia || assumption).
      rewrite slice_nil by lia. reflexivity. }
    rewrite Hs in *. rewrite Hx. simpl. rewrite Z.add_0_r.
    rewrite Hval; [reflexivity|]. apply list_elem_of_singleton. reflexivity.
  - rewrite Nat.pow_succ_r'.
    replace (2 * 2 ^ k / 2)%nat with (2 ^ k)%nat
      by (rewrite Nat.mul_comm, Nat.div_mul; lia).
    rewrite pow2_pos_of_nat. rewrite Nat.pow_succ_r' in Hn.
    destruct (reduce_rounds_pow2 k l a ltac:(lia))
      as (a' & -> & Hlen & Hlast & Hout).
    simpl. exists a'. split; [reflexivity|]. split; [exact Hlen|]. split.
    + rewrite Hlast. replace (l - 2 * 2 ^ k)%nat with f by lia.
      reflexivity.
    + intros j Hj. apply Hout. lia.
Qed.
End Reduce.

Lemma u32_add_l (x y : Z) : u32 (u32 x + y) = u32 (x + y).
Proof. unfold u32. apply Zplus_mod_idemp_l. Qed.

Lemma u32_add_r (x y : Z) : u32 (x + u32 y) = u32 (x + y).
Proof. unfold u32. apply Zplus_mod_idemp_r. Qed.

Lemma u32_0 : u32 0 = 0.
Proof. reflexivity. Qed.

#[global] Instance u32_integer_type : IntegerType u32.
Proof. split; [apply u32_add_l|apply u32_add_r|apply u32_0]. Qed.

#[global] Instance unbounded_integer_type : IntegerType (fun z => z).
Proof. split; reflexivity. Qed.

Lemma u32_small (x : Z) : is_u32 x -> u32 x = x.
Proof. intros H. unfold u32. apply Z.mod_small. exact H. Qed.

Lemma slice_map_seq (F : nat -> Z) (k t : nat) :
  (t <= k)%nat -> slice (map F (seq 0 k)) 0 t = map F (seq 0 t).
Proof.
  intros H. unfold slice. rewrite drop_0, Nat.sub_0_r.
  rewrite firstn_map, take_seq.
  replace (Nat.min t k) with t by lia. reflexivity.
Qed.

Lemma sumZ_map_seq_S (F : nat -> Z) (k : nat) :
  sumZ (map F (seq 0 (S k))) = sumZ (map F (seq 0 k)) + F k.
Proof.
  rewrite seq_S, map_app, sumZ_app. simpl. lia.
Qed.

Section TileScans.
Context {A : Type}.
Variable p : A -> bool.
Variable dflt : A.
Variable junk : region -> nat -> Z.

Lemma flags_sum (n g : nat) (tmp : list A) (k : nat) :
  0 <= sumZ (map (flag_true p dflt n g tmp) (seq 0 k)) /\
  0 <= sumZ (map (flag_false p dflt n g tmp) (seq 0 k)) /\
  sumZ (map (flag_true p dflt n g tmp) (seq 0 k))
  + sumZ (map (flag_false p dflt n g tmp) (seq 0 k))
  = Z.of_nat (Nat.min k (n - g * SIMD_w)).
Proof.
  induction k as [|k (IH1 & IH2 & IH3)]; [simpl; lia|].
  rewrite !sumZ_map_seq_S.
  set (St := sumZ (map (flag_true p dflt n g tmp) (seq 0 k))) in *.
  set (Sf := sumZ (map (flag_false p dflt n g tmp) (seq 0 k))) in *.
  unfold flag_true, flag_false, lane_valid.
  destruct (bool_decide_reflect (g * SIMD_w + k < n)%nat) as [Hv|Hv].
  - destruct (p (nth k tmp dflt)); cbn [b2u negb]; lia.
  - lia.
Qed.

Lemma tile_scan_one (name : nat) (m : mem) (fl : nat -> Z) :
  m (Buf name) = map fl (seq 0 SIMD_w) ->
  length (m (RowSums 64)) = 64%nat -> length (m (RowSums 8)) = 8%nat ->
  exists m', scan u32 SIMD_w (Buf name) 0 SIMD_w m = Some (m', 63%nat) /\
    (forall name', name' <> name -> m' (Buf name') = m (Buf name')) /\
    (forall r', length (m' r') = length (m r')) /\
    forall t, (t < SIMD_w)%nat ->
      m' (Buf name) !! t = Some (u32 (sumZ (map fl (seq 0 t)))).
Proof.
  intros Hbuf H64 H8.
  destruct (scan_spec u32 SIMD_w
              ltac:(unfold SIMD_w; lia) name 0 SIMD_w m)
    as (m' & Hrun & Hfr & Hlen & Hlook).
  - rewrite Hbuf, length_map, length_seq. unfold SIMD_w. lia.
  - exact H64.
  - exact H8.
  - vm_compute. lia.
  - vm_compute. lia.
  - exists m'. split; [exact Hrun|]. split; [exact Hfr|].
    split; [exact Hlen|]. intros t Ht. rewrite Hlook.
    destruct (decide (0 <= t < SIMD_w)%nat); [|lia].
    rewrite Hbuf, slice_map_seq by lia. reflexivity.
Qed.

(** The scans of a tile succeed, and the offsets of its leader lane are
    the numbers of its valid lanes that satisfy and do not satisfy the
    predicate. *)
Lemma tile_reservation (n g : nat) (tmp : list A) :
  exists pt pf,
    tile_scans p dflt junk n g tmp = Some (pt, pf) /\
    (forall t, (t < SIMD_w)%nat ->
       pt !! t = Some (sumZ (map (flag_true p dflt n g tmp) (seq 0 t))) /\
       pf !! t = Some (sumZ (map (flag_false p dflt n g tmp) (seq 0 t)))) /\
    tile_offsets p dflt n g tmp pt pf
    = Some (sumZ (map (flag_true p dflt n g tmp) (seq 0 SIMD_w)),
            sumZ (map (flag_false p dflt n g tmp) (seq 0 SIMD_w))).
Proof.
  unfold tile_scans.
  set (ft := flag_true p dflt n g tmp). set (ff := flag_false p dflt n g tmp).
  set (m0 := mset (mset (tile_static junk) (Buf 0) (map ft (seq 0 SIMD_w)))
               (Buf 1) (map ff (seq 0 SIMD_w))).
  assert (Hlen0 : forall sz, length (m0 (RowSums sz)) = sz).
  { intros sz. unfold m0. rewrite !mset_ne by congruence.
    simpl. rewrite length_map, length_seq. reflexivity. }
  destruct (tile_scan_one 0 m0 ft) as (m1 & -> & Hfr1 & Hlen1 & Hl1).
  { unfold m0. rewrite mset_ne by congruence. apply mset_eq. }
  { apply Hlen0. } { apply Hlen0. }
  simpl.
  destruct (tile_scan_one 1 m1 ff) as (m2 & -> & Hfr2 & Hlen2 & Hl2).
  { rewrite Hfr1 by congruence. unfold m0. apply mset_eq. }
  { rewrite Hlen1. apply Hlen0. } { rewrite Hlen1. apply Hlen0. }
  simpl. eexists _, _. split; [reflexivity|].
  assert (Hsmall : forall (fl : nat -> Z) t,
            (fl = ft \/ fl = ff) -> (t <= SIMD_w)%nat ->
            u32 (sumZ (map fl (seq 0 t))) = sumZ (map fl (seq 0 t))).
  { intros fl t Hfl Ht. apply u32_small. unfold is_u32.
    pose proof (flags_sum n g tmp t) as (H1 & H2 & H3).
    fold ft ff in H1, H2, H3.
    assert (Z.of_nat (Nat.min t (n - g * SIMD_w)) <= 64)
      by (unfold SIMD_w in *; lia).
    destruct Hfl as [-> | ->]; lia. }
  split.
  - intros t Ht. rewrite (Hfr2 0%nat) by congruence.
    rewrite Hl1, Hl2 by exact Ht.
    rewrite !Hsmall by (auto || lia). split; reflexivity.
  - unfold tile_offsets. rewrite (Hfr2 0%nat) by congruence.
    rewrite Hl1, Hl2 by (unfold SIMD_w; lia). cbn [mbind option_bind].
    fold ft ff. change (SIMD_w - 1)%nat with 63%nat.
    assert (Htot : forall fl : nat -> Z,
              u32 (u32 (sumZ (map fl (seq 0 63))) + fl 63%nat)
              = u32 (sumZ (map fl (seq 0 SIMD_w)))).
    { intros fl. rewrite u32_add_l. change SIMD_w with (S 63).
      rewrite (sumZ_map_seq_S fl 63). reflexivity. }
    rewrite !Htot, !Hsmall by (auto || lia). reflexivity.
Qed.
End TileScans.

(** ** Sums over the tiles *)










Lemma lookup_insert_cases {V : Type} (vs : list V) (g g0 : nat) (v' v0 : V) :
  <[g := v']> vs !! g0 = Some v0 ->
  (g0 = g /\ v0 = v') \/ (g0 <> g /\ vs !! g0 = Some v0).
Proof.
  intros H. destruct (decide (g0 = g)) as [->|Hne].
  - left. split; [reflexivity|].
    assert (g < length vs)%nat.
    { apply lookup_lt_Some in H. rewrite length_insert in H. exact H. }
    rewrite list_lookup_insert_eq in H by assumption. congruence.
  - right. split; [exact Hne|].
    rewrite list_lookup_insert_ne in H by congruence. exact H.
Qed.







Lemma run_lanes_preserve {S : Type} (body : nat -> S -> option S)
    (P : S -> Prop) (ts : list nat) (s s' : S) :
  (forall t s s', body t s = Some s' -> P s -> P s') ->
  run_lanes body ts s = Some s' -> P s -> P s'.
Proof.
  intros Hb. revert s. induction ts as [|t ts IH]; intros s Hrun HP; simpl in *.
  - congruence.
  - destruct (body t s) as [s1|] eqn:E; [|discriminate]. simpl in Hrun.
    apply (IH s1 Hrun). apply (Hb t s s1 E HP).
Qed.

Section Grid.
Context {A : Type}.
Variable p : A -> bool.
Variable dflt : A.
Variable cas : Z -> Z -> Z -> bool * Z * Z.
Variable junk : region -> nat -> Z.


Lemma write_run_length (n g : nat) (tmp : list A) (sel : A -> bool)
    (base : Z) (offs : list Z) (rg rg' : list A) :
  write_run dflt n g tmp sel base offs rg = Some rg' ->
  length rg' = length rg.
Proof.
  intros H.
  eapply (run_lanes_preserve _ (fun r => length r = length rg));
    [|exact H|reflexivity].
  intros t s s' Hb Hs. unfold write_lane in Hb.
  destruct (lane_valid n g t && sel (nth t tmp dflt)); [|congruence].
  destruct (offs !! t); [|discriminate]. simpl in Hb.
  destruct (decide _); [|discriminate].
  injection Hb as <-. rewrite length_insert. exact Hs.
Qed.



End Grid.


Section TraceProofs.
Context {A : Type}.
Variable p : A -> bool.
Variable dflt : A.
Variable cas : Z -> Z -> Z -> bool * Z * Z.
Variable junk : region -> nat -> Z.


(** A step of tile [g] changes only tile [g], which stays where it is or
    moves to the next program point; at a reservation it moves. *)
Lemma step_pc (s s' : state (A := A)) (g : nat) (tl : tile) :
  step p dflt cas junk s g = Some s' -> tiles s !! g = Some tl ->
  exists tl', tiles s' = <[g := tl']> (tiles s) /\
    (rank (t_pc tl) <= rank (t_pc tl') <= rank (t_pc tl) + 1)%nat /\
    (t_pc tl = PcReserveTrue \/ t_pc tl = PcReserveFalse ->
     rank (t_pc tl') = (rank (t_pc tl) + 1)%nat).
Proof.
  intros Hstep Hg. unfold step in Hstep. rewrite Hg in Hstep.
  unfold step_tile in Hstep.
  assert (Hmoved : forall (rg : list A) (bl : list Z) (x y : Z)
                     (tl' : tile),
            Some (State rg bl x y (<[g := tl']> (tiles s))) = Some s' ->
            (rank (t_pc tl) <= rank (t_pc tl') <= rank (t_pc tl) + 1)%nat ->
            (t_pc tl = PcReserveTrue \/ t_pc tl = PcReserveFalse ->
             rank (t_pc tl') = (rank (t_pc tl) + 1)%nat) ->
            exists tl', tiles s' = <[g := tl']> (tiles s) /\
              (rank (t_pc tl) <= rank (t_pc tl') <= rank (t_pc tl) + 1)%nat /\
              (t_pc tl = PcReserveTrue \/ t_pc tl = PcReserveFalse ->
               rank (t_pc tl') = (rank (t_pc tl) + 1)%nat)).
  { intros rg bl x y tl' E H1 H2. injection E as <-. exists tl'.
    split; [reflexivity|]. split; assumption. }
  destruct (t_pc tl) eqn:Hpc.
  - apply (Hmoved _ _ _ _ _ Hstep);
      [simpl; lia|intros [?|?]; discriminate].
  - destruct (release_block _ _); [|discriminate].
    apply (Hmoved _ _ _ _ _ Hstep);
      [simpl; lia|intros [?|?]; discriminate].
  - destruct (tile_scans _ _ _ _ _ _) as [[pt pf]|]; [|discriminate].
    simpl in Hstep.
    destruct (tile_offsets _ _ _ _ _ _ _) as [[to fo]|]; [|discriminate].
    apply (Hmoved _ _ _ _ _ Hstep);
      [simpl; lia|intros _; reflexivity].
  - apply (Hmoved _ _ _ _ _ Hstep);
      [simpl; lia|intros _; reflexivity].
  - destruct (try_acquire _ _ _ _) as [[[[] bl] e]|]; [| |discriminate];
      (apply (Hmoved _ _ _ _ _ Hstep);
       [simpl; lia|intros [?|?]; discriminate]).
  - destruct (write_run _ _ _ _ _ _ _ _); [|discriminate].
    apply (Hmoved _ _ _ _ _ Hstep);
      [simpl; lia|intros [?|?]; discriminate].
  - destruct (release_block _ _); [|discriminate].
    apply (Hmoved _ _ _ _ _ Hstep);
      [simpl; lia|intros [?|?]; discriminate].
  - destruct (try_acquire _ _ _ _) as [[[[] bl] e]|]; [| |discriminate];
      (apply (Hmoved _ _ _ _ _ Hstep);
       [simpl; lia|intros [?|?]; discriminate]).
  - destruct (write_run _ _ _ _ _ _ _ _); [|discriminate].
    apply (Hmoved _ _ _ _ _ Hstep);
      [simpl; lia|intros [?|?]; discriminate].
  - destruct (release_block _ _); [|discriminate].
    apply (Hmoved _ _ _ _ _ Hstep);
      [simpl; lia|intros [?|?]; discriminate].
  - injection Hstep as <-. exists tl. split.
    + symmetry. apply list_insert_id, Hg.
    + rewrite Hpc. simpl. split; [lia|]. intros [?|?]; discriminate.
Qed.

End TraceProofs.

(** ** The counters at the end of the kernel *)



Lemma finished_done {A : Type} (s : state (A := A)) (g : nat) (tl : tile) :
  finished s = true -> tiles s !! g = Some tl -> t_pc tl = PcDone.
Proof.
  unfold finished. intros H Hg. rewrite forallb_forall in H.
  specialize (H tl). apply bool_decide_eq_true in H; [exact H|].
  apply list_elem_of_In. apply list_elem_of_lookup. exists g. exact Hg.
Qed.


(** ** One tile *)

Section SingleTile.
Context {A : Type}.
Variable p : A -> bool.
Variable dflt : A.
Variable junk : region -> nat -> Z.



End SingleTile.

Section SingleTileRun.
Context {A : Type}.
Variable p : A -> bool.
Variable dflt : A.
Variable junk : region -> nat -> Z.






Lemma step_tiles_length (cas : Z -> Z -> Z -> bool * Z * Z)
    (s s' : state (A := A)) (g : nat) :
  step p dflt cas junk s g = Some s' -> length (tiles s') = length (tiles s).
Proof.
  intros Hstep. destruct (tiles s !! g) as [tl|] eqn:Hg.
  - destruct (step_pc p dflt cas junk s s' g tl Hstep Hg) as (tl' & -> & _).
    apply length_insert.
  - unfold step in Hstep. rewrite Hg in Hstep. congruence.
Qed.



End SingleTileRun.

(** * The claims *)

(** C1.  [partition] does not rearrange every sequence into a permutation
    of itself: on the 65 numbers 1 .. 65 with the predicate "even", when the
    first tile runs to its end before the second tile loads its chunk, the
    first tile's run of odd numbers, reserved at [[33, 65)], is written
    under the lock of block 0 alone and overwrites position 64, the element
    of the second tile, which then loads 63: the result holds 63 twice and
    65 not at all. *)
Theorem partition_two_tiles_loses_element :
  partition Z.even 0 amp_cas (fun _ _ => 0)
    (replicate 10 0%nat ++ replicate 10 1%nat)
    (map Z.of_nat (seq 1 65)) 0 65
  = Some (map (fun i => 2 * Z.of_nat i) (seq 1 32) ++ [63]
          ++ map (fun i => 2 * Z.of_nat i - 1) (seq 1 32), 32%nat) /\
  ~ In 65 (map (fun i => 2 * Z.of_nat i) (seq 1 32) ++ [63]
           ++ map (fun i => 2 * Z.of_nat i - 1) (seq 1 32)).
Proof.
  split; [vm_compute; reflexivity|].
  intros H. apply in_app_or in H as [H|H].
  - apply in_map_iff in H as (i & E & _). lia.
  - apply in_app_or in H as [[H|[]]|H]; [discriminate|].
    apply in_map_iff in H as (i & E & Hi). apply in_seq in Hi. lia.
Qed.

(** The example of the specification: [1..8] and "even". *)
Example partition_example_even :
  partition Z.even 0 amp_cas (fun _ _ => 0) (replicate 10 0%nat)
    [1; 2; 3; 4; 5; 6; 7; 8] 0 8
  = Some ([2; 4; 6; 8; 1; 3; 5; 7], 4%nat).
Proof. vm_compute. reflexivity. Qed.

(** A full tile of satisfying elements: the false run is empty and reserved
    at position 64, and [acquire_block] indexes the lock table, which has
    one entry, at [64 / SIMD_w = 1]. *)
Example partition_full_tile_all_true :
  partition (fun _ => true) 0 amp_cas (fun _ _ => 0) (replicate 10 0%nat)
    (map Z.of_nat (seq 1 64)) 0 64 = None /\
  option_map (fun s => (map t_pc (tiles s), blocks s,
                        map (fun tl => block_of (t_false_idx tl)) (tiles s)))
    (run (fun _ => true) 0 amp_cas (fun _ _ => 0) (replicate 7 0%nat)
       (init_state (map Z.of_nat (seq 1 64))))
  = Some ([PcAcquireFalse], [0], [1%nat]).
Proof. split; vm_compute; reflexivity. Qed.

(** C2, as it stands, fails: on a range of three elements [reduce] leaves
    the sum of the last two in the last slot. *)
Lemma reduce_three_elements :
  ~ (exists a', reduce (fun z => z) 4 [1; 1; 1] 0 3 = Some (a', 2%nat) /\
       a' !! 2%nat = Some (sumZ [1; 1; 1])).
Proof.
  intros (a' & H & Hs). vm_compute in H. injection H as <-.
  vm_compute in Hs. discriminate.
Qed.

(** C2, amended.  For every data range whose length is a power of two and
    that holds values of the element type, [reduce] returns and the last
    slot of the range holds the sum of all of the range's original elements (in
    the arithmetic of the element type), the returned iterator refers to
    that slot, and nothing outside the range is written. *)
Theorem reduce_power_of_two (wrap : Z -> Z) (tile_dim0 k : nat)
    (a : list Z) (f l : nat) :
  IntegerType wrap ->
  (0 < tile_dim0)%nat ->
  (l <= length a)%nat -> (l - f)%nat = (2 ^ k)%nat ->
  (forall x, x ∈ slice a f l -> wrap x = x) ->
  exists a', reduce wrap tile_dim0 a f l = Some (a', (l - 1)%nat) /\
    a' !! (l - 1)%nat = Some (wrap (sumZ (slice a f l))) /\
    length a' = length a /\
    forall j, ~ (f <= j < l)%nat -> a' !! j = a !! j.
Proof.
  intros HT Htd Hlen Hn Hval.
  destruct (reduce_pow2_spec wrap tile_dim0 Htd k a f l Hlen Hn Hval)
    as (a' & Hrun & Hlen' & Hlast & Hout).
  exists a'. repeat split; assumption.
Qed.

Lemma reduce_power_of_two_witness :
  exists a', reduce (fun z => z) 4 [1; 2; 3; 4; 5; 6; 7; 8] 0 8
             = Some (a', 7%nat) /\
    a' !! 7%nat = Some 36.
Proof.
  destruct (reduce_power_of_two (fun z => z) 4 3 [1; 2; 3; 4; 5; 6; 7; 8] 0 8)
    as (a' & Hrun & Hlast & _).
  - split; reflexivity.
  - lia.
  - simpl. lia.
  - reflexivity.
  - reflexivity.
  - exists a'. split; [exact Hrun|exact Hlast].
Defined.

(** The example of the specification: group size 8, input
    [3,1,4,1,5,9,2,6]. *)
Example scan_example_group_8 :
  option_map (fun '(m, i) => (m (Buf 0), i))
    (scan (fun z => z) 8 (Buf 0) 0 8
       (fun r => match r with
                 | Buf _ => [3; 1; 4; 1; 5; 9; 2; 6]
                 | RowSums sz => replicate sz 0
                 end))
  = Some ([0; 3; 4; 8; 9; 14; 23; 25], 7%nat) /\
  25 + 6 = sumZ [3; 1; 4; 1; 5; 9; 2; 6].
Proof. split; reflexivity. Qed.

(** C3.  The tiled [scan] does not leave the exclusive prefix sums on every
    non-empty range: with group size 8 and nine elements the view has
    [padded_cols 9 8 = 1] column, its eight rows end before the ninth
    element, and the last position keeps its input value 5 where the prefix
    sum is 31. *)
Theorem scan_group_8_nine_elements :
  padded_cols 9 8 = 1 /\
  option_map (fun '(m, i) => (m (Buf 0), i))
    (scan (fun z => z) 8 (Buf 0) 0 9
       (fun r => match r with
                 | Buf _ => [3; 1; 4; 1; 5; 9; 2; 6; 5]
                 | RowSums sz => replicate sz 0
                 end))
  = Some ([0; 3; 4; 8; 9; 14; 23; 25; 5], 8%nat) /\
  sumZ [3; 1; 4; 1; 5; 9; 2; 6] = 31.
Proof. repeat split; reflexivity. Qed.

(** C4, as it stands, fails: the slot [serial_scan] returns holds 25 for
    the input [3,1,4,1,5,9,2,6], whose sum is 31. *)
Lemma scan_last_slot_not_total :
  ~ (exists a', serial_scan (fun z => z) [3; 1; 4; 1; 5; 9; 2; 6] 0 8
                = Some (a', 7%nat) /\
       a' !! 7%nat = Some (sumZ [3; 1; 4; 1; 5; 9; 2; 6])).
Proof.
  intros (a' & H & Hs). vm_compute in H. injection H as <-.
  vm_compute in Hs. discriminate.
Qed.

(** C4, amended.  For every non-empty range, the slot referenced by the
    iterator that [serial_scan] returns -- and that [scan] returns, when its
    two views tile their ranges -- holds, after the call, the sum of all of
    the range's original elements but the last; adding the original last
    element gives the sum of all. *)
Theorem scan_returns_exclusive_total (wrap : Z -> Z) :
  IntegerType wrap ->
  (forall (a : list Z) (f l : nat), (f < l <= length a)%nat ->
     exists a' last,
       serial_scan wrap a f l = Some (a', (l - 1)%nat) /\
       a' !! (l - 1)%nat = Some (wrap (sumZ (slice a f (l - 1)))) /\
       a !! (l - 1)%nat = Some last /\
       wrap (wrap (sumZ (slice a f (l - 1))) + last)
       = wrap (sumZ (slice a f l))) /\
  (forall (tile_dim0 name f l : nat) (m : mem),
     (0 < tile_dim0)%nat ->
     (f < l <= length (m (Buf name)))%nat ->
     length (m (RowSums (scan_rows_count tile_dim0)))
     = scan_rows_count tile_dim0 ->
     length (m (RowSums 8)) = 8%nat ->
     covers (scan_rows_count tile_dim0)
       (cols (scan_rows_count tile_dim0) f l) (l - f) ->
     covers (Nat.min 8 tile_dim0) (cols 8 0 (scan_rows_count tile_dim0))
       (scan_rows_count tile_dim0) ->
     exists m' last,
       scan wrap tile_dim0 (Buf name) f l m = Some (m', (l - 1)%nat) /\
       m' (Buf name) !! (l - 1)%nat
       = Some (wrap (sumZ (slice (m (Buf name)) f (l - 1)))) /\
       m (Buf name) !! (l - 1)%nat = Some last /\
       wrap (wrap (sumZ (slice (m (Buf name)) f (l - 1))) + last)
       = wrap (sumZ (slice (m (Buf name)) f l))).
Proof.
  intros HT.
  assert (Hadd : forall (a : list Z) (f l : nat) (last : Z),
            (f < l)%nat -> a !! (l - 1)%nat = Some last ->
            wrap (wrap (sumZ (slice a f (l - 1))) + last)
            = wrap (sumZ (slice a f l))).
  { intros a f l last Hfl Hlast. rewrite wrap_add_l.
    replace l with (S (l - 1)) at 2 by lia.
    rewrite (slice_snoc a f (l - 1) last ltac:(lia) Hlast).
    rewrite sumZ_app, sumZ_cons. simpl sumZ. rewrite Z.add_0_r. reflexivity. }
  split.
  - intros a f l Hfl.
    destruct (serial_scan_spec wrap a f l Hfl)
      as (a' & Hrun & _ & Hlook).
    destruct (lookup_lt_is_Some_2 a (l - 1) ltac:(lia)) as [last Hlast].
    exists a', last. split; [exact Hrun|]. split; [|split].
    + rewrite Hlook. destruct (decide _); [reflexivity|lia].
    + exact Hlast.
    + apply Hadd; [lia|exact Hlast].
  - intros tile_dim0 name f l m Htd Hfl HlenR Hlen8 Hc1 Hc2.
    destruct (scan_spec wrap tile_dim0 Htd name f l m Hfl HlenR
                Hlen8 Hc1 Hc2) as (m' & Hrun & _ & _ & Hlook).
    destruct (lookup_lt_is_Some_2 (m (Buf name)) (l - 1) ltac:(lia))
      as [last Hlast].
    exists m', last. split; [exact Hrun|]. split; [|split].
    + rewrite Hlook. destruct (decide _); [reflexivity|lia].
    + exact Hlast.
    + apply Hadd; [lia|exact Hlast].
Qed.

Lemma scan_returns_exclusive_total_witness :
  (exists a' last,
     serial_scan (fun z => z) [3; 1; 4; 1; 5; 9; 2; 6] 0 8
     = Some (a', 7%nat) /\
     a' !! 7%nat = Some 25 /\ last = 6) /\
  (exists m' last,
     scan u32 64 (Buf 0) 0 64
       (fun r => match r with
                 | Buf _ => replicate 64 1
                 | RowSums sz => replicate sz 0
                 end)
     = Some (m', 63%nat) /\
     m' (Buf 0) !! 63%nat = Some 63 /\ last = 1).
Proof.
  destruct (scan_returns_exclusive_total (fun z => z)) as [Hs _];
    [split; reflexivity|].
  destruct (scan_returns_exclusive_total u32) as [_ Ht];
    [split; [apply u32_add_l|apply u32_add_r|reflexivity]|].
  split.
  - destruct (Hs [3; 1; 4; 1; 5; 9; 2; 6] 0%nat 8%nat)
      as (a' & last & Hrun & Hv & Hlast & _); [simpl; lia|].
    exists a', last. split; [exact Hrun|]. split; [exact Hv|].
    simpl in Hlast. congruence.
  - destruct (Ht 64%nat 0%nat 0%nat 64%nat
                (fun r => match r with
                          | Buf _ => replicate 64 1
                          | RowSums sz => replicate sz 0
                          end))
      as (m' & last & Hrun & Hv & Hlast & _).
    + lia.
    + simpl. lia.
    + reflexivity.
    + reflexivity.
    + vm_compute. lia.
    + vm_compute. lia.
    + exists m', last. split; [exact Hrun|]. split; [exact Hv|].
      simpl in Hlast. congruence.
Defined.

(** C5.  The operator-parameterized [serial_scan] takes no identity: its
    accumulator starts from whatever [res] holds, and that value is the
    first output.  With [res] holding 7 and addition, [1,2,3] becomes
    [7,8,10]; with [res] holding 0 it becomes [0,1,3]. *)
Theorem serial_scan_op_unseeded :
  serial_scan_op 7 [1; 2; 3] 0 3 Z.add = Some ([7; 8; 10], 2%nat) /\
  serial_scan_op 0 [1; 2; 3] 0 3 Z.add = Some ([0; 1; 3], 2%nat).
Proof. split; reflexivity. Qed.

(** C6.  For every empty range ([first >= last]), [reduce], [serial_scan]
    with and without an operator, [scan] and [partition] write nothing and
    return the end of the range. *)
Theorem empty_range_noop (wrap : Z -> Z) (tile_dim0 f l : nat) :
  (l <= f)%nat ->
  (forall a, reduce wrap tile_dim0 a f l = Some (a, l)) /\
  (forall a, serial_scan wrap a f l = Some (a, l)) /\
  (forall uninit op a, serial_scan_op uninit a f l op = Some (a, l)) /\
  (forall r m, scan wrap tile_dim0 r f l m = Some (m, l)) /\
  (forall (A : Type) (p : A -> bool) (dflt : A) cas junk sched (a : list A),
     partition p dflt cas junk sched a f l = Some (a, l)).
Proof.
  intros H. repeat split; intros;
    unfold reduce, serial_scan, serial_scan_op, scan, partition;
    destruct (decide (l <= f)%nat); (reflexivity || lia).
Qed.

Lemma empty_range_noop_witness :
  reduce u32 64 [1; 2; 3] 2 2 = Some ([1; 2; 3], 2%nat) /\
  serial_scan u32 [1; 2; 3] 3 1 = Some ([1; 2; 3], 1%nat) /\
  partition Z.even 0 amp_cas (fun _ _ => 0) [0%nat] [1; 2; 3] 1 1
  = Some ([1; 2; 3], 1%nat).
Proof.
  split; [|split].
  - destruct (empty_range_noop u32 64 2 2) as (H & _); [lia|]. apply H.
  - destruct (empty_range_noop u32 64 3 1) as (_ & H & _); [lia|]. apply H.
  - destruct (empty_range_noop u32 64 1 1) as (_ & _ & _ & _ & H); [lia|].
    apply H.
Defined.



(** C9.  A tile writes into a block whose owner has not read its chunk and
    whose lock was never released: on 1 .. 65 with the predicate "even",
    after eight steps of the first tile it is about to write its false run
    [[33, 65)] under the lock of block 0, the second tile has not loaded
    its chunk and block 1 still holds its initial lock; the ninth step
    replaces the element at position 64, in block 1, by 63. *)
Theorem partition_write_before_owner_read :
  let observe (s : state) :=
    (map t_pc (tiles s), blocks s,
     map (fun tl => (t_false_idx tl, block_of (t_false_idx tl))) (tiles s),
     range s !! 64%nat) in
  option_map observe
    (run Z.even 0 amp_cas (fun _ _ => 0) (replicate 8 0%nat)
       (init_state (map Z.of_nat (seq 1 65))))
  = Some ([PcWriteFalse; PcLoad], [1; 1], [(33, 0%nat); (0, 0%nat)], Some 65)
  /\
  option_map observe
    (run Z.even 0 amp_cas (fun _ _ => 0) (replicate 9 0%nat)
       (init_state (map Z.of_nat (seq 1 65))))
  = Some ([PcReleaseFalse; PcLoad], [1; 1], [(33, 0%nat); (0, 0%nat)],
          Some 63).
Proof. split; vm_compute; reflexivity. Qed.

(** The spin loop of [acquire_block] passes the address of its local
    [unlocked] to the compare-and-exchange, which stores the value it finds
    there when it fails: on a locked block the first attempt fails and
    leaves 1 in [unlocked], and the second attempt succeeds. *)
Example acquire_block_second_attempt :
  try_acquire amp_cas [1] 0 0 = Some (false, [1], 1) /\
  try_acquire amp_cas [1] 0 1 = Some (true, [1], 1).
Proof. split; reflexivity. Qed.




(** * The serial helpers *)

(** ** Binary search *)

Lemma halves_below (n k : nat) :
  (n < 2 ^ S k)%nat -> (n / 2 < 2 ^ k)%nat /\ (n - n / 2 - 1 < 2 ^ k)%nat.
Proof.
  intros H. rewrite Nat.pow_succ_r' in H.
  pose proof (Nat.div_mod_eq n 2) as E.
  pose proof (Nat.mod_upper_bound n 2 ltac:(lia)). lia.
Qed.

Lemma midpoint_inside (f l : nat) :
  (f < l)%nat -> (f <= f + (l - f) / 2 < l)%nat.
Proof.
  intros H. pose proof (Nat.div_mod_eq (l - f) 2) as E.
  pose proof (Nat.mod_upper_bound (l - f) 2 ltac:(lia)). lia.
Qed.

Section SearchProofs.
Context {T : Type}.
Variable less : T -> T -> bool.

Lemma lower_bound_spec (fuel : nat) (a : list T) (f l : nat) (val : T) :
  (f <= l <= length a)%nat -> (l - f < 2 ^ fuel)%nat ->
  (forall i j x y, (f <= i)%nat -> (i <= j)%nat -> (j < l)%nat ->
     a !! i = Some x -> a !! j = Some y ->
     less y val = true -> less x val = true) ->
  exists k, lower_bound less fuel a f l val = Done k /\
    (f <= k <= l)%nat /\
    (forall j x, (f <= j < k)%nat -> a !! j = Some x -> less x val = true) /\
    (forall j x, (k <= j < l)%nat -> a !! j = Some x -> less x val = false).
Proof.
  revert f l. induction fuel as [|fuel IH]; intros f l Hfl Hfuel Hpart.
  - simpl in Hfuel. simpl. destruct (decide (f < l)%nat); [lia|].
    exists f. split; [reflexivity|]. split; [lia|]. split; intros; lia.
  - cbn [lower_bound]. destruct (decide (f < l)%nat) as [Hlt|Hge].
    2:{ exists f. split; [reflexivity|]. split; [lia|]. split; intros; lia. }
    pose proof (midpoint_inside f l Hlt) as Hmid.
    pose proof (halves_below (l - f) fuel Hfuel) as [Hlo Hhi].
    set (i0 := (f + (l - f) / 2)%nat) in *.
    destruct (lookup_lt_is_Some_2 a i0 ltac:(lia)) as [x Hx].
    rewrite Hx. destruct (less x val) eqn:Hless.
    + destruct (IH (S i0) l) as (k & Hrun & Hk & Hbelow & Habove).
      * lia.
      * unfold i0. lia.
      * intros i j u v Hi Hij Hj. apply Hpart; lia.
      * exists k. split; [exact Hrun|]. split; [lia|]. split.
        -- intros j u Hj Hu. destruct (decide (j <= i0)%nat) as [Hle|Hgt].
           ++ apply (Hpart j i0 u x); (lia || assumption).
           ++ apply (Hbelow j u); [lia|exact Hu].
        -- exact Habove.
    + destruct (IH f i0) as (k & Hrun & Hk & Hbelow & Habove).
      * lia.
      * unfold i0. lia.
      * intros i j u v Hi Hij Hj. apply Hpart; lia.
      * exists k. split; [exact Hrun|]. split; [lia|]. split.
        -- exact Hbelow.
        -- intros j u Hj Hu. destruct (decide (j < i0)%nat) as [Hlt'|Hge].
           ++ apply (Habove j u); [lia|exact Hu].
           ++ destruct (less u val) eqn:Hu'; [|reflexivity].
              rewrite <- Hless. symmetry.
              apply (Hpart i0 j x u); (lia || assumption).
Qed.

Lemma upper_bound_spec (fuel : nat) (a : list T) (f l : nat) (val : T) :
  (f <= l <= length a)%nat -> (l - f < 2 ^ fuel)%nat ->
  (forall i j x y, (f <= i)%nat -> (i <= j)%nat -> (j < l)%nat ->
     a !! i = Some x -> a !! j = Some y ->
     less val x = true -> less val y = true) ->
  exists k, upper_bound less fuel a f l val = Done k /\
    (f <= k <= l)%nat /\
    (forall j x, (f <= j < k)%nat -> a !! j = Some x -> less val x = false) /\
    (forall j x, (k <= j < l)%nat -> a !! j = Some x -> less val x = true).
Proof.
  revert f l. induction fuel as [|fuel IH]; intros f l Hfl Hfuel Hpart.
  - simpl in Hfuel. simpl. destruct (decide (f < l)%nat); [lia|].
    exists f. split; [reflexivity|]. split; [lia|]. split; intros; lia.
  - cbn [upper_bound]. destruct (decide (f < l)%nat) as [Hlt|Hge].
    2:{ exists f. split; [reflexivity|]. split; [lia|]. split; intros; lia. }
    pose proof (midpoint_inside f l Hlt) as Hmid.
    pose proof (halves_below (l - f) fuel Hfuel) as [Hlo Hhi].
    set (i0 := (f + (l - f) / 2)%nat) in *.
    destruct (lookup_lt_is_Some_2 a i0 ltac:(lia)) as [x Hx].
    rewrite Hx. destruct (less val x) eqn:Hless.
    + destruct (IH f i0) as (k & Hrun & Hk & Hbelow & Habove).
      * lia.
      * unfold i0. lia.
      * intros i j u v Hi Hij Hj. apply Hpart; lia.
      * exists k. split; [exact Hrun|]. split; [lia|]. split.
        -- exact Hbelow.
        -- intros j u Hj Hu. destruct (decide (j < i0)%nat) as [Hlt'|Hge].
           ++ apply (Habove j u); [lia|exact Hu].
           ++ apply (Hpart i0 j x u); (lia || assumption).
    + destruct (IH (S i0) l) as (k & Hrun & Hk & Hbelow & Habove).
      * lia.
      * unfold i0. lia.
      * intros i j u v Hi Hij Hj. apply Hpart; lia.
      * exists k. split; [exact Hrun|]. split; [lia|]. split.
        -- intros j u Hj Hu. destruct (decide (j <= i0)%nat) as [Hle|Hgt].
           ++ destruct (less val u) eqn:Hu'; [|reflexivity].
              rewrite <- Hless. symmetry.
              apply (Hpart j i0 u x); (lia || assumption).
           ++ apply (Hbelow j u); [lia|exact Hu].
        -- exact Habove.
Qed.
End SearchProofs.

#[global] Instance Z_ltb_strict_weak_order : StrictWeakOrder Z.ltb.
Proof.
  split.
  - intros x. apply Z.ltb_irrefl.
  - intros x y z H1 H2. apply Z.ltb_lt in H1, H2. apply Z.ltb_lt. lia.
  - intros x y z H1 H2. apply Z.ltb_ge in H1, H2. apply Z.ltb_ge. lia.
Qed.

(** X1.  [lower_bound] on a range that is partitioned by "less than [val]"
    (a sorted range is): it returns within [fuel] iterations when the
    length of the range is below [2 ^ fuel], the returned position lies in
    [[f, l]], every element before it is less than [val] and no element
    from it on is. *)
Theorem lower_bound_partition_point {T : Type} (less : T -> T -> bool)
    (fuel : nat) (a : list T) (f l : nat) (val : T) :
  (f <= l <= length a)%nat -> (l - f < 2 ^ fuel)%nat ->
  (forall i j x y, (f <= i)%nat -> (i <= j)%nat -> (j < l)%nat ->
     a !! i = Some x -> a !! j = Some y ->
     less y val = true -> less x val = true) ->
  exists k, lower_bound less fuel a f l val = Done k /\
    (f <= k <= l)%nat /\
    (forall j x, (f <= j < k)%nat -> a !! j = Some x -> less x val = true) /\
    (forall j x, (k <= j < l)%nat -> a !! j = Some x -> less x val = false).
Proof. apply lower_bound_spec. Qed.

Lemma lower_bound_partition_point_witness :
  exists k, lower_bound Z.ltb 3 [1; 3; 3; 5; 8] 0 5 4 = Done k /\
    (0 <= k <= 5)%nat.
Proof.
  destruct (lower_bound_partition_point Z.ltb 3 [1; 3; 3; 5; 8] 0 5 4)
    as (k & Hrun & Hk & _).
  - simpl. lia.
  - simpl. lia.
  - intros i j x y Hi Hij Hj Hx Hy Hlt.
    do 5 (destruct j as [|j]; [
      do 5 (destruct i as [|i]; [
        simpl in Hx, Hy; injection Hx as <-; injection Hy as <-;
        first [reflexivity | discriminate | lia] |]); lia |]).
    lia.
  - exists k. split; [exact Hrun|exact Hk].
Defined.

(** X2.  [upper_bound] on a range that is partitioned by "[val] is less
    than": it returns within [fuel] iterations when the length of the range
    is below [2 ^ fuel], the returned position lies in [[f, l]], [val] is
    less than no element before it and less than every element from it
    on. *)
Theorem upper_bound_partition_point {T : Type} (less : T -> T -> bool)
    (fuel : nat) (a : list T) (f l : nat) (val : T) :
  (f <= l <= length a)%nat -> (l - f < 2 ^ fuel)%nat ->
  (forall i j x y, (f <= i)%nat -> (i <= j)%nat -> (j < l)%nat ->
     a !! i = Some x -> a !! j = Some y ->
     less val x = true -> less val y = true) ->
  exists k, upper_bound less fuel a f l val = Done k /\
    (f <= k <= l)%nat /\
    (forall j x, (f <= j < k)%nat -> a !! j = Some x -> less val x = false) /\
    (forall j x, (k <= j < l)%nat -> a !! j = Some x -> less val x = true).
Proof. apply upper_bound_spec. Qed.

Lemma upper_bound_partition_point_witness :
  exists k, upper_bound Z.ltb 3 [1; 3; 3; 5; 8] 0 5 3 = Done k /\
    (0 <= k <= 5)%nat.
Proof.
  destruct (upper_bound_partition_point Z.ltb 3 [1; 3; 3; 5; 8] 0 5 3)
    as (k & Hrun & Hk & _).
  - simpl. lia.
  - simpl. lia.
  - intros i j x y Hi Hij Hj Hx Hy Hlt.
    do 5 (destruct j as [|j]; [
      do 5 (destruct i as [|i]; [
        simpl in Hx, Hy; injection Hx as <-; injection Hy as <-;
        first [reflexivity | discriminate | lia] |]); lia |]).
    lia.
  - exists k. split; [exact Hrun|exact Hk].
Defined.

(** X3.  On a range in non-descending order of a strict weak order,
    [lower_bound] and [upper_bound] return positions [lb <= ub], and the
    positions of the range between them are exactly those whose element is
    equivalent to [val] (neither is less than the other). *)
Theorem bounds_enclose_equivalent {T : Type} (less : T -> T -> bool)
    (fuel : nat) (a : list T) (f l : nat) (val : T) :
  StrictWeakOrder less ->
  (f <= l <= length a)%nat -> (l - f < 2 ^ fuel)%nat ->
  ascending less a f l ->
  exists lb ub,
    lower_bound less fuel a f l val = Done lb /\
    upper_bound less fuel a f l val = Done ub /\
    (f <= lb)%nat /\ (lb <= ub)%nat /\ (ub <= l)%nat /\
    forall j x, (f <= j < l)%nat -> a !! j = Some x ->
      ((lb <= j < ub)%nat <->
       (less x val = false /\ less val x = false)).
Proof.
  intros Hswo Hfl Hfuel Hasc.
  destruct (lower_bound_spec less fuel a f l val Hfl Hfuel)
    as (lb & Hlb & Hlbr & Hlb1 & Hlb2).
  { intros i j x y Hi Hij Hj Hx Hy Hlt.
    destruct (less x val) eqn:E; [reflexivity|].
    rewrite <- Hlt. symmetry.
    apply (less_incomparable y x val); [|exact E].
    apply (Hasc i j x y); assumption. }
  destruct (upper_bound_spec less fuel a f l val Hfl Hfuel)
    as (ub & Hub & Hubr & Hub1 & Hub2).
  { intros i j x y Hi Hij Hj Hx Hy Hlt.
    destruct (less val y) eqn:E; [reflexivity|].
    rewrite <- Hlt. symmetry.
    apply (less_incomparable val y x); [exact E|].
    apply (Hasc i j x y); assumption. }
  assert (Hle : (lb <= ub)%nat).
  { destruct (decide (lb <= ub)%nat) as [H|H]; [exact H|exfalso].
    destruct (lookup_lt_is_Some_2 a ub ltac:(lia)) as [x Hx].
    pose proof (Hlb1 ub x ltac:(lia) Hx) as H1.
    pose proof (Hub2 ub x ltac:(lia) Hx) as H2.
    pose proof (less_trans x val x H1 H2) as H3.
    rewrite less_irrefl in H3. discriminate. }
  exists lb, ub. split; [exact Hlb|]. split; [exact Hub|].
  split; [lia|]. split; [exact Hle|]. split; [lia|].
  intros j x Hj Hx. split.
  - intros Hin. split.
    + apply (Hlb2 j x); [lia|exact Hx].
    + apply (Hub1 j x); [lia|exact Hx].
  - intros [H1 H2].
    destruct (decide (lb <= j)%nat) as [Hl1|Hl1].
    + destruct (decide (j < ub)%nat) as [Hl2|Hl2]; [lia|].
      rewrite (Hub2 j x) in H2; [discriminate|lia|exact Hx].
    + rewrite (Hlb1 j x) in H1; [discriminate|lia|exact Hx].
Qed.

Lemma bounds_enclose_equivalent_witness :
  exists lb ub,
    lower_bound Z.ltb 3 [1; 3; 3; 5; 8] 0 5 3 = Done lb /\
    upper_bound Z.ltb 3 [1; 3; 3; 5; 8] 0 5 3 = Done ub /\
    (lb <= ub)%nat.
Proof.
  destruct (bounds_enclose_equivalent Z.ltb 3 [1; 3; 3; 5; 8] 0 5 3)
    as (lb & ub & Hlb & Hub & _ & Hle & _).
  - exact Z_ltb_strict_weak_order.
  - simpl. lia.
  - simpl. lia.
  - intros i j x y Hi Hij Hj Hx Hy.
    do 5 (destruct j as [|j]; [
      do 5 (destruct i as [|i]; [
        simpl in Hx, Hy; injection Hx as <-; injection Hy as <-;
        first [reflexivity | lia] |]); lia |]).
    lia.
  - exists lb, ub. split; [exact Hlb|]. split; [exact Hub|exact Hle].
Defined.


(** ** Strided loops: [copy] and [swap_ranges] *)

Lemma strides_done (f l off : nat) :
  (0 < off)%nat -> (l <= f)%nat -> strides f l off = 0%nat.
Proof.
  intros Hoff Hl. unfold strides.
  replace (l - f)%nat with 0%nat by lia.
  apply Nat.div_small. lia.
Qed.

Lemma strides_step (f l off : nat) :
  (0 < off)%nat -> (f < l)%nat ->
  strides f l off = S (strides (f + off) l off).
Proof.
  intros Hoff Hl. unfold strides.
  destruct (decide (l - f <= off)%nat) as [Hle|Hgt].
  - replace (l - (f + off))%nat with 0%nat by lia.
    rewrite (Nat.div_small (0 + (off - 1)) off) by lia.
    symmetry. apply (Nat.div_unique _ off 1 (l - f - 1)); lia.
  - replace (l - f + (off - 1))%nat
      with ((l - (f + off) + (off - 1)) + 1 * off)%nat by lia.
    rewrite Nat.div_add by lia. lia.
Qed.

Lemma strides_lt (f l off j : nat) :
  (0 < off)%nat -> ((j < strides f l off)%nat <-> (f + j * off < l)%nat).
Proof.
  intros Hoff. revert f. induction j as [|j IH]; intros f.
  - destruct (decide (f < l)%nat) as [Hlt|Hge].
    + rewrite strides_step by assumption. simpl. lia.
    + rewrite strides_done by lia. simpl. lia.
  - destruct (decide (f < l)%nat) as [Hlt|Hge].
    + rewrite strides_step by assumption.
      specialize (IH (f + off)%nat). simpl. lia.
    + rewrite strides_done by lia. simpl. lia.
Qed.

(** A position is one of the positions [f + j * off] below [l], or it is
    none of them. *)
Lemma stride_position (f l off pos : nat) :
  (0 < off)%nat ->
  (exists j, (f + j * off < l)%nat /\ pos = (f + j * off)%nat) \/
  (forall j, (f + j * off < l)%nat -> pos <> (f + j * off)%nat).
Proof.
  intros Hoff.
  destruct (decide (f <= pos < l)%nat) as [Hin|Hout].
  - pose proof (Nat.div_mod_eq (pos - f) off) as E.
    destruct (decide ((pos - f) mod off = 0)%nat) as [Hz|Hnz].
    + left. exists ((pos - f) / off)%nat.
      rewrite (Nat.mul_comm _ off). lia.
    + right. intros j Hj Hpos. apply Hnz.
      replace (pos - f)%nat with (0 + j * off)%nat by lia.
      rewrite Nat.Div0.mod_add. apply Nat.mod_small. lia.
  - right. intros j Hj Hpos. lia.
Qed.

Section StridedProofs.
Context {T : Type}.

Lemma copy_spec (off i_l fuel : nat) (a : list T) (i_f o_f : nat) :
  (0 < off)%nat -> (i_l <= length a)%nat ->
  (o_f <= i_f \/ i_l <= o_f)%nat ->
  (forall j, (i_f + j * off < i_l)%nat -> (o_f + j * off < length a)%nat) ->
  (strides i_f i_l off <= fuel)%nat ->
  exists a',
    copy fuel a i_f i_l o_f off
    = Done (a', (o_f + strides i_f i_l off * off)%nat) /\
    length a' = length a /\
    (forall j, (i_f + j * off < i_l)%nat ->
       a' !! (o_f + j * off)%nat = a !! (i_f + j * off)%nat) /\
    (forall pos,
       (forall j, (i_f + j * off < i_l)%nat -> pos <> (o_f + j * off)%nat) ->
       a' !! pos = a !! pos).
Proof.
  intros Hoff. revert a i_f o_f.
  induction fuel as [|fuel IH]; intros a i_f o_f Hl Halias Hfit Hfuel.
  - assert (Hdone : (i_l <= i_f)%nat).
    { destruct (decide (i_l <= i_f)%nat) as [H|H]; [exact H|].
      rewrite strides_step in Hfuel by lia. lia. }
    simpl. destruct (decide (i_f < i_l)%nat); [lia|].
    rewrite strides_done by lia. exists a.
    rewrite Nat.add_0_r. split; [reflexivity|]. split; [reflexivity|].
    split; [intros j Hj; lia|reflexivity].
  - cbn [copy]. destruct (decide (i_f < i_l)%nat) as [Hlt|Hge].
    2:{ rewrite strides_done by lia. exists a.
        rewrite Nat.add_0_r. split; [reflexivity|]. split; [reflexivity|].
        split; [intros j Hj; lia|reflexivity]. }
    destruct (lookup_lt_is_Some_2 a i_f ltac:(lia)) as [x Hx].
    rewrite Hx.
    pose proof (Hfit 0%nat ltac:(simpl; lia)) as Ho. simpl in Ho.
    rewrite Nat.add_0_r in Ho.
    destruct (decide (o_f < length a)%nat); [|lia].
    rewrite strides_step in * by lia.
    destruct (IH (<[o_f := x]> a) (i_f + off)%nat (o_f + off)%nat)
      as (a' & Hrun & Hlen & Hcopied & Hframe).
    + rewrite length_insert. exact Hl.
    + lia.
    + intros j Hj. rewrite length_insert.
      specialize (Hfit (S j)). simpl in Hfit. lia.
    + lia.
    + exists a'. split.
      { rewrite Hrun. do 2 f_equal. simpl. lia. }
      split; [rewrite Hlen; apply length_insert|]. split.
      * intros [|j] Hj.
        -- simpl. rewrite !Nat.add_0_r. rewrite Hframe.
           ++ rewrite list_lookup_insert_eq by lia. symmetry. exact Hx.
           ++ intros j' Hj'. lia.
        -- simpl in *.
           replace (o_f + (off + j * off))%nat
             with (o_f + off + j * off)%nat by lia.
           rewrite Hcopied by lia.
           rewrite list_lookup_insert_ne by lia.
           f_equal. lia.
      * intros pos Hpos. rewrite Hframe.
        -- apply list_lookup_insert_ne.
           specialize (Hpos 0%nat). simpl in Hpos. lia.
        -- intros j Hj. specialize (Hpos (S j)). simpl in Hpos. lia.
Qed.

Lemma copy_zero_stride (fuel : nat) (a : list T) (i_f i_l o_f : nat) :
  (i_f < i_l)%nat -> (i_f < length a)%nat -> (o_f < length a)%nat ->
  copy fuel a i_f i_l o_f 0 = Running.
Proof.
  intros Hlt. revert a. induction fuel as [|fuel IH]; intros a Hi Ho.
  - simpl. destruct (decide (i_f < i_l)%nat); [reflexivity|lia].
  - cbn [copy]. destruct (decide (i_f < i_l)%nat); [|lia].
    destruct (lookup_lt_is_Some_2 a i_f Hi) as [x ->].
    destruct (decide (o_f < length a)%nat); [|lia].
    rewrite !Nat.add_0_r. apply IH; rewrite length_insert; assumption.
Qed.

Lemma swap_ranges_spec (off l_A fuel : nat) (a : list T) (f_A f_B : nat) :
  (0 < off)%nat -> (l_A <= length a)%nat ->
  (forall j, (f_A + j * off < l_A)%nat -> (f_B + j * off < length a)%nat) ->
  (forall j j', (f_A + j * off < l_A)%nat -> (f_A + j' * off < l_A)%nat ->
     (f_A + j * off)%nat <> (f_B + j' * off)%nat) ->
  (strides f_A l_A off <= fuel)%nat ->
  exists a',
    swap_ranges fuel a f_A l_A f_B off = Done a' /\
    length a' = length a /\
    (forall j, (f_A + j * off < l_A)%nat ->
       a' !! (f_A + j * off)%nat = a !! (f_B + j * off)%nat /\
       a' !! (f_B + j * off)%nat = a !! (f_A + j * off)%nat) /\
    (forall pos,
       (forall j, (f_A + j * off < l_A)%nat ->
          pos <> (f_A + j * off)%nat /\ pos <> (f_B + j * off)%nat) ->
       a' !! pos = a !! pos).
Proof.
  intros Hoff. revert a f_A f_B.
  induction fuel as [|fuel IH]; intros a f_A f_B Hl Hfit Hdis Hfuel.
  - assert (Hdone : (l_A <= f_A)%nat).
    { destruct (decide (l_A <= f_A)%nat) as [H|H]; [exact H|].
      rewrite strides_step in Hfuel by lia. lia. }
    simpl. destruct (decide (f_A < l_A)%nat); [lia|].
    exists a. split; [reflexivity|]. split; [reflexivity|].
    split; [intros j Hj; lia|reflexivity].
  - cbn [swap_ranges]. destruct (decide (f_A < l_A)%nat) as [Hlt|Hge].
    2:{ exists a. split; [reflexivity|]. split; [reflexivity|].
        split; [intros j Hj; lia|reflexivity]. }
    destruct (lookup_lt_is_Some_2 a f_A ltac:(lia)) as [x Hx].
    pose proof (Hfit 0%nat ltac:(simpl; lia)) as Hb. simpl in Hb.
    rewrite Nat.add_0_r in Hb.
    destruct (lookup_lt_is_Some_2 a f_B Hb) as [y Hy].
    pose proof (Hdis 0%nat 0%nat ltac:(simpl; lia) ltac:(simpl; lia)) as Hne.
    simpl in Hne. rewrite !Nat.add_0_r in Hne.
    unfold swap. rewrite Hx, Hy. cbn [mbind option_bind].
    rewrite strides_step in Hfuel by lia.
    destruct (IH (<[f_B := x]> (<[f_A := y]> a))
                (f_A + off)%nat (f_B + off)%nat)
      as (a' & Hrun & Hlen & Hswapped & Hframe).
    + rewrite !length_insert. exact Hl.
    + intros j Hj. rewrite !length_insert.
      specialize (Hfit (S j)). simpl in Hfit. lia.
    + intros j j' Hj Hj'.
      specialize (Hdis (S j) (S j')). simpl in Hdis. lia.
    + lia.
    + exists a'. split; [exact Hrun|].
      split; [rewrite Hlen, !length_insert; reflexivity|]. split.
      * intros [|j] Hj.
        -- simpl. rewrite !Nat.add_0_r. split.
           ++ rewrite Hframe.
              ** rewrite list_lookup_insert_ne by lia.
                 rewrite list_lookup_insert_eq by lia. symmetry. exact Hy.
              ** intros j' Hj'. split; [lia|].
                 pose proof (Hdis 0%nat (S j') ltac:(simpl; lia)
                               ltac:(simpl; lia)) as H.
                 simpl in H. lia.
           ++ rewrite Hframe.
              ** rewrite list_lookup_insert_eq
                   by (rewrite length_insert; lia).
                 symmetry. exact Hx.
              ** intros j' Hj'. split; [|lia].
                 pose proof (Hdis (S j') 0%nat ltac:(simpl; lia)
                               ltac:(simpl; lia)) as H.
                 simpl in H. lia.
        -- simpl in *.
           pose proof (Hdis (S j) 0%nat ltac:(simpl; lia)
                         ltac:(simpl; lia)) as H1.
           pose proof (Hdis 0%nat (S j) ltac:(simpl; lia)
                         ltac:(simpl; lia)) as H2.
           simpl in H1, H2.
           replace (f_A + (off + j * off))%nat
             with (f_A + off + j * off)%nat by lia.
           replace (f_B + (off + j * off))%nat
             with (f_B + off + j * off)%nat by lia.
           destruct (Hswapped j ltac:(lia)) as [-> ->].
           rewrite !list_lookup_insert_ne by lia. split; reflexivity.
      * intros pos Hpos. rewrite Hframe.
        -- pose proof (Hpos 0%nat ltac:(simpl; lia)) as H. simpl in H.
           rewrite !list_lookup_insert_ne by lia. reflexivity.
        -- intros j Hj. specialize (Hpos (S j)). simpl in Hpos. lia.
Qed.

Lemma swap_ranges_zero_stride (fuel : nat) (a : list T) (f_A l_A f_B : nat) :
  (f_A < l_A)%nat -> (f_A < length a)%nat -> (f_B < length a)%nat ->
  swap_ranges fuel a f_A l_A f_B 0 = Running.
Proof.
  intros Hlt. revert a. induction fuel as [|fuel IH]; intros a Hi Ho.
  - simpl. destruct (decide (f_A < l_A)%nat); [reflexivity|lia].
  - cbn [swap_ranges]. destruct (decide (f_A < l_A)%nat); [|lia].
    destruct (lookup_lt_is_Some_2 a f_A Hi) as [x Hx].
    destruct (lookup_lt_is_Some_2 a f_B Ho) as [y Hy].
    unfold swap. rewrite Hx, Hy. cbn [mbind option_bind].
    rewrite !Nat.add_0_r. apply IH; rewrite !length_insert; assumption.
Qed.

Lemma ranges_apart (off f_A l_A f_B : nat) :
  (l_A <= f_B \/ f_B + (l_A - f_A) <= f_A)%nat ->
  forall j j', (f_A + j * off < l_A)%nat -> (f_A + j' * off < l_A)%nat ->
    (f_A + j * off)%nat <> (f_B + j' * off)%nat.
Proof. intros H j j' Hj Hj'. lia. Qed.
End StridedProofs.

(** X4.  [copy] with a stride [off >= 1], from a range to an output that
    starts at or before it or behind its end: it returns after one
    iteration per stride, the returned iterator is [o_f] advanced by the
    strides taken, every visited element [i_f + j * off] is found at
    [o_f + j * off], and no other position changes. *)
Theorem copy_strided {T : Type} (fuel : nat) (a : list T)
    (i_f i_l o_f off : nat) :
  (0 < off)%nat -> (i_l <= length a)%nat ->
  (o_f <= i_f \/ i_l <= o_f)%nat ->
  (forall j, (i_f + j * off < i_l)%nat -> (o_f + j * off < length a)%nat) ->
  (strides i_f i_l off <= fuel)%nat ->
  exists a',
    copy fuel a i_f i_l o_f off
    = Done (a', (o_f + strides i_f i_l off * off)%nat) /\
    length a' = length a /\
    (forall j, (i_f + j * off < i_l)%nat ->
       a' !! (o_f + j * off)%nat = a !! (i_f + j * off)%nat) /\
    (forall pos,
       (forall j, (i_f + j * off < i_l)%nat -> pos <> (o_f + j * off)%nat) ->
       a' !! pos = a !! pos).
Proof. intros Hoff. apply copy_spec, Hoff. Qed.

Lemma copy_strided_witness :
  copy 2 [10; 11; 12; 0; 0; 0] 0 3 3 2 = Done ([10; 11; 12; 10; 0; 12], 7%nat).
Proof.
  destruct (copy_strided 2 [10; 11; 12; 0; 0; 0] 0 3 3 2)
    as (a' & Hrun & _).
  - lia.
  - simpl. lia.
  - lia.
  - intros j Hj. simpl. lia.
  - vm_compute. lia.
  - reflexivity.
Defined.

(** X5.  With the stride [off = 0] neither [copy] nor [swap_ranges]
    returns on a non-empty range: the iterators never advance. *)
Theorem zero_stride_never_returns {T : Type} (a : list T)
    (f l o : nat) :
  (f < l)%nat -> (f < length a)%nat -> (o < length a)%nat ->
  forall fuel,
    copy fuel a f l o 0 = Running /\ swap_ranges fuel a f l o 0 = Running.
Proof.
  intros Hfl Hf Ho fuel. split.
  - apply copy_zero_stride; assumption.
  - apply swap_ranges_zero_stride; assumption.
Qed.

Lemma zero_stride_never_returns_witness :
  copy 1000 [1; 2; 3; 4] 0 2 2 0 = Running /\
  swap_ranges 1000 [1; 2; 3; 4] 0 2 2 0 = Running.
Proof.
  apply (zero_stride_never_returns [1; 2; 3; 4] 0 2 2); simpl; lia.
Defined.

(** X6.  [copy] is not [memmove]: copying a range one position to the
    right inside the same array, with stride 1, leaves the first element of
    the range in every position of the range and in the one behind it. *)
Theorem copy_overlap_smears {T : Type} (fuel : nat) (a : list T)
    (i_f i_l : nat) (x : T) :
  (i_f < i_l)%nat -> (i_l < length a)%nat -> a !! i_f = Some x ->
  (i_l - i_f <= fuel)%nat ->
  exists a',
    copy fuel a i_f i_l (S i_f) 1 = Done (a', S i_l) /\
    length a' = length a /\
    (forall pos, (i_f <= pos <= i_l)%nat -> a' !! pos = Some x) /\
    (forall pos, ~ (i_f <= pos <= i_l)%nat -> a' !! pos = a !! pos).
Proof.
  revert a i_f. induction fuel as [|fuel IH]; intros a i_f Hlt Hl Hx Hfuel;
    [lia|].
  cbn [copy]. destruct (decide (i_f < i_l)%nat); [|lia].
  rewrite Hx. destruct (decide (S i_f < length a)%nat); [|lia].
  replace (i_f + 1)%nat with (S i_f) by lia.
  replace (S i_f + 1)%nat with (S (S i_f)) by lia.
  destruct (decide (S i_f < i_l)%nat) as [Hmore|Hlast].
  - destruct (IH (<[S i_f := x]> a) (S i_f))
      as (a' & Hrun & Hlen & Hin & Hout).
    + exact Hmore.
    + rewrite length_insert. exact Hl.
    + apply list_lookup_insert_eq. lia.
    + lia.
    + exists a'. split; [exact Hrun|].
      split; [rewrite Hlen; apply length_insert|]. split.
      * intros pos Hpos. destruct (decide (pos = i_f)) as [->|Hne].
        -- rewrite Hout by lia. rewrite list_lookup_insert_ne by lia.
           exact Hx.
        -- apply Hin. lia.
      * intros pos Hpos. rewrite Hout by lia.
        apply list_lookup_insert_ne. lia.
  - assert (i_l = S i_f) as -> by lia.
    destruct fuel as [|fuel]; simpl;
      (destruct (decide (S i_f < S i_f)%nat); [lia|]);
      (exists (<[S i_f := x]> a); split; [reflexivity|];
       split; [apply length_insert|]; split;
       [ intros pos Hpos; destruct (decide (pos = S i_f)) as [->|Hne];
         [ apply list_lookup_insert_eq; lia
         | rewrite list_lookup_insert_ne by lia;
           replace pos with i_f by lia; exact Hx ]
       | intros pos Hpos; apply list_lookup_insert_ne; lia ]).
Qed.

Lemma copy_overlap_smears_witness :
  copy 3 [7; 1; 2; 3; 4] 0 3 1 1 = Done ([7; 7; 7; 7; 4], 4%nat).
Proof.
  destruct (copy_overlap_smears 3 [7; 1; 2; 3; 4] 0 3 7)
    as (a' & Hrun & _).
  - lia.
  - simpl. lia.
  - reflexivity.
  - lia.
  - reflexivity.
Defined.

(** X7.  [swap_ranges] with a stride [off >= 1] on two ranges that do not
    overlap: it returns, every visited element [f_A + j * off] and the
    element [f_B + j * off] have changed places, and no other position
    changes. *)
Theorem swap_ranges_exchanges {T : Type} (fuel : nat) (a : list T)
    (f_A l_A f_B off : nat) :
  (0 < off)%nat -> (l_A <= length a)%nat ->
  (forall j, (f_A + j * off < l_A)%nat -> (f_B + j * off < length a)%nat) ->
  (l_A <= f_B \/ f_B + (l_A - f_A) <= f_A)%nat ->
  (strides f_A l_A off <= fuel)%nat ->
  exists a',
    swap_ranges fuel a f_A l_A f_B off = Done a' /\
    length a' = length a /\
    (forall j, (f_A + j * off < l_A)%nat ->
       a' !! (f_A + j * off)%nat = a !! (f_B + j * off)%nat /\
       a' !! (f_B + j * off)%nat = a !! (f_A + j * off)%nat) /\
    (forall pos,
       (forall j, (f_A + j * off < l_A)%nat ->
          pos <> (f_A + j * off)%nat /\ pos <> (f_B + j * off)%nat) ->
       a' !! pos = a !! pos).
Proof.
  intros Hoff Hl Hfit Hapart Hfuel.
  apply swap_ranges_spec; try assumption.
  apply ranges_apart, Hapart.
Qed.

Lemma swap_ranges_exchanges_witness :
  swap_ranges 3 [1; 2; 3; 4; 5; 6] 0 3 3 1 = Done [4; 5; 6; 1; 2; 3].
Proof.
  destruct (swap_ranges_exchanges 3 [1; 2; 3; 4; 5; 6] 0 3 3 1)
    as (a' & Hrun & _).
  - lia.
  - simpl. lia.
  - intros j Hj. simpl. lia.
  - lia.
  - vm_compute. lia.
  - reflexivity.
Defined.

(** X8.  [swap_ranges] undoes itself: on two ranges that do not overlap, a
    second call with the same arguments restores the array. *)
Theorem swap_ranges_twice {T : Type} (fuel : nat) (a a' : list T)
    (f_A l_A f_B off : nat) :
  (0 < off)%nat -> (l_A <= length a)%nat ->
  (forall j, (f_A + j * off < l_A)%nat -> (f_B + j * off < length a)%nat) ->
  (l_A <= f_B \/ f_B + (l_A - f_A) <= f_A)%nat ->
  (strides f_A l_A off <= fuel)%nat ->
  swap_ranges fuel a f_A l_A f_B off = Done a' ->
  swap_ranges fuel a' f_A l_A f_B off = Done a.
Proof.
  intros Hoff Hl Hfit Hapart Hfuel Hrun.
  pose proof (ranges_apart off f_A l_A f_B Hapart) as Hdis.
  destruct (swap_ranges_spec off l_A fuel a f_A f_B Hoff Hl Hfit Hdis Hfuel)
    as (a1 & Hrun1 & Hlen1 & Hsw1 & Hfr1).
  rewrite Hrun in Hrun1. injection Hrun1 as <-.
  destruct (swap_ranges_spec off l_A fuel a' f_A f_B Hoff)
    as (a2 & Hrun2 & Hlen2 & Hsw2 & Hfr2).
  - rewrite Hlen1. exact Hl.
  - rewrite Hlen1. exact Hfit.
  - exact Hdis.
  - exact Hfuel.
  - rewrite Hrun2. f_equal. apply list_eq. intros pos.
    destruct (stride_position f_A l_A off pos Hoff) as [(j & Hj & ->)|HnA].
    { destruct (Hsw2 j Hj) as [-> _]. destruct (Hsw1 j Hj) as [_ ->].
      reflexivity. }
    destruct (stride_position f_A l_A off (pos + f_A - f_B) Hoff)
      as [(j & Hj & Hpos)|HnB].
    + destruct (decide (f_B <= pos)%nat) as [Hge|Hlt].
      * replace pos with (f_B + j * off)%nat by lia.
        destruct (Hsw2 j Hj) as [_ ->]. destruct (Hsw1 j Hj) as [-> _].
        reflexivity.
      * rewrite Hfr2, Hfr1; [reflexivity| |];
          intros j' Hj'; (split; [apply HnA, Hj'|lia]).
    + rewrite Hfr2, Hfr1; [reflexivity| |];
        intros j' Hj'; (split; [apply HnA, Hj'|]);
        intros ->; apply (HnB j' Hj'); lia.
Qed.

Lemma swap_ranges_twice_witness :
  swap_ranges 2 [4; 2; 6; 1; 5; 3] 0 3 3 2 = Done [1; 2; 3; 4; 5; 6].
Proof.
  apply (swap_ranges_twice 2 [1; 2; 3; 4; 5; 6] [4; 2; 6; 1; 5; 3] 0 3 3 2).
  - lia.
  - simpl. lia.
  - intros j Hj. simpl. lia.
  - lia.
  - vm_compute. lia.
  - reflexivity.
Defined.


(** ** [merge] *)

Lemma span_lookup {T : Type} (a : list T) (i j k : nat) :
  (k < j - i)%nat -> span a i j !! k = a !! (i + k)%nat.
Proof.
  intros Hk. unfold span. rewrite lookup_take_lt by exact Hk.
  apply lookup_drop.
Qed.

Lemma span_length {T : Type} (a : list T) (i j : nat) :
  (j <= length a)%nat -> length (span a i j) = (j - i)%nat.
Proof. intros H. unfold span. rewrite length_take, length_drop. lia. Qed.

Lemma span_empty {T : Type} (a : list T) (i j : nat) :
  (j <= i)%nat -> span a i j = [].
Proof.
  intros H. unfold span. replace (j - i)%nat with 0%nat by lia. reflexivity.
Qed.

Lemma span_first {T : Type} (a : list T) (i j : nat) (x : T) :
  (i < j)%nat -> a !! i = Some x -> span a i j = x :: span a (S i) j.
Proof.
  intros Hij Hx. unfold span.
  replace (j - i)%nat with (S (j - S i)) by lia.
  rewrite (drop_S a x i Hx). reflexivity.
Qed.

Lemma span_split {T : Type} (a : list T) (i j k : nat) :
  (i <= j)%nat -> (j <= k)%nat -> span a i k = span a i j ++ span a j k.
Proof.
  intros Hij Hjk. unfold span.
  replace (k - i)%nat with ((j - i) + (k - j))%nat by lia.
  rewrite <- take_take_drop, drop_drop.
  replace (i + (j - i))%nat with j by lia. reflexivity.
Qed.

(** Two ranges of the same length with the same elements. *)
Lemma span_same {T : Type} (a b : list T) (i i' n : nat) :
  (i + n <= length a)%nat -> (i' + n <= length b)%nat ->
  (forall k, (k < n)%nat -> b !! (i' + k)%nat = a !! (i + k)%nat) ->
  span b i' (i' + n) = span a i (i + n).
Proof.
  intros Ha Hb H. apply list_eq. intros k.
  destruct (decide (k < n)%nat) as [Hk|Hk].
  - rewrite !span_lookup by lia. apply H, Hk.
  - rewrite !lookup_ge_None_2; [reflexivity| |];
      rewrite span_length by lia; lia.
Qed.

Section MergeLists.
Context {T : Type}.
Variable less : T -> T -> bool.

Lemma merge_lists_nil_r (xs : list T) : merge_lists less xs [] = xs.
Proof. destruct xs; reflexivity. Qed.

Lemma merge_lists_cons (x y : T) (xs ys : list T) :
  merge_lists less (x :: xs) (y :: ys)
  = if less x y then x :: merge_lists less xs (y :: ys)
    else y :: merge_lists less (x :: xs) ys.
Proof. reflexivity. Qed.

Lemma merge_lists_perm (xs ys : list T) :
  merge_lists less xs ys ≡ₚ xs ++ ys.
Proof.
  revert ys. induction xs as [|x xs IHx]; intros ys; [reflexivity|].
  induction ys as [|y ys IHy].
  - rewrite merge_lists_nil_r, app_nil_r. reflexivity.
  - rewrite merge_lists_cons. destruct (less x y).
    + simpl. rewrite IHx. reflexivity.
    + rewrite IHy. apply Permutation_middle.
Qed.

(** Ties go to the second list. *)
Lemma merge_lists_ties (xs ys : list T) :
  (forall x y, x ∈ xs -> y ∈ ys -> less x y = false) ->
  merge_lists less xs ys = ys ++ xs.
Proof.
  destruct xs as [|x xs]; intros H.
  - simpl. rewrite app_nil_r. reflexivity.
  - induction ys as [|y ys IH]; [reflexivity|].
    rewrite merge_lists_cons.
    rewrite (H x y) by (apply list_elem_of_here).
    simpl. f_equal. apply IH.
    intros u v Hu Hv. apply H; [exact Hu|].
    apply list_elem_of_further, Hv.
Qed.

Context `{Hswo : !StrictWeakOrder less}.

Lemma less_asym (x y : T) : less x y = true -> less y x = false.
Proof.
  intros H. destruct (less y x) eqn:E; [|reflexivity].
  pose proof (less_trans x y x H E) as H'.
  rewrite less_irrefl in H'. discriminate.
Qed.

Lemma merge_lists_sorted (xs ys : list T) :
  nondescending less xs -> nondescending less ys ->
  nondescending less (merge_lists less xs ys).
Proof.
  revert ys. induction xs as [|x xs IHx]; intros ys Hxs Hys; [exact Hys|].
  induction ys as [|y ys IHy].
  - rewrite merge_lists_nil_r. exact Hxs.
  - rewrite merge_lists_cons.
    destruct Hxs as [Hx Hxs']. destruct Hys as [Hy Hys'].
    destruct (less x y) eqn:Hxy.
    + split.
      * apply (Permutation_Forall
                 (Permutation_sym (merge_lists_perm xs (y :: ys)))).
        apply Forall_app. split; [exact Hx|].
        pose proof (less_asym x y Hxy) as Hyx.
        apply Forall_cons. split; [exact Hyx|].
        eapply Forall_impl; [exact Hy|].
        intros z Hz. apply (less_incomparable z y x Hz Hyx).
      * apply IHx; [exact Hxs'|]. split; assumption.
    + split.
      * apply (Permutation_Forall
                 (Permutation_sym (merge_lists_perm (x :: xs) ys))).
        apply Forall_app. split; [|exact Hy].
        apply Forall_cons. split; [exact Hxy|].
        eapply Forall_impl; [exact Hx|].
        intros z Hz. apply (less_incomparable z x y Hz Hxy).
      * apply IHy, Hys'.
Qed.

(** A range of an array is in order when the list of its elements is. *)
Lemma ascending_span (a : list T) (f l : nat) :
  (l <= length a)%nat ->
  (ascending less a f l <-> nondescending less (span a f l)).
Proof.
  intros Hl. remember (l - f)%nat as n eqn:Hn.
  revert f Hn. induction n as [|n IH]; intros f Hn.
  - rewrite span_empty by lia. split; [intros _; exact I|].
    intros _ i j x y Hi Hij Hj. lia.
  - destruct (lookup_lt_is_Some_2 a f ltac:(lia)) as [x Hx].
    rewrite (span_first a f l x) by (lia || assumption).
    cbn [nondescending]. rewrite <- (IH (S f)) by lia. split.
    + intros Hasc. split.
      * apply Forall_lookup. intros k y Hk.
        assert (Hkl : (k < l - S f)%nat).
        { apply lookup_lt_Some in Hk.
          rewrite span_length in Hk by lia. exact Hk. }
        rewrite span_lookup in Hk by exact Hkl.
        apply (Hasc f (S f + k)%nat x y); (lia || assumption).
      * intros i j u v Hi Hij Hj. apply Hasc; lia.
    + intros [Hall Hasc] i j u v Hi Hij Hj Hu Hv.
      destruct (decide (i = f)) as [->|Hne].
      * rewrite Hx in Hu. injection Hu as <-.
        destruct (decide (j = f)) as [->|Hnej].
        -- rewrite Hx in Hv. injection Hv as <-. apply less_irrefl.
        -- rewrite Forall_lookup in Hall.
           apply (Hall (j - S f)%nat v).
           rewrite span_lookup by lia.
           replace (S f + (j - S f))%nat with j by lia. exact Hv.
      * apply (Hasc i j u v); (lia || assumption).
Qed.
End MergeLists.

Section MergeProofs.
Context {T : Type}.
Variable less : T -> T -> bool.

Lemma merge_rest_spec (l fuel : nat) (a : list T) (f o : nat) :
  (f <= l <= length a)%nat -> (o + (l - f) <= length a)%nat ->
  (o + (l - f) <= f \/ l <= o)%nat -> (l - f <= fuel)%nat ->
  exists a',
    merge_rest fuel a f l o = Done (a', (o + (l - f))%nat) /\
    length a' = length a /\
    (forall k, (k < l - f)%nat -> a' !! (o + k)%nat = a !! (f + k)%nat) /\
    (forall pos, ~ (o <= pos < o + (l - f))%nat -> a' !! pos = a !! pos).
Proof.
  revert a f o. induction fuel as [|fuel IH]; intros a f o Hfl Ho Hdis Hfuel.
  - simpl. destruct (decide (f <> l)); [lia|].
    replace (l - f)%nat with 0%nat by lia. rewrite Nat.add_0_r.
    exists a. split; [reflexivity|]. split; [reflexivity|].
    split; [intros k Hk; lia|reflexivity].
  - cbn [merge_rest]. destruct (decide (f <> l)) as [Hne|Heq].
    2:{ replace (l - f)%nat with 0%nat by lia. rewrite Nat.add_0_r.
        exists a. split; [reflexivity|]. split; [reflexivity|].
        split; [intros k Hk; lia|reflexivity]. }
    destruct (lookup_lt_is_Some_2 a f ltac:(lia)) as [x Hx].
    rewrite Hx. destruct (decide (o < length a)%nat); [|lia].
    destruct (IH (<[o := x]> a) (S f) (S o))
      as (a' & Hrun & Hlen & Hcopied & Hframe).
    + rewrite length_insert. lia.
    + rewrite length_insert. lia.
    + lia.
    + lia.
    + exists a'. split.
      { rewrite Hrun. do 2 f_equal. lia. }
      split; [rewrite Hlen; apply length_insert|]. split.
      * intros [|k] Hk.
        -- rewrite !Nat.add_0_r, Hframe by lia.
           rewrite list_lookup_insert_eq by lia. symmetry. exact Hx.
        -- replace (o + S k)%nat with (S o + k)%nat by lia.
           rewrite Hcopied by lia.
           rewrite list_lookup_insert_ne by lia. f_equal. lia.
      * intros pos Hpos. rewrite Hframe by lia.
        apply list_lookup_insert_ne. lia.
Qed.

Lemma merge_heads_spec (l_1 l_2 fuel : nat) (a : list T) (f_1 f_2 o : nat) :
  (f_1 <= l_1 <= length a)%nat -> (f_2 <= l_2 <= length a)%nat ->
  (o + (l_1 - f_1) + (l_2 - f_2) <= length a)%nat ->
  (o + (l_1 - f_1) + (l_2 - f_2) <= f_1 \/ l_1 <= o)%nat ->
  (o + (l_1 - f_1) + (l_2 - f_2) <= f_2 \/ l_2 <= o)%nat ->
  ((l_1 - f_1) + (l_2 - f_2) <= fuel)%nat ->
  exists a1 f_1' f_2' o1,
    merge_heads less fuel a f_1 l_1 f_2 l_2 o = Done (a1, f_1', f_2', o1) /\
    (f_1 <= f_1' <= l_1)%nat /\ (f_2 <= f_2' <= l_2)%nat /\
    (f_1' = l_1 \/ f_2' = l_2) /\
    o1 = (o + (f_1' - f_1) + (f_2' - f_2))%nat /\
    length a1 = length a /\
    (forall pos, ~ (o <= pos < o1)%nat -> a1 !! pos = a !! pos) /\
    merge_lists less (span a f_1 l_1) (span a f_2 l_2)
    = span a1 o o1
      ++ merge_lists less (span a f_1' l_1) (span a f_2' l_2).
Proof.
  revert a f_1 f_2 o.
  induction fuel as [|fuel IH]; intros a f_1 f_2 o H1 H2 Ho Hd1 Hd2 Hfuel.
  - simpl. destruct (decide (f_1 <> l_1 /\ f_2 <> l_2)); [lia|].
    exists a, f_1, f_2, o. split; [reflexivity|].
    split; [lia|]. split; [lia|]. split; [lia|]. split; [lia|].
    split; [reflexivity|]. split; [reflexivity|].
    rewrite (span_empty a o o) by lia. reflexivity.
  - cbn [merge_heads].
    destruct (decide (f_1 <> l_1 /\ f_2 <> l_2)) as [[Hn1 Hn2]|Hstop].
    2:{ exists a, f_1, f_2, o. split; [reflexivity|].
        split; [lia|]. split; [lia|]. split; [lia|]. split; [lia|].
        split; [reflexivity|]. split; [reflexivity|].
        rewrite (span_empty a o o) by lia. reflexivity. }
    destruct (lookup_lt_is_Some_2 a f_1 ltac:(lia)) as [x Hx].
    destruct (lookup_lt_is_Some_2 a f_2 ltac:(lia)) as [y Hy].
    rewrite Hx, Hy. destruct (decide (o < length a)%nat); [|lia].
    rewrite (span_first a f_1 l_1 x) by (lia || assumption).
    rewrite (span_first a f_2 l_2 y) by (lia || assumption).
    rewrite merge_lists_cons.
    assert (Hkeep : forall (v : T) (i j : nat),
              (j <= length a)%nat -> (i <= j)%nat ->
              ~ (i <= o < j)%nat ->
              span (<[o := v]> a) i j = span a i j).
    { intros v i j Hj Hij Hout.
      replace j with (i + (j - i))%nat by lia.
      apply span_same; [lia|rewrite length_insert; lia|].
      intros k Hk. apply list_lookup_insert_ne. lia. }
    destruct (less x y) eqn:Hxy.
    + destruct (IH (<[o := x]> a) (S f_1) f_2 (S o))
        as (a1 & f_1' & f_2' & o1 & Hrun & Hr1 & Hr2 & Hend & Ho1 & Hlen
            & Hframe & Hmerge);
        try (rewrite length_insert); try lia.
      exists a1, f_1', f_2', o1. split; [exact Hrun|].
      split; [lia|]. split; [lia|]. split; [exact Hend|]. split; [lia|].
      split; [rewrite Hlen; apply length_insert|]. split.
      * intros pos Hpos. rewrite Hframe by lia.
        apply list_lookup_insert_ne. lia.
      * assert (Ho' : a1 !! o = Some x).
        { rewrite Hframe by lia. apply list_lookup_insert_eq. lia. }
        rewrite (span_first a1 o o1 x) by (lia || assumption).
        simpl. f_equal.
        rewrite !Hkeep in Hmerge by lia.
        rewrite (span_first a f_2 l_2 y) in Hmerge by (lia || assumption).
        exact Hmerge.
    + destruct (IH (<[o := y]> a) f_1 (S f_2) (S o))
        as (a1 & f_1' & f_2' & o1 & Hrun & Hr1 & Hr2 & Hend & Ho1 & Hlen
            & Hframe & Hmerge);
        try (rewrite length_insert); try lia.
      exists a1, f_1', f_2', o1. split; [exact Hrun|].
      split; [lia|]. split; [lia|]. split; [exact Hend|]. split; [lia|].
      split; [rewrite Hlen; apply length_insert|]. split.
      * intros pos Hpos. rewrite Hframe by lia.
        apply list_lookup_insert_ne. lia.
      * assert (Ho' : a1 !! o = Some y).
        { rewrite Hframe by lia. apply list_lookup_insert_eq. lia. }
        rewrite (span_first a1 o o1 y) by (lia || assumption).
        simpl. f_equal.
        rewrite !Hkeep in Hmerge by lia.
        rewrite (span_first a f_1 l_1 x) in Hmerge by (lia || assumption).
        exact Hmerge.
Qed.

(** The three loops together write the merged list to the output. *)
Lemma merge_spec (fuel : nat) (a : list T) (f_1 l_1 f_2 l_2 o : nat) :
  (f_1 <= l_1 <= length a)%nat -> (f_2 <= l_2 <= length a)%nat ->
  (o + (l_1 - f_1) + (l_2 - f_2) <= length a)%nat ->
  (o + (l_1 - f_1) + (l_2 - f_2) <= f_1 \/ l_1 <= o)%nat ->
  (o + (l_1 - f_1) + (l_2 - f_2) <= f_2 \/ l_2 <= o)%nat ->
  ((l_1 - f_1) + (l_2 - f_2) <= fuel)%nat ->
  exists a',
    merge less fuel a f_1 l_1 f_2 l_2 o
    = Done (a', (o + (l_1 - f_1) + (l_2 - f_2))%nat) /\
    length a' = length a /\
    (forall pos, ~ (o <= pos < o + (l_1 - f_1) + (l_2 - f_2))%nat ->
       a' !! pos = a !! pos) /\
    span a' o (o + (l_1 - f_1) + (l_2 - f_2))
    = merge_lists less (span a f_1 l_1) (span a f_2 l_2).
Proof.
  intros H1 H2 Ho Hd1 Hd2 Hfuel. unfold merge.
  destruct (merge_heads_spec l_1 l_2 fuel a f_1 f_2 o H1 H2 Ho Hd1 Hd2 Hfuel)
    as (a1 & f_1' & f_2' & o1 & -> & Hr1 & Hr2 & Hend & Ho1 & Hlen1
        & Hframe1 & Hmerge).
  cbn [outcome_bind].
  destruct (merge_rest_spec l_1 fuel a1 f_1' o1)
    as (a2 & -> & Hlen2 & Hcopy2 & Hframe2); try lia.
  cbn [outcome_bind].
  destruct (merge_rest_spec l_2 fuel a2 f_2' (o1 + (l_1 - f_1')))
    as (a3 & -> & Hlen3 & Hcopy3 & Hframe3); try lia.
  set (o2 := (o1 + (l_1 - f_1'))%nat) in *.
  set (o3 := (o2 + (l_2 - f_2'))%nat) in *.
  assert (Ho3 : o3 = (o + (l_1 - f_1) + (l_2 - f_2))%nat)
    by (unfold o3, o2; lia).
  rewrite <- Ho3. exists a3. split; [reflexivity|].
  split; [lia|]. split.
  - intros pos Hpos. rewrite Hframe3, Hframe2, Hframe1 by lia. reflexivity.
  - rewrite Hmerge.
    rewrite (span_split a3 o o1 o3) by lia.
    rewrite (span_split a3 o1 o2 o3) by lia.
    assert (E1 : span a3 o o1 = span a1 o o1).
    { replace o1 with (o + (o1 - o))%nat by lia.
      apply span_same; [lia|lia|].
      intros k Hk. rewrite Hframe3, Hframe2 by lia. reflexivity. }
    assert (E2 : span a3 o1 o2 = span a f_1' l_1).
    { unfold o2. replace l_1 with (f_1' + (l_1 - f_1'))%nat at 2 by lia.
      apply span_same; [lia|lia|].
      intros k Hk. rewrite Hframe3, Hcopy2, Hframe1 by lia. reflexivity. }
    assert (E3 : span a3 o2 o3 = span a f_2' l_2).
    { unfold o3. replace l_2 with (f_2' + (l_2 - f_2'))%nat at 2 by lia.
      apply span_same; [lia|lia|].
      intros k Hk. rewrite Hcopy3, Hframe2, Hframe1 by lia. reflexivity. }
    rewrite E1, E2, E3. f_equal.
    destruct Hend as [-> | ->].
    + rewrite (span_empty a l_1 l_1) by lia. reflexivity.
    + rewrite (span_empty a l_2 l_2) by lia.
      rewrite merge_lists_nil_r, app_nil_r. reflexivity.
Qed.
End MergeProofs.

(** X9.  [merge] of two ranges into an output range that overlaps neither:
    it returns the output iterator advanced by the two lengths, the output
    range holds a permutation of the elements of the two ranges, and
    nothing outside the output range changes. *)
Theorem merge_permutes {T : Type} (less : T -> T -> bool) (fuel : nat)
    (a : list T) (f_1 l_1 f_2 l_2 o : nat) :
  (f_1 <= l_1 <= length a)%nat -> (f_2 <= l_2 <= length a)%nat ->
  (o + (l_1 - f_1) + (l_2 - f_2) <= length a)%nat ->
  (o + (l_1 - f_1) + (l_2 - f_2) <= f_1 \/ l_1 <= o)%nat ->
  (o + (l_1 - f_1) + (l_2 - f_2) <= f_2 \/ l_2 <= o)%nat ->
  ((l_1 - f_1) + (l_2 - f_2) <= fuel)%nat ->
  exists a',
    merge less fuel a f_1 l_1 f_2 l_2 o
    = Done (a', (o + (l_1 - f_1) + (l_2 - f_2))%nat) /\
    length a' = length a /\
    span a' o (o + (l_1 - f_1) + (l_2 - f_2))
    ≡ₚ span a f_1 l_1 ++ span a f_2 l_2 /\
    (forall pos, ~ (o <= pos < o + (l_1 - f_1) + (l_2 - f_2))%nat ->
       a' !! pos = a !! pos).
Proof.
  intros H1 H2 Ho Hd1 Hd2 Hfuel.
  destruct (merge_spec less fuel a f_1 l_1 f_2 l_2 o H1 H2 Ho Hd1 Hd2 Hfuel)
    as (a' & Hrun & Hlen & Hframe & Hout).
  exists a'. split; [exact Hrun|]. split; [exact Hlen|].
  split; [|exact Hframe]. rewrite Hout. apply merge_lists_perm.
Qed.

Lemma merge_permutes_witness :
  merge Z.ltb 5 [1; 4; 9; 2; 3; 0; 0; 0; 0; 0] 0 3 3 5 5
  = Done ([1; 4; 9; 2; 3; 1; 2; 3; 4; 9], 10%nat).
Proof.
  destruct (merge_permutes Z.ltb 5 [1; 4; 9; 2; 3; 0; 0; 0; 0; 0] 0 3 3 5 5)
    as (a' & Hrun & _); simpl; try lia.
  reflexivity.
Defined.

(** X10.  [merge] of two ranges in non-descending order of a strict weak
    order leaves the output range in non-descending order. *)
Theorem merge_sorted {T : Type} (less : T -> T -> bool) (fuel : nat)
    (a a' : list T) (f_1 l_1 f_2 l_2 o o' : nat) :
  StrictWeakOrder less ->
  (f_1 <= l_1 <= length a)%nat -> (f_2 <= l_2 <= length a)%nat ->
  (o + (l_1 - f_1) + (l_2 - f_2) <= length a)%nat ->
  (o + (l_1 - f_1) + (l_2 - f_2) <= f_1 \/ l_1 <= o)%nat ->
  (o + (l_1 - f_1) + (l_2 - f_2) <= f_2 \/ l_2 <= o)%nat ->
  ((l_1 - f_1) + (l_2 - f_2) <= fuel)%nat ->
  ascending less a f_1 l_1 -> ascending less a f_2 l_2 ->
  merge less fuel a f_1 l_1 f_2 l_2 o = Done (a', o') ->
  ascending less a' o o'.
Proof.
  intros Hswo H1 H2 Ho Hd1 Hd2 Hfuel Hs1 Hs2 Hrun.
  destruct (merge_spec less fuel a f_1 l_1 f_2 l_2 o H1 H2 Ho Hd1 Hd2 Hfuel)
    as (a1 & Hrun1 & Hlen & Hframe & Hout).
  rewrite Hrun in Hrun1. injection Hrun1 as <- ->.
  apply (ascending_span less); [lia|].
  rewrite Hout. apply (merge_lists_sorted less).
  - apply (ascending_span less a f_1 l_1); [lia|exact Hs1].
  - apply (ascending_span less a f_2 l_2); [lia|exact Hs2].
Qed.

Lemma merge_sorted_witness :
  ascending Z.ltb [1; 4; 9; 2; 3; 1; 2; 3; 4; 9] 5 10.
Proof.
  apply (merge_sorted Z.ltb 5 [1; 4; 9; 2; 3; 0; 0; 0; 0; 0]
           [1; 4; 9; 2; 3; 1; 2; 3; 4; 9] 0 3 3 5 5 10);
    try (simpl; lia).
  - exact Z_ltb_strict_weak_order.
  - apply (ascending_span Z.ltb); [simpl; lia|].
    vm_compute. repeat constructor.
  - apply (ascending_span Z.ltb); [simpl; lia|].
    vm_compute. repeat constructor.
  - reflexivity.
Defined.

(** X11.  Ties go to the second range: when no element of the first range
    is less than an element of the second, [merge] writes the second range
    and then the first (where [std::merge] would keep the first range
    first among equivalent elements). *)
Theorem merge_ties_second_first {T : Type} (less : T -> T -> bool)
    (fuel : nat) (a : list T) (f_1 l_1 f_2 l_2 o : nat) :
  (f_1 <= l_1 <= length a)%nat -> (f_2 <= l_2 <= length a)%nat ->
  (o + (l_1 - f_1) + (l_2 - f_2) <= length a)%nat ->
  (o + (l_1 - f_1) + (l_2 - f_2) <= f_1 \/ l_1 <= o)%nat ->
  (o + (l_1 - f_1) + (l_2 - f_2) <= f_2 \/ l_2 <= o)%nat ->
  ((l_1 - f_1) + (l_2 - f_2) <= fuel)%nat ->
  (forall x y, x ∈ span a f_1 l_1 -> y ∈ span a f_2 l_2 ->
     less x y = false) ->
  exists a',
    merge less fuel a f_1 l_1 f_2 l_2 o
    = Done (a', (o + (l_1 - f_1) + (l_2 - f_2))%nat) /\
    span a' o (o + (l_1 - f_1) + (l_2 - f_2))
    = span a f_2 l_2 ++ span a f_1 l_1.
Proof.
  intros H1 H2 Ho Hd1 Hd2 Hfuel Hties.
  destruct (merge_spec less fuel a f_1 l_1 f_2 l_2 o H1 H2 Ho Hd1 Hd2 Hfuel)
    as (a' & Hrun & Hlen & Hframe & Hout).
  exists a'. split; [exact Hrun|].
  rewrite Hout. apply merge_lists_ties, Hties.
Qed.

Lemma merge_ties_second_first_witness :
  merge (fun x y => fst x <? fst y) 4
    [(5, 1); (5, 2); (5, 3); (5, 4); (0, 0); (0, 0); (0, 0); (0, 0)]
    0 2 2 4 4
  = Done ([(5, 1); (5, 2); (5, 3); (5, 4);
           (5, 3); (5, 4); (5, 1); (5, 2)], 8%nat).
Proof.
  destruct (merge_ties_second_first (fun x y : Z * Z => fst x <? fst y) 4
              [(5, 1); (5, 2); (5, 3); (5, 4); (0, 0); (0, 0); (0, 0); (0, 0)]
              0 2 2 4 4)
    as (a' & Hrun & _); try (simpl; lia).
  - intros x y Hx Hy. vm_compute in Hx, Hy.
    apply list_elem_of_In in Hx, Hy. simpl in Hx, Hy.
    destruct Hx as [<-|[<-|[]]]; destruct Hy as [<-|[<-|[]]]; reflexivity.
  - reflexivity.
Defined.


(** ** [pow] *)

Section PowProofs.
Variable op : Z -> Z -> Z.
Hypothesis op_assoc : forall x y z, op x (op y z) = op (op x y) z.

Lemma op_power_add (a : Z) (j k : nat) :
  op_power op a (j + k + 1) = op (op_power op a j) (op_power op a k).
Proof.
  induction j as [|j IH].
  - replace (0 + k + 1)%nat with (S k) by lia. reflexivity.
  - replace (S j + k + 1)%nat with (S (j + k + 1)) by lia.
    cbn [op_power]. rewrite IH. apply op_assoc.
Qed.

Lemma op_power_square (a : Z) (k : nat) :
  op_power op (op a a) k = op_power op a (2 * k + 1).
Proof.
  induction k as [|k IH]; [reflexivity|].
  cbn [op_power]. rewrite IH.
  replace (2 * S k + 1)%nat with (1 + (2 * k + 1) + 1)%nat by lia.
  rewrite (op_power_add a 1 (2 * k + 1)). reflexivity.
Qed.

(** The first loop on a positive [n]: it strips the factors 2 of [n] and
    squares [a] for each. *)
Lemma pow_even_positive (fuel : nat) (a n : Z) :
  0 < n < 2 ^ Z.of_nat fuel ->
  exists a' n',
    pow_even fuel op a n = Done (a', n') /\
    0 < n' <= n /\ Z.rem n' 2 = 1 /\
    op_power op a (Z.to_nat (n - 1)) = op_power op a' (Z.to_nat (n' - 1)).
Proof.
  revert a n. induction fuel as [|fuel IH]; intros a n Hn.
  - simpl in Hn. lia.
  - cbn [pow_even]. destruct (Z.rem n 2 =? 0) eqn:E.
    + apply Z.eqb_eq in E.
      assert (Hq : n = 2 * Z.quot n 2)
        by (Z.to_euclidean_division_equations; lia).
      rewrite Nat2Z.inj_succ, Z.pow_succ_r in Hn by lia.
      destruct (IH (op a a) (Z.quot n 2)) as (a' & n' & Hrun & Hn' & Hodd & Hp);
        [lia|].
      exists a', n'. split; [exact Hrun|]. split; [lia|].
      split; [exact Hodd|]. rewrite <- Hp, op_power_square.
      f_equal. lia.
    + apply Z.eqb_neq in E. exists a, n. split.
      { destruct fuel; reflexivity. }
      split; [lia|]. split; [|reflexivity].
      Z.to_euclidean_division_equations; lia.
Qed.

Lemma pow_accum_positive (fuel : nat) (r a n : Z) :
  0 < n < 2 ^ Z.of_nat fuel ->
  pow_accum fuel op r a n
  = Done (op r (op_power op a (Z.to_nat (n - 1)))).
Proof.
  revert r a n. induction fuel as [|fuel IH]; intros r a n Hn.
  - simpl in Hn. lia.
  - cbn [pow_accum].
    rewrite Nat2Z.inj_succ, Z.pow_succ_r in Hn by lia.
    destruct (Z.rem n 2 =? 1) eqn:E.
    + apply Z.eqb_eq in E. destruct (n =? 1) eqn:E1.
      * apply Z.eqb_eq in E1. subst n. reflexivity.
      * apply Z.eqb_neq in E1.
        assert (Hq : n = 2 * Z.quot n 2 + 1)
          by (Z.to_euclidean_division_equations; lia).
        rewrite IH by lia. rewrite op_power_square. f_equal.
        rewrite <- op_assoc. f_equal.
        replace (Z.to_nat (n - 1))
          with (S (2 * Z.to_nat (Z.quot n 2 - 1) + 1)) by lia.
        reflexivity.
    + apply Z.eqb_neq in E.
      assert (Hq : n = 2 * Z.quot n 2)
        by (Z.to_euclidean_division_equations; lia).
      rewrite IH by lia. rewrite op_power_square. do 3 f_equal. lia.
Qed.

Lemma pow_positive_spec (fuel : nat) (a n : Z) :
  0 < n < 2 ^ Z.of_nat fuel ->
  pow fuel a n op = Done (op_power op a (Z.to_nat (n - 1))).
Proof.
  intros Hn. unfold pow. destruct (n =? 0) eqn:E0.
  { apply Z.eqb_eq in E0. lia. }
  destruct (pow_even_positive fuel a n Hn)
    as (a' & n' & -> & Hn' & Hodd & ->).
  cbn [outcome_bind].
  assert (Hq : n' = 2 * Z.quot n' 2 + 1)
    by (Z.to_euclidean_division_equations; lia).
  destruct (Z.quot n' 2 =? 0) eqn:E.
  - apply Z.eqb_eq in E. replace n' with 1 by lia. reflexivity.
  - apply Z.eqb_neq in E.
    rewrite pow_accum_positive by lia.
    rewrite op_power_square.
    replace (Z.to_nat (n' - 1))
      with (0 + (2 * Z.to_nat (Z.quot n' 2 - 1) + 1) + 1)%nat by lia.
    rewrite (op_power_add a' 0). reflexivity.
Qed.

(** On minus a power of two the first loop ends at [-1]. *)
Lemma pow_even_minus_pow2 (fuel j : nat) (a : Z) :
  (j <= fuel)%nat ->
  pow_even fuel op a (- 2 ^ Z.of_nat j)
  = Done (op_power op a (2 ^ j - 1), -1).
Proof.
  revert fuel a. induction j as [|j IH]; intros fuel a Hj.
  - change (- 2 ^ Z.of_nat 0) with (-1). destruct fuel; reflexivity.
  - destruct fuel as [|fuel]; [lia|].
    rewrite Nat2Z.inj_succ, Z.pow_succ_r by lia.
    cbn [pow_even].
    assert (Hpos : 0 < 2 ^ Z.of_nat j) by (apply Z.pow_pos_nonneg; lia).
    replace (Z.rem (- (2 * 2 ^ Z.of_nat j)) 2) with 0
      by (Z.to_euclidean_division_equations; lia).
    replace (Z.quot (- (2 * 2 ^ Z.of_nat j)) 2) with (- 2 ^ Z.of_nat j)
      by (Z.to_euclidean_division_equations; lia).
    change (0 =? 0) with true. cbv iota.
    rewrite IH by lia. rewrite op_power_square. do 2 f_equal.
    pose proof (Nat.pow_nonzero 2 j ltac:(lia)).
    rewrite Nat.pow_succ_r'. f_equal. lia.
Qed.
End PowProofs.

Lemma pow_accum_nonpositive (fuel : nat) (o : Z -> Z -> Z) (r a n : Z) :
  n <= 0 -> pow_accum fuel o r a n = Running.
Proof.
  revert r a n. induction fuel as [|fuel IH]; intros r a n Hn;
    [reflexivity|].
  cbn [pow_accum].
  replace (Z.rem n 2 =? 1) with false.
  - apply IH. Z.to_euclidean_division_equations; lia.
  - symmetry. apply Z.eqb_neq. Z.to_euclidean_division_equations; lia.
Qed.

Lemma pow_even_negative (fuel : nat) (op : Z -> Z -> Z) (a n : Z) :
  n < 0 ->
  pow_even fuel op a n = Running \/
  exists a' n' (i : nat),
    pow_even fuel op a n = Done (a', n') /\
    n' < 0 /\ Z.rem n' 2 <> 0 /\ n = n' * 2 ^ Z.of_nat i.
Proof.
  revert a n. induction fuel as [|fuel IH]; intros a n Hn.
  - simpl. destruct (Z.rem n 2 =? 0) eqn:E; [left; reflexivity|].
    apply Z.eqb_neq in E. right. exists a, n, 0%nat.
    split; [reflexivity|]. split; [exact Hn|]. split; [exact E|].
    simpl. lia.
  - cbn [pow_even]. destruct (Z.rem n 2 =? 0) eqn:E.
    + apply Z.eqb_eq in E.
      assert (Hq : n = 2 * Z.quot n 2)
        by (Z.to_euclidean_division_equations; lia).
      destruct (IH (op a a) (Z.quot n 2) ltac:(lia))
        as [Hrun|(a' & n' & i & Hrun & Hn' & Hodd & Hi)].
      * left. exact Hrun.
      * right. exists a', n', (S i). split; [exact Hrun|].
        split; [exact Hn'|]. split; [exact Hodd|].
        rewrite Nat2Z.inj_succ, Z.pow_succ_r by lia. lia.
    + apply Z.eqb_neq in E. right. exists a, n, 0%nat.
      split; [reflexivity|]. split; [exact Hn|]. split; [exact E|].
      simpl. lia.
Qed.

Lemma u32_mul_assoc (x y z : Z) :
  u32 (x * u32 (y * z)) = u32 (u32 (x * y) * z).
Proof.
  unfold u32. rewrite Z.mul_mod_idemp_r, Z.mul_mod_idemp_l by lia.
  f_equal. lia.
Qed.

Lemma op_power_u32_mul (a : Z) (k : nat) :
  is_u32 a ->
  op_power (fun x y => u32 (x * y)) a k = u32 (a ^ Z.of_nat (S k)).
Proof.
  intros Ha. induction k as [|k IH].
  - simpl. rewrite Z.pow_1_r. symmetry. apply Z.mod_small. exact Ha.
  - cbn [op_power]. rewrite IH.
    rewrite (Nat2Z.inj_succ (S k)), Z.pow_succ_r by lia.
    unfold u32. rewrite Z.mul_mod_idemp_r by lia. reflexivity.
Qed.

(** X12.  [pow] with an associative operation and an exponent [n >= 1]: it
    returns, within [fuel] iterations of each loop when [n < 2 ^ fuel],
    the result of [op] applied to [n] copies of [a]. *)
Theorem pow_positive_exponent (op : Z -> Z -> Z) (fuel : nat) (a n : Z) :
  (forall x y z, op x (op y z) = op (op x y) z) ->
  0 < n < 2 ^ Z.of_nat fuel ->
  pow fuel a n op = Done (op_power op a (Z.to_nat (n - 1))).
Proof. intros Hassoc Hn. apply pow_positive_spec; assumption. Qed.

Lemma pow_positive_exponent_witness :
  pow 4 3 5 Z.mul = Done 243.
Proof.
  apply (pow_positive_exponent Z.mul 4 3 5).
  - intros x y z. lia.
  - simpl. lia.
Defined.

(** X13.  [pow] at [T = unsigned int] with the default operation
    ([std::multiplies], the product modulo [2^32]): for every [a] and every
    exponent [n] it returns [a ^ n] modulo [2^32]. *)
Theorem pow_unsigned_int (a n : Z) :
  is_u32 a -> is_u32 n ->
  pow 32 a n (fun x y => u32 (x * y)) = Done (u32 (a ^ n)).
Proof.
  intros Ha Hn. destruct (decide (n = 0)) as [->|Hnz]; [reflexivity|].
  unfold is_u32 in Hn.
  rewrite (pow_positive_spec _ u32_mul_assoc) by (simpl; lia).
  rewrite op_power_u32_mul by exact Ha.
  do 3 f_equal. lia.
Qed.

Lemma pow_unsigned_int_witness :
  pow 32 65536 3 (fun x y => u32 (x * y)) = Done 0.
Proof.
  apply (pow_unsigned_int 65536 3); unfold is_u32; lia.
Defined.

(** X14.  [pow] with a negative exponent that is not minus a power of two
    never returns: the accumulation loop waits for [n % 2 == 1] with
    [n == 1], and [n] stays at or below 0. *)
Theorem pow_negative_exponent_never_returns (op : Z -> Z -> Z) (a n : Z) :
  n < 0 -> (forall j : nat, n <> - 2 ^ Z.of_nat j) ->
  forall fuel, pow fuel a n op = Running.
Proof.
  intros Hn Hnot fuel. unfold pow.
  destruct (n =? 0) eqn:E0; [apply Z.eqb_eq in E0; lia|].
  destruct (pow_even_negative fuel op a n Hn)
    as [->|(a' & n' & i & -> & Hn' & Hodd & Hi)]; [reflexivity|].
  cbn [outcome_bind].
  assert (Hne : n' <> -1).
  { intros ->. apply (Hnot i). lia. }
  destruct (Z.quot n' 2 =? 0) eqn:E.
  - apply Z.eqb_eq in E. exfalso.
    Z.to_euclidean_division_equations; lia.
  - apply pow_accum_nonpositive.
    Z.to_euclidean_division_equations; lia.
Qed.

Lemma pow_negative_exponent_never_returns_witness :
  pow 1000 2 (-3) Z.mul = Running.
Proof.
  apply (pow_negative_exponent_never_returns Z.mul 2 (-3)).
  - lia.
  - intros j Hj.
    destruct j as [|[|j]]; [simpl in Hj; lia|simpl in Hj; lia|].
    rewrite !Nat2Z.inj_succ, !Z.pow_succ_r in Hj by lia.
    pose proof (Z.pow_pos_nonneg 2 (Z.of_nat j) ltac:(lia) ltac:(lia)).
    lia.
Defined.

(** X15.  [pow] takes the exponent [-(2^j)] for [2^j]: with an associative
    operation it returns [op] applied to [2^j] copies of [a]. *)
Theorem pow_minus_power_of_two (op : Z -> Z -> Z) (fuel j : nat) (a : Z) :
  (forall x y z, op x (op y z) = op (op x y) z) ->
  (j <= fuel)%nat ->
  pow fuel a (- 2 ^ Z.of_nat j) op = Done (op_power op a (2 ^ j - 1)).
Proof.
  intros Hassoc Hj. unfold pow.
  assert (Hpos : 0 < 2 ^ Z.of_nat j) by (apply Z.pow_pos_nonneg; lia).
  destruct (- 2 ^ Z.of_nat j =? 0) eqn:E0; [apply Z.eqb_eq in E0; lia|].
  rewrite (pow_even_minus_pow2 op Hassoc fuel j a Hj).
  reflexivity.
Qed.

Lemma pow_minus_power_of_two_witness :
  pow 2 3 (-4) Z.mul = Done 81.
Proof.
  apply (pow_minus_power_of_two Z.mul 2 2 3).
  - intros x y z. lia.
  - lia.
Defined.

(** ** [max] and [min] for unsigned integers *)

(** X16.  [max] and [min] at [T = unsigned int] go through the signed
    [imax] and [imin]: they are the maximum and minimum when both arguments
    are on the same side of [2^31], and they are exchanged when one
    argument is below [2^31] and the other is not. *)
Theorem max_min_unsigned_compare_signed (x y : Z) :
  is_u32 x -> is_u32 y ->
  ((x < 2 ^ 31 <-> y < 2 ^ 31) ->
   max_unsigned x y = Z.max x y /\ min_unsigned x y = Z.min x y) /\
  (~ (x < 2 ^ 31 <-> y < 2 ^ 31) ->
   max_unsigned x y = Z.min x y /\ min_unsigned x y = Z.max x y).
Proof.
  unfold is_u32, max_unsigned, min_unsigned, imax, imin, to_int.
  intros Hx Hy.
  assert (Hback : forall z, 2 ^ 31 <= z < 2 ^ 32 -> u32 (z - 2 ^ 32) = z).
  { intros z Hz. unfold u32.
    replace (z - 2 ^ 32) with (z + (-1) * 2 ^ 32) by lia.
    rewrite Z.mod_add by lia. apply Z.mod_small. lia. }
  assert (Hkeep : forall z, 0 <= z < 2 ^ 31 -> u32 z = z).
  { intros z Hz. apply Z.mod_small. lia. }
  destruct (Z.ltb_spec x (2 ^ 31)) as [Hx1|Hx1];
    destruct (Z.ltb_spec y (2 ^ 31)) as [Hy1|Hy1];
    (split; [intros Hsame|intros Hdiff]);
    try (exfalso; apply Hdiff; split; intros; lia);
    try (exfalso; destruct Hsame as [Ha Hb];
         first [specialize (Ha Hx1) | specialize (Hb Hy1)]; lia).
  - split.
    + destruct (Z.max_spec x y) as [[? ->]|[? ->]]; apply Hkeep; lia.
    + destruct (Z.min_spec x y) as [[? ->]|[? ->]]; apply Hkeep; lia.
  - split.
    + rewrite Z.max_l by lia. rewrite Z.min_l by lia. apply Hkeep. lia.
    + rewrite Z.min_r by lia. rewrite Z.max_r by lia. apply Hback. lia.
  - split.
    + rewrite Z.max_r by lia. rewrite Z.min_r by lia. apply Hkeep. lia.
    + rewrite Z.min_l by lia. rewrite Z.max_l by lia. apply Hback. lia.
  - split.
    + destruct (Z.max_spec x y) as [[? E]|[? E]];
        destruct (Z.max_spec (x - 2 ^ 32) (y - 2 ^ 32)) as [[? ->]|[? ->]];
        rewrite E; try lia; apply Hback; lia.
    + destruct (Z.min_spec x y) as [[? E]|[? E]];
        destruct (Z.min_spec (x - 2 ^ 32) (y - 2 ^ 32)) as [[? ->]|[? ->]];
        rewrite E; try lia; apply Hback; lia.
Qed.

Lemma max_min_unsigned_compare_signed_witness :
  max_unsigned 1 4294967295 = 1 /\ min_unsigned 1 4294967295 = 4294967295.
Proof.
  destruct (max_min_unsigned_compare_signed 1 4294967295) as [_ H].
  - unfold is_u32. lia.
  - unfold is_u32. lia.
  - apply H. intros [H1 _]. lia.
Defined.

(** ** [serial_scan] and [serial_accumulate] *)

Lemma accumulate_loop_op_spec (op : Z -> Z -> Z) (a : list Z) (k f : nat)
    (init : Z) :
  (f + k <= length a)%nat ->
  accumulate_loop_op op a k f init
  = Some (fold_left op (slice a f (f + k)) init).
Proof.
  revert f init. induction k as [|k IH]; intros f init Hlen.
  - rewrite slice_nil by lia. reflexivity.
  - cbn [accumulate_loop_op].
    destruct (lookup_lt_is_Some_2 a f ltac:(lia)) as [x Hx].
    rewrite Hx. cbn [mbind option_bind]. rewrite IH by lia.
    rewrite (slice_cons a f (f + S k) x) by (lia || assumption).
    replace (S f + k)%nat with (f + S k)%nat by lia. reflexivity.
Qed.

Lemma serial_accumulate_op_spec (op : Z -> Z -> Z) (a : list Z) (f l : nat)
    (init : Z) :
  (l <= length a)%nat ->
  serial_accumulate_op a f l init op
  = Some (fold_left op (slice a f l) init).
Proof.
  intros Hl. unfold serial_accumulate_op. destruct (decide (l <= f)%nat).
  - rewrite slice_nil by lia. reflexivity.
  - rewrite accumulate_loop_op_spec by lia.
    replace (f + (l - f))%nat with l by lia. reflexivity.
Qed.

(** X17.  The scan is the running accumulation: after [serial_scan] on a
    non-empty range, the element at each position [i] of the range is what
    [serial_accumulate] returns on the original elements before [i],
    started from [T()]. *)
Theorem serial_scan_running_accumulate (wrap : Z -> Z) (a : list Z)
    (f l : nat) :
  IntegerType wrap ->
  (f < l <= length a)%nat ->
  exists a', serial_scan wrap a f l = Some (a', (l - 1)%nat) /\
    forall i, (f <= i < l)%nat ->
      a' !! i = serial_accumulate wrap a f i 0.
Proof.
  intros HT Hfl.
  destruct (serial_scan_spec wrap a f l Hfl) as (a' & Hrun & Hlen & Hlook).
  exists a'. split; [exact Hrun|]. intros i Hi.
  rewrite Hlook. destruct (decide (f <= i < l)%nat); [|lia].
  rewrite (serial_accumulate_spec wrap) by lia. reflexivity.
Qed.

Lemma serial_scan_running_accumulate_witness :
  exists a', serial_scan u32 [3; 1; 4; 1; 5] 0 5 = Some (a', 4%nat) /\
    a' !! 3%nat = serial_accumulate u32 [3; 1; 4; 1; 5] 0 3 0.
Proof.
  destruct (serial_scan_running_accumulate u32 [3; 1; 4; 1; 5] 0 5)
    as (a' & Hrun & Hacc).
  - exact u32_integer_type.
  - simpl. lia.
  - exists a'. split; [exact Hrun|]. apply Hacc. lia.
Defined.

(** X18.  The same for the overloads that take an operation: after
    [serial_scan(f, l, op)] the element at each position [i] of the range
    is what [serial_accumulate(f, i, res, op)] returns on the original
    elements, [res] being the value the accumulator of the scan started
    with; an empty or reversed range gives [init] back. *)
Theorem serial_scan_op_running_accumulate (op : Z -> Z -> Z) (uninit : Z)
    (a : list Z) (f l : nat) :
  (f < l <= length a)%nat ->
  (exists a', serial_scan_op uninit a f l op = Some (a', (l - 1)%nat) /\
     forall i, (f <= i < l)%nat ->
       a' !! i = serial_accumulate_op a f i uninit op) /\
  (forall i init, (i <= f)%nat ->
     serial_accumulate_op a f i init op = Some init).
Proof.
  intros Hfl. split.
  - unfold serial_scan_op. destruct (decide (l <= f)%nat); [lia|].
    destruct (scan_loop_op_spec op (l - f) f uninit a ltac:(lia))
      as (a' & -> & Hlen & Hlook).
    exists a'. split; [reflexivity|]. intros i Hi.
    rewrite Hlook. destruct (decide (f <= i < f + (l - f))%nat); [|lia].
    rewrite serial_accumulate_op_spec by lia. reflexivity.
  - intros i init Hi. unfold serial_accumulate_op.
    destruct (decide (i <= f)%nat); [reflexivity|lia].
Qed.

Lemma serial_scan_op_running_accumulate_witness :
  exists a', serial_scan_op 1 [3; 1; 4; 1; 5] 0 5 Z.mul = Some (a', 4%nat) /\
    a' !! 3%nat = serial_accumulate_op [3; 1; 4; 1; 5] 0 3 1 Z.mul.
Proof.
  destruct (serial_scan_op_running_accumulate Z.mul 1 [3; 1; 4; 1; 5] 0 5)
    as [(a' & Hrun & Hacc) _].
  - simpl. lia.
  - exists a'. split; [exact Hrun|]. apply Hacc. lia.
Defined.


(** * More on the tile helpers *)

(** A phase fails when one of its lanes fails in every state that the lanes
    before it can leave. *)
Lemma run_lanes_fails {S : Type} (body : nat -> S -> option S)
    (P : S -> Prop) (ts : list nat) (t : nat) (s : S) :
  In t ts -> P s ->
  (forall u s s', body u s = Some s' -> P s -> P s') ->
  (forall s, P s -> body t s = None) ->
  run_lanes body ts s = None.
Proof.
  intros Hin HP Hkeep Hfail. revert s HP.
  induction ts as [|u ts IH]; intros s HP; [destruct Hin|].
  cbn [run_lanes]. destruct (body u s) as [s1|] eqn:E; [|reflexivity].
  cbn [mbind option_bind]. destruct Hin as [->|Hin].
  - rewrite (Hfail s HP) in E. discriminate.
  - apply (IH Hin). apply (Hkeep u s s1 E HP).
Qed.

Section Lengths.
Variable wrap : Z -> Z.

Lemma row_walk_length (k i l : nat) (res : Z) (a a' : list Z) :
  row_walk wrap k i l res a = Some a' -> length a' = length a.
Proof.
  revert i res a. induction k as [|k IH]; intros i res a H; simpl in H.
  - congruence.
  - destruct (decide (i = l)); [congruence|].
    destruct (a !! i) as [x|]; [|discriminate]. simpl in H.
    rewrite (IH _ _ _ H). apply length_insert.
Qed.

Lemma scan_loop_length (k f : nat) (res : Z) (a a' : list Z) :
  scan_loop wrap k f res a = Some a' -> length a' = length a.
Proof.
  revert f res a. induction k as [|k IH]; intros f res a H; simpl in H.
  - congruence.
  - destruct (a !! f) as [x|]; [|discriminate]. simpl in H.
    rewrite (IH _ _ _ H). apply length_insert.
Qed.

Lemma reduce_rows_lengths (rows : nat) (r : region) (f l t : nat)
    (m m' : mem) :
  reduce_rows wrap rows r f l t m = Some m' ->
  forall r', length (m' r') = length (m r').
Proof.
  unfold reduce_rows. intros H r'.
  destruct (decide (t < rows)%nat); [|congruence].
  destruct (serial_accumulate _ _ _ _ _) as [s|]; [|discriminate].
  simpl in H. unfold mstore in H.
  destruct (decide _); [|discriminate]. injection H as <-.
  unfold mset. destruct (decide (r' = RowSums rows)) as [->|];
    [apply length_insert|reflexivity].
Qed.

Lemma scan_rows_lengths (rows : nat) (r : region) (f l t : nat)
    (m m' : mem) :
  scan_rows wrap rows r f l t m = Some m' ->
  forall r', length (m' r') = length (m r').
Proof.
  unfold scan_rows. intros H r'.
  destruct (decide (t < rows)%nat); [|congruence].
  destruct (m (RowSums rows) !! t) as [res|]; [|discriminate].
  simpl in H.
  destruct (row_walk _ _ _ _ _ _) as [a'|] eqn:E; [|discriminate].
  simpl in H. injection H as <-.
  unfold mset. destruct (decide (r' = r)) as [->|];
    [apply (row_walk_length _ _ _ _ _ _ E)|reflexivity].
Qed.

Lemma phase_lengths (body : nat -> mem -> option mem) (ts : list nat)
    (m m' : mem) :
  (forall t m m', body t m = Some m' ->
     forall r', length (m' r') = length (m r')) ->
  run_lanes body ts m = Some m' ->
  forall r', length (m' r') = length (m r').
Proof.
  intros Hbody Hrun.
  apply (run_lanes_preserve body
           (fun m1 => forall r', length (m1 r') = length (m r'))
           ts m m'); [|exact Hrun|reflexivity].
  intros t m1 m2 Hb H1 r'. rewrite (Hbody t m1 m2 Hb). apply H1.
Qed.

(** A lane whose row starts past the end of an array that ends at [l]:
    the walk of the row leaves the array. *)
Lemma scan_rows_overrun (tile_dim0 rows : nat) (r : region) (f l : nat)
    (m : mem) (t : nat) :
  (f <= l)%nat -> length (m r) = l ->
  (t < rows)%nat -> (t < tile_dim0)%nat ->
  (l < f + t * cols rows f l)%nat ->
  run_lanes (scan_rows wrap rows r f l) (seq 0 tile_dim0) m = None.
Proof.
  intros Hfl Hlen Ht Htd Hpast.
  apply (run_lanes_fails _ (fun m1 => length (m1 r) = l) _ t).
  - apply in_seq. lia.
  - exact Hlen.
  - intros u m1 m2 Hb H1. rewrite (scan_rows_lengths _ _ _ _ _ _ _ Hb).
    exact H1.
  - intros m1 H1. unfold scan_rows.
    destruct (decide (t < rows)%nat); [|lia].
    destruct (m1 (RowSums rows) !! t) as [res|]; [|reflexivity].
    cbn [mbind option_bind].
    destruct (cols rows f l) as [|c]; [lia|].
    cbn [row_walk]. destruct (decide _); [lia|].
    rewrite (lookup_ge_None_2 (m1 r)) by lia. reflexivity.
Qed.

Lemma scan_sums_overrun (tile_dim0 : nat) (r : region) (f l : nat)
    (m : mem) :
  (f <= l)%nat -> length (m r) = l -> (7 < tile_dim0)%nat ->
  (l < f + 7 * cols 8 f l)%nat ->
  scan_sums wrap tile_dim0 r f l m = None.
Proof.
  intros Hfl Hlen Htd Hpast. unfold scan_sums, lanes.
  destruct (run_lanes (reduce_rows wrap 8 r f l) _ m) as [m1|] eqn:E1;
    [|reflexivity].
  cbn [mbind option_bind].
  pose proof (phase_lengths _ _ _ _ (reduce_rows_lengths 8 r f l) E1) as H1.
  match goal with
  | |- context [run_lanes ?body (seq 0 tile_dim0) m1] => set (B := body)
  end.
  assert (HB : forall t m3 m4, B t m3 = Some m4 ->
            forall r', length (m4 r') = length (m3 r')).
  { intros t m3 m4 Hb r'. unfold B in Hb.
    destruct (decide (t = 0)%nat); [|congruence].
    destruct (serial_scan wrap (m3 (RowSums 8)) 0 8) as [[a' k]|] eqn:Es;
      [|discriminate].
    simpl in Hb. injection Hb as <-. unfold mset.
    destruct (decide (r' = RowSums 8)) as [->|]; [|reflexivity].
    unfold serial_scan in Es. destruct (decide _); [lia|].
    destruct (scan_loop _ _ _ _ _) as [a1|] eqn:El; [|discriminate].
    simpl in Es. injection Es as <- _.
    apply (scan_loop_length _ _ _ _ _ El). }
  destruct (run_lanes B (seq 0 tile_dim0) m1) as [m2|] eqn:E2;
    [|reflexivity].
  pose proof (phase_lengths B _ _ _ HB E2) as H2.
  cbn [mbind option_bind].
  apply (scan_rows_overrun tile_dim0 8 r f l m2 7); try lia.
  rewrite H2, H1. exact Hlen.
Qed.
End Lengths.

Lemma cols_value (rows f l : nat) :
  (0 < rows)%nat -> (f <= l)%nat -> Z.of_nat (l - f) < 2 ^ 32 ->
  cols rows f l
  = if Nat.odd ((l - f) / rows) then ((l - f) / rows)%nat
    else ((l - f) / rows + 1)%nat.
Proof.
  intros Hrows Hfl Hsmall. unfold cols.
  replace (Z.of_nat l - Z.of_nat f) with (Z.of_nat (l - f)) by lia.
  rewrite u32_small by (unfold is_u32; lia).
  set (n := (l - f)%nat) in *.
  assert (Hq : Z.of_nat n / Z.of_nat rows = Z.of_nat (n / rows))
    by (symmetry; apply Nat2Z.inj_div).
  destruct (Nat.odd (n / rows)) eqn:E.
  - apply Nat.odd_spec in E as [k Hk].
    rewrite padded_cols_of_odd_quotient.
    + rewrite Hq. apply Nat2Z.id.
    + rewrite Hq, Hk.
      replace (Z.of_nat (2 * k + 1)) with (1 + Z.of_nat k * 2) by lia.
      rewrite Z.mod_add by lia. reflexivity.
  - rewrite <- Nat.negb_even in E. apply negb_false_iff in E.
    apply Nat.even_spec in E as [k Hk].
    rewrite padded_cols_of_even_quotient.
    + rewrite Hq. lia.
    + unfold is_u32. lia.
    + lia.
    + rewrite Hq, Hk.
      replace (Z.of_nat (2 * k)) with (0 + Z.of_nat k * 2) by lia.
      rewrite Z.mod_add by lia. reflexivity.
Qed.

Lemma scan_rows_count_bound (tile_dim0 : nat) :
  (scan_rows_count tile_dim0 <= tile_dim0)%nat.
Proof. unfold scan_rows_count. destruct (decide _); lia. Qed.

Section ReduceFrame.
Variable wrap : Z -> Z.
Variable tile_dim0 : nat.
Hypothesis tile_dim_pos : (0 < tile_dim0)%nat.

Lemma reduce_rounds_frame (m : positive) (l : nat) (a : list Z) :
  (2 * Pos.to_nat m <= l <= length a)%nat ->
  exists a', reduce_rounds wrap tile_dim0 m l a = Some a' /\
    length a' = length a /\
    forall j, ~ (l - Pos.to_nat m <= j < l)%nat -> a' !! j = a !! j.
Proof.
  revert a.
  induction m as [m IH|m IH|]; intros a Hl; cbn [reduce_rounds];
    unfold lanes.
  - destruct (reduce_round_spec wrap tile_dim0 tile_dim_pos a l
                (Pos.to_nat m~1) Hl) as (a1 & -> & Hlen & _ & Hout).
    cbn [mbind option_bind].
    destruct (IH a1 ltac:(lia)) as (a' & -> & Hlen' & Hout').
    exists a'. split; [reflexivity|]. split; [lia|].
    intros j Hj. rewrite Hout' by lia. apply Hout. exact Hj.
  - destruct (reduce_round_spec wrap tile_dim0 tile_dim_pos a l
                (Pos.to_nat m~0) Hl) as (a1 & -> & Hlen & _ & Hout).
    cbn [mbind option_bind].
    destruct (IH a1 ltac:(lia)) as (a' & -> & Hlen' & Hout').
    exists a'. split; [reflexivity|]. split; [lia|].
    intros j Hj. rewrite Hout' by lia. apply Hout. exact Hj.
  - destruct (reduce_round_spec wrap tile_dim0 tile_dim_pos a l
                (Pos.to_nat 1) Hl) as (a1 & -> & Hlen & _ & Hout).
    cbn [mbind option_bind].
    exists a1. split; [reflexivity|]. split; [exact Hlen|exact Hout].
Qed.
End ReduceFrame.

(** X19.  [reduce] on a non-empty range of any length: it returns the last
    position, and it writes only to the upper half of the range (the last
    [(l - f) / 2] positions); the lower half and everything outside the
    range keep their contents. *)
Theorem reduce_writes_upper_half (wrap : Z -> Z) (tile_dim0 : nat)
    (a : list Z) (f l : nat) :
  (0 < tile_dim0)%nat -> (f < l <= length a)%nat ->
  exists a', reduce wrap tile_dim0 a f l = Some (a', (l - 1)%nat) /\
    length a' = length a /\
    forall j, ~ (l - (l - f) / 2 <= j < l)%nat -> a' !! j = a !! j.
Proof.
  intros Htd Hfl. unfold reduce. destruct (decide (l <= f)%nat); [lia|].
  pose proof (Nat.div_mod_eq (l - f) 2) as E.
  pose proof (Nat.mod_upper_bound (l - f) 2 ltac:(lia)) as B.
  destruct (N.of_nat ((l - f) / 2)) as [|m] eqn:Em.
  - exists a. split; [reflexivity|]. split; reflexivity.
  - assert (Hm : Pos.to_nat m = ((l - f) / 2)%nat) by lia.
    destruct (reduce_rounds_frame wrap tile_dim0 Htd m l a ltac:(lia))
      as (a' & -> & Hlen & Hout).
    cbn [mbind option_bind]. exists a'. split; [reflexivity|].
    split; [exact Hlen|]. intros j Hj. apply Hout. lia.
Qed.

Lemma reduce_writes_upper_half_witness :
  exists a', reduce (fun z => z) 4 [9; 1; 2; 3; 4; 5; 6; 9] 1 7
             = Some (a', 6%nat) /\
    a' !! 2%nat = Some 2.
Proof.
  destruct (reduce_writes_upper_half (fun z => z) 4
              [9; 1; 2; 3; 4; 5; 6; 9] 1 7)
    as (a' & Hrun & _ & Hout).
  - lia.
  - simpl. lia.
  - exists a'. split; [exact Hrun|].
    rewrite Hout; [reflexivity|]. simpl. lia.
Defined.

(** X20.  [reduce_rows] with at least [rows] lanes: it does not change the
    data, and it leaves in each entry [t] of the row sums the sum of the
    elements of row [t] of the view that lie before [l]; a row that starts
    at or past [l] gives [T()]. *)
Theorem reduce_rows_row_sums (wrap : Z -> Z) (tile_dim0 rows name : nat)
    (f l : nat) (m : mem) :
  IntegerType wrap ->
  (rows <= tile_dim0)%nat -> (l <= length (m (Buf name)))%nat ->
  length (m (RowSums rows)) = rows ->
  exists m',
    run_lanes (reduce_rows wrap rows (Buf name) f l) (lanes tile_dim0) m
    = Some m' /\
    m' (Buf name) = m (Buf name) /\
    (forall t, (t < rows)%nat ->
       m' (RowSums rows) !! t
       = Some (wrap (sumZ (slice (m (Buf name))
                             (f + t * cols rows f l)
                             (Nat.min (f + t * cols rows f l
                                       + cols rows f l) l))))) /\
    (forall t, (t < rows)%nat -> (l <= f + t * cols rows f l)%nat ->
       m' (RowSums rows) !! t = Some 0).
Proof.
  intros HT Hrows Hl Hlen.
  destruct (reduce_rows_phase wrap tile_dim0 rows (Buf name) f l m)
    as (m' & Hrun & Hfr & Hlen' & Hsums); [congruence|exact Hl|exact Hlen|].
  exists m'. split; [exact Hrun|]. split; [apply Hfr; congruence|].
  assert (Hrow : forall t, (t < rows)%nat ->
            m' (RowSums rows) !! t
            = Some (wrap (sumZ (slice (m (Buf name))
                                  (f + t * cols rows f l)
                                  (Nat.min (f + t * cols rows f l
                                            + cols rows f l) l))))).
  { intros t Ht. rewrite Hsums.
    destruct (decide (t < Nat.min rows tile_dim0)%nat); [|lia].
    reflexivity. }
  split; [exact Hrow|].
  intros t Ht Hpast. rewrite (Hrow t Ht).
  rewrite slice_nil by lia. simpl. rewrite wrap_0. reflexivity.
Qed.

Lemma reduce_rows_row_sums_witness :
  exists m',
    run_lanes (reduce_rows (fun z => z) 4 (Buf 0) 0 8) (lanes 4)
      (fun r => match r with
                | Buf _ => [1; 2; 3; 4; 5; 6; 7; 8]
                | RowSums sz => replicate sz 0
                end)
    = Some m' /\
    m' (RowSums 4) !! 1%nat = Some 15.
Proof.
  destruct (reduce_rows_row_sums (fun z => z) 4 4 0 0 8
              (fun r => match r with
                        | Buf _ => [1; 2; 3; 4; 5; 6; 7; 8]
                        | RowSums sz => replicate sz 0
                        end))
    as (m' & Hrun & _ & Hsum & _).
  - split; reflexivity.
  - lia.
  - simpl. lia.
  - reflexivity.
  - exists m'. split; [exact Hrun|]. rewrite Hsum by lia. reflexivity.
Defined.

(** X21.  [scan_sums] on a non-empty range that its view of eight rows
    tiles: it leaves the exclusive prefix sums in the range, keeps the
    length of the array, and changes no other array than its eight row
    sums. *)
Theorem scan_sums_prefix_sums (wrap : Z -> Z) (tile_dim0 : nat)
    (r : region) (f l : nat) (m : mem) :
  IntegerType wrap ->
  (0 < tile_dim0)%nat -> r <> RowSums 8 ->
  (f < l <= length (m r))%nat -> length (m (RowSums 8)) = 8%nat ->
  covers (Nat.min 8 tile_dim0) (cols 8 f l) (l - f) ->
  exists m', scan_sums wrap tile_dim0 r f l m = Some m' /\
    (forall r', r' <> r -> r' <> RowSums 8 -> m' r' = m r') /\
    length (m' r) = length (m r) /\
    (forall j, (f <= j < l)%nat ->
       m' r !! j = Some (wrap (sumZ (slice (m r) f j)))) /\
    (forall j, ~ (f <= j < l)%nat -> m' r !! j = m r !! j).
Proof.
  intros HT Htd Hne Hfl Hlen Hcov.
  destruct (scan_sums_spec wrap tile_dim0 Htd r f l m Hne Hfl Hlen Hcov)
    as (m' & Hrun & Hfr & Hlen' & _ & Hlook).
  exists m'. split; [exact Hrun|]. split; [exact Hfr|].
  split; [exact Hlen'|]. split.
  - intros j Hj. rewrite Hlook. destruct (decide _); [reflexivity|lia].
  - intros j Hj. rewrite Hlook. destruct (decide _); [lia|reflexivity].
Qed.

Lemma scan_sums_prefix_sums_witness :
  exists m',
    scan_sums (fun z => z) 8 (Buf 0) 0 8
      (fun r => match r with
                | Buf _ => [3; 1; 4; 1; 5; 9; 2; 6]
                | RowSums sz => replicate sz 0
                end)
    = Some m' /\
    m' (Buf 0) !! 7%nat = Some 25.
Proof.
  destruct (scan_sums_prefix_sums (fun z => z) 8 (Buf 0) 0 8
              (fun r => match r with
                        | Buf _ => [3; 1; 4; 1; 5; 9; 2; 6]
                        | RowSums sz => replicate sz 0
                        end))
    as (m' & Hrun & _ & _ & Hsum & _).
  - split; reflexivity.
  - lia.
  - discriminate.
  - simpl. lia.
  - reflexivity.
  - vm_compute. lia.
  - exists m'. split; [exact Hrun|]. rewrite Hsum by lia. reflexivity.
Defined.

(** X22.  [scan] with 64 lanes or more is right on the lengths
    [n = 64 * q + r] with [q] odd and [r = 0], or [q] even and
    [q + r >= 63] (as 63 and 64, the case of [partition]): every position
    of the range then holds the exclusive prefix sum and nothing else
    changes in the array. *)
Theorem scan_wide_tile (wrap : Z -> Z) (tile_dim0 name f l : nat)
    (m : mem) :
  IntegerType wrap ->
  (64 <= tile_dim0)%nat -> (f < l <= length (m (Buf name)))%nat ->
  Z.of_nat (l - f) < 2 ^ 32 ->
  length (m (RowSums 64)) = 64%nat -> length (m (RowSums 8)) = 8%nat ->
  (Nat.odd ((l - f) / 64) = true /\ ((l - f) mod 64 = 0)%nat) \/
  (Nat.odd ((l - f) / 64) = false /\
   (63 <= (l - f) / 64 + (l - f) mod 64)%nat) ->
  exists m', scan wrap tile_dim0 (Buf name) f l m = Some (m', (l - 1)%nat) /\
    (forall j, (f <= j < l)%nat ->
       m' (Buf name) !! j = Some (wrap (sumZ (slice (m (Buf name)) f j)))) /\
    (forall j, ~ (f <= j < l)%nat -> m' (Buf name) !! j = m (Buf name) !! j).
Proof.
  intros HT Htd Hfl Hsmall H64 H8 Hshape.
  assert (Hrows : scan_rows_count tile_dim0 = 64%nat).
  { unfold scan_rows_count. destruct (decide _); [lia|reflexivity]. }
  pose proof (Nat.div_mod_eq (l - f) 64) as E.
  pose proof (Nat.mod_upper_bound (l - f) 64 ltac:(lia)) as B.
  destruct (scan_spec wrap tile_dim0 ltac:(lia) name f l m)
    as (m' & Hrun & _ & _ & Hlook).
  - exact Hfl.
  - rewrite Hrows. exact H64.
  - exact H8.
  - rewrite Hrows. unfold covers.
    rewrite (cols_value 64 f l) by lia.
    destruct Hshape as [[Hodd Hr]|[Heven Hqr]].
    + rewrite Hodd.
      assert ((l - f) / 64 <> 0)%nat
        by (intros Hz; rewrite Hz in Hodd; discriminate).
      lia.
    + rewrite Heven. lia.
  - rewrite Hrows. rewrite Nat.min_l by lia. vm_compute. lia.
  - exists m'. split; [exact Hrun|]. split.
    + intros j Hj. rewrite Hlook. destruct (decide _); [reflexivity|lia].
    + intros j Hj. rewrite Hlook. destruct (decide _); [lia|reflexivity].
Qed.

Lemma scan_wide_tile_witness :
  exists m',
    scan u32 64 (Buf 0) 0 63
      (fun r => match r with
                | Buf _ => replicate 63 1
                | RowSums sz => replicate sz 0
                end)
    = Some (m', 62%nat) /\
    m' (Buf 0) !! 62%nat = Some 62.
Proof.
  destruct (scan_wide_tile u32 64 0 0 63
              (fun r => match r with
                        | Buf _ => replicate 63 1
                        | RowSums sz => replicate sz 0
                        end))
    as (m' & Hrun & Hsum & _).
  - exact u32_integer_type.
  - lia.
  - simpl. lia.
  - simpl. lia.
  - reflexivity.
  - reflexivity.
  - right. split; [reflexivity|]. vm_compute. lia.
  - exists m'. split; [exact Hrun|]. rewrite Hsum by lia. reflexivity.
Defined.

(** X23.  When the last row of the view of [scan] starts past the end of
    the range (as for 16 elements and 8 lanes, or 8 elements and 64 lanes),
    the walk of that row is not stopped by [i != l]: on an array that ends
    at [l], [scan] reads and writes past its end. *)
Theorem scan_row_past_end (wrap : Z -> Z) (tile_dim0 name f l : nat)
    (m : mem) :
  (f < l)%nat -> length (m (Buf name)) = l ->
  (l - f < (scan_rows_count tile_dim0 - 1)
           * cols (scan_rows_count tile_dim0) f l)%nat ->
  scan wrap tile_dim0 (Buf name) f l m = None.
Proof.
  intros Hfl Hlen Hpast. unfold scan.
  destruct (decide (l <= f)%nat); [lia|]. cbv zeta.
  set (rows := scan_rows_count tile_dim0) in *.
  pose proof (scan_rows_count_bound tile_dim0) as Hb. fold rows in Hb.
  unfold lanes.
  destruct (run_lanes (reduce_rows wrap rows (Buf name) f l) _ m)
    as [m1|] eqn:E1; [|reflexivity].
  cbn [mbind option_bind].
  pose proof (phase_lengths _ _ _ _
                (reduce_rows_lengths wrap rows (Buf name) f l) E1) as H1.
  destruct (scan_sums wrap tile_dim0 (RowSums rows) 0 rows m1)
    as [m2|] eqn:E2; [|reflexivity].
  cbn [mbind option_bind].
  assert (H2 : length (m2 (Buf name)) = l).
  { rewrite <- Hlen, <- H1. unfold scan_sums, lanes in E2.
    destruct (run_lanes (reduce_rows wrap 8 _ _ _) _ m1) as [ma|] eqn:Ea;
      [|discriminate].
    cbn [mbind option_bind] in E2.
    match type of E2 with
    | context [run_lanes ?body (seq 0 tile_dim0) ma] =>
        destruct (run_lanes body (seq 0 tile_dim0) ma) as [mb|] eqn:Eb;
          [|discriminate];
        assert (Hmb : mb (Buf name) = ma (Buf name))
    end.
    { apply (run_lanes_preserve _
               (fun m3 => m3 (Buf name) = ma (Buf name)) _ _ _)
        in Eb; [exact Eb| |reflexivity].
      intros t m3 m4 Hbody H3.
      destruct (decide (t = 0)%nat); [|congruence].
      destruct (serial_scan _ _ _ _) as [[a' k]|]; [|discriminate].
      simpl in Hbody. injection Hbody as <-.
      rewrite mset_ne by congruence. exact H3. }
    cbn [mbind option_bind] in E2.
    rewrite (phase_lengths _ _ _ _
               (scan_rows_lengths wrap 8 (RowSums rows) 0 rows) E2).
    rewrite Hmb.
    apply (phase_lengths _ _ _ _
             (reduce_rows_lengths wrap 8 (RowSums rows) 0 rows) Ea). }
  rewrite (scan_rows_overrun wrap tile_dim0 rows (Buf name) f l m2
             (rows - 1)); [reflexivity|lia|exact H2|lia|lia|lia].
Qed.

Lemma scan_row_past_end_witness :
  scan (fun z => z) 8 (Buf 0) 0 16
    (fun r => match r with
              | Buf _ => replicate 16 1
              | RowSums sz => replicate sz 0
              end)
  = None.
Proof.
  apply (scan_row_past_end (fun z => z) 8 0 0 16).
  - lia.
  - reflexivity.
  - vm_compute. lia.
Defined.

(** X24.  With a group of 16 to 20, 32 to 34, or 48 lanes, [scan] is
    undefined on every non-empty range: the view of eight rows that
    [scan_sums] lays over the row sums has its last row start past their
    end, and the walk of that row leaves the [tile_static] array. *)
Theorem scan_group_sizes_undefined (wrap : Z -> Z) (tile_dim0 name f l : nat)
    (m : mem) :
  In tile_dim0 [16; 17; 18; 19; 20; 32; 33; 34; 48]%nat ->
  (f < l)%nat -> length (m (RowSums tile_dim0)) = tile_dim0 ->
  scan wrap tile_dim0 (Buf name) f l m = None.
Proof.
  intros Hin Hfl Hlen.
  assert (Hrows : scan_rows_count tile_dim0 = tile_dim0 /\
                  (7 < tile_dim0)%nat /\
                  (tile_dim0 < 0 + 7 * cols 8 0 tile_dim0)%nat).
  { simpl in Hin.
    repeat (destruct Hin as [<-|Hin]; [vm_compute; lia|]).
    destruct Hin. }
  destruct Hrows as (Hrows & Htd & Hpast).
  unfold scan. destruct (decide (l <= f)%nat); [lia|]. cbv zeta.
  rewrite Hrows. unfold lanes.
  destruct (run_lanes (reduce_rows wrap tile_dim0 (Buf name) f l) _ m)
    as [m1|] eqn:E1; [|reflexivity].
  cbn [mbind option_bind].
  pose proof (phase_lengths _ _ _ _
                (reduce_rows_lengths wrap tile_dim0 (Buf name) f l) E1)
    as H1.
  rewrite (scan_sums_overrun wrap tile_dim0 (RowSums tile_dim0)
             0 tile_dim0 m1); [reflexivity|lia| |exact Htd|exact Hpast].
  rewrite H1. exact Hlen.
Qed.

Lemma scan_group_sizes_undefined_witness :
  scan u32 16 (Buf 0) 0 16
    (fun r => match r with
              | Buf _ => replicate 16 1
              | RowSums sz => replicate sz 0
              end)
  = None.
Proof.
  apply (scan_group_sizes_undefined u32 16 0 0 16).
  - simpl. tauto.
  - lia.
  - reflexivity.
Defined.


(** * More on [partition] *)

Lemma run_lanes_preserve_in {S : Type} (body : nat -> S -> option S)
    (P : S -> Prop) (ts : list nat) (s s' : S) :
  (forall t s s', In t ts -> body t s = Some s' -> P s -> P s') ->
  run_lanes body ts s = Some s' -> P s -> P s'.
Proof.
  revert s. induction ts as [|t ts IH]; intros s Hb Hrun HP; simpl in *.
  - congruence.
  - destruct (body t s) as [s1|] eqn:E; [|discriminate]. simpl in Hrun.
    apply (IH s1); [|exact Hrun|].
    + intros u s2 s3 Hu. apply Hb. right. exact Hu.
    + apply (Hb t s s1); [left; reflexivity|exact E|exact HP].
Qed.

Section Values.
Context {A : Type}.
Variable p : A -> bool.
Variable dflt : A.
Variable cas : Z -> Z -> Z -> bool * Z * Z.
Variable junk : region -> nat -> Z.

(** A valid lane of a tile loads the element of the sequence at its
    global position. *)
Lemma load_tmp_valid (rg : list A) (g t : nat) :
  (t < SIMD_w)%nat -> lane_valid (length rg) g t = true ->
  rg !! (g * SIMD_w + t)%nat = Some (nth t (load_tmp dflt rg g) dflt).
Proof.
  intros Ht Hv. unfold load_tmp.
  rewrite (nth_indep _ dflt
             ((fun t => if lane_valid (length rg) g t
                        then nth (g * SIMD_w + t) rg dflt else dflt) 0%nat))
    by (rewrite length_map, length_seq; exact Ht).
  rewrite (map_nth (fun t => if lane_valid (length rg) g t
                             then nth (g * SIMD_w + t) rg dflt else dflt)).
  rewrite seq_nth by exact Ht. simpl. rewrite Hv.
  unfold lane_valid in Hv. apply bool_decide_eq_true in Hv.
  destruct (lookup_lt_is_Some_2 rg (g * SIMD_w + t) Hv) as [x Hx].
  rewrite (nth_lookup_Some rg _ dflt x Hx). exact Hx.
Qed.

Variable P : A -> Prop.

Lemma write_run_forall (n g : nat) (tmp : list A) (sel : A -> bool)
    (base : Z) (offs : list Z) (rg rg' : list A) :
  (forall t, (t < SIMD_w)%nat -> lane_valid n g t = true ->
     P (nth t tmp dflt)) ->
  write_run dflt n g tmp sel base offs rg = Some rg' ->
  Forall P rg -> Forall P rg'.
Proof.
  intros Htmp Hrun Hall. unfold write_run in Hrun.
  apply (run_lanes_preserve_in _ (Forall P) _ _ _) with (2 := Hrun);
    [|exact Hall].
  intros t x x' Ht Hb Hx. apply in_seq in Ht. unfold write_lane in Hb.
  destruct (lane_valid n g t) eqn:Hv; [|simpl in Hb; congruence].
  destruct (sel (nth t tmp dflt)); [|simpl in Hb; congruence].
  simpl in Hb. destruct (offs !! t); [|discriminate]. simpl in Hb.
  destruct (decide _); [|discriminate]. injection Hb as <-.
  apply Forall_insert; [exact Hx|]. apply Htmp; [lia|exact Hv].
Qed.

Lemma step_values_ok (n : nat) (s s' : state (A := A)) (g : nat) :
  step p dflt cas junk s g = Some s' ->
  values_ok P dflt n s -> values_ok P dflt n s'.
Proof.
  intros Hstep (Hlen & Hall & Htmp). unfold step in Hstep.
  destruct (tiles s !! g) as [tl|] eqn:Hg.
  2:{ injection Hstep as <-. split; [exact Hlen|]. split; assumption. }
  assert (Hupd : forall (rg' : list A) (bl : list Z) (x y : Z) (tl' : tile),
            t_pc tl <> PcLoad -> t_tmp tl' = t_tmp tl ->
            length rg' = n -> Forall P rg' ->
            values_ok P dflt n (State rg' bl x y (<[g := tl']> (tiles s)))).
  { intros rg' bl x y tl' Hpc Htl' Hlen' Hall'.
    split; [exact Hlen'|]. split; [exact Hall'|].
    intros g0 tl0 t Hg0 Hpc0 Ht Hv. simpl in Hg0.
    apply lookup_insert_cases in Hg0 as [[-> ->]|[Hne Hg0]].
    - rewrite Htl'. apply (Htmp g tl t Hg Hpc Ht Hv).
    - apply (Htmp g0 tl0 t Hg0 Hpc0 Ht Hv). }
  unfold step_tile in Hstep. destruct (t_pc tl) eqn:Hpc.
  - injection Hstep as <-. unfold put_tile.
    split; [exact Hlen|]. split; [exact Hall|].
    intros g0 tl0 t Hg0 Hpc0 Ht Hv. simpl in Hg0.
    apply lookup_insert_cases in Hg0 as [[-> ->]|[Hne Hg0]].
    + simpl. rewrite <- Hlen in Hv.
      pose proof (load_tmp_valid (range s) g t Ht Hv) as Hx.
      rewrite Forall_lookup in Hall. apply (Hall _ _ Hx).
    + apply (Htmp g0 tl0 t Hg0 Hpc0 Ht Hv).
  - destruct (release_block _ _) as [bl|]; [|discriminate].
    injection Hstep as <-. apply Hupd; (discriminate || assumption
                                        || reflexivity).
  - destruct (tile_scans _ _ _ _ _ _) as [[pt pf]|]; [|discriminate].
    simpl in Hstep.
    destruct (tile_offsets _ _ _ _ _ _ _) as [[to fo]|]; [|discriminate].
    injection Hstep as <-. apply Hupd; (discriminate || assumption
                                        || reflexivity).
  - injection Hstep as <-. apply Hupd; (discriminate || assumption
                                        || reflexivity).
  - destruct (try_acquire _ _ _ _) as [[[ok bl] e]|]; [|discriminate].
    injection Hstep as <-. apply Hupd; (discriminate || assumption
                                        || reflexivity).
  - destruct (write_run _ _ _ _ _ _ _ _) as [rg'|] eqn:Ew; [|discriminate].
    injection Hstep as <-. apply Hupd; try (discriminate || reflexivity).
    + rewrite (write_run_length dflt _ _ _ _ _ _ _ _ Ew). exact Hlen.
    + apply (write_run_forall _ _ _ _ _ _ _ _ ) with (2 := Ew);
        [|exact Hall].
      intros t Ht Hv. rewrite Hlen in Hv.
      apply (Htmp g tl t Hg); [rewrite Hpc; discriminate|exact Ht|exact Hv].
  - destruct (release_block _ _) as [bl|]; [|discriminate].
    injection Hstep as <-. apply Hupd; (discriminate || assumption
                                        || reflexivity).
  - destruct (try_acquire _ _ _ _) as [[[ok bl] e]|]; [|discriminate].
    injection Hstep as <-. apply Hupd; (discriminate || assumption
                                        || reflexivity).
  - destruct (write_run _ _ _ _ _ _ _ _) as [rg'|] eqn:Ew; [|discriminate].
    injection Hstep as <-. apply Hupd; try (discriminate || reflexivity).
    + rewrite (write_run_length dflt _ _ _ _ _ _ _ _ Ew). exact Hlen.
    + apply (write_run_forall _ _ _ _ _ _ _ _ ) with (2 := Ew);
        [|exact Hall].
      intros t Ht Hv. rewrite Hlen in Hv.
      apply (Htmp g tl t Hg); [rewrite Hpc; discriminate|exact Ht|exact Hv].
  - destruct (release_block _ _) as [bl|]; [|discriminate].
    injection Hstep as <-. apply Hupd; (discriminate || assumption
                                        || reflexivity).
  - injection Hstep as <-. split; [exact Hlen|]. split; assumption.
Qed.

Lemma run_values_ok (n : nat) (sched : list nat) (s s' : state (A := A)) :
  run p dflt cas junk sched s = Some s' ->
  values_ok P dflt n s -> values_ok P dflt n s'.
Proof.
  revert s. induction sched as [|g sched IH]; intros s Hrun Hok.
  - simpl in Hrun. congruence.
  - simpl in Hrun.
    destruct (step p dflt cas junk s g) as [s1|] eqn:E; [|discriminate].
    simpl in Hrun. apply (IH s1 Hrun). apply (step_values_ok n s s1 g E Hok).
Qed.

Lemma init_values_ok (rg : list A) :
  Forall P rg -> values_ok P dflt (length rg) (init_state rg).
Proof.
  intros Hall. split; [reflexivity|]. split; [exact Hall|].
  intros g tl t Hg Hpc. simpl in Hg.
  apply lookup_replicate in Hg as [-> _]. exfalso. apply Hpc. reflexivity.
Qed.
End Values.

Section AllTrue.
Context {A : Type}.
Variable p : A -> bool.
Variable dflt : A.
Variable cas : Z -> Z -> Z -> bool * Z * Z.
Variable junk : region -> nat -> Z.

Lemma flags_false_zero (n g : nat) (tmp : list A) (k : nat) :
  (k <= SIMD_w)%nat ->
  (forall t, (t < SIMD_w)%nat -> lane_valid n g t = true ->
     p (nth t tmp dflt) = true) ->
  sumZ (map (flag_false p dflt n g tmp) (seq 0 k)) = 0.
Proof.
  intros Hk Htmp. induction k as [|k IH]; [reflexivity|].
  rewrite sumZ_map_seq_S, IH by lia. unfold flag_false.
  destruct (lane_valid n g k) eqn:Hv; [|reflexivity].
  rewrite (Htmp k ltac:(lia) Hv). reflexivity.
Qed.

Lemma full_tiles_block (n : nat) :
  (n mod SIMD_w = 0)%nat -> block_of (Z.of_nat n) = n_tiles n.
Proof.
  unfold block_of, n_tiles, SIMD_w. intros Hmod.
  pose proof (Nat.div_mod_eq n 64) as E.
  rewrite <- Nat2Z.inj_div, Nat2Z.id.
  apply (Nat.div_unique _ 64 (n / 64) 63); lia.
Qed.

Lemma step_no_false_run (n : nat) (s s' : state (A := A)) (g : nat) :
  (n mod SIMD_w = 0)%nat -> Z.of_nat n < 2 ^ 32 ->
  step p dflt cas junk s g = Some s' ->
  values_ok (fun x => p x = true) dflt n s ->
  no_false_run n s -> no_false_run n s'.
Proof.
  intros Hmod Hsmall Hstep (Hlen & Hall & Htmp) (Hbl & Hsnd & Htl).
  unfold step in Hstep.
  destruct (tiles s !! g) as [tl|] eqn:Hg.
  2:{ injection Hstep as <-. split; [exact Hbl|]. split; assumption. }
  destruct (Htl g tl Hg) as (Hrk & Hfo & Hfi).
  assert (Hupd : forall (rg' : list A) (bl : list Z) (x y : Z) (tl' : tile),
            y = Z.of_nat n -> length bl = n_tiles n ->
            (rank (t_pc tl') <= 7)%nat ->
            ((3 <= rank (t_pc tl'))%nat -> t_false_off tl' = 0) ->
            ((4 <= rank (t_pc tl'))%nat -> t_false_idx tl' = Z.of_nat n) ->
            no_false_run n (State rg' bl x y (<[g := tl']> (tiles s)))).
  { intros rg' bl x y tl' Hy Hbl' H7 H3 H4.
    split; [exact Hbl'|]. split; [exact Hy|].
    intros g0 tl0 Hg0. simpl in Hg0.
    apply lookup_insert_cases in Hg0 as [[-> ->]|[Hne Hg0]].
    - split; [exact H7|]. split; assumption.
    - apply (Htl g0 tl0 Hg0). }
  assert (Hrel : forall block bl,
            release_block (blocks s) block = Some bl ->
            length bl = n_tiles n).
  { intros block bl H. unfold release_block in H.
    destruct (decide _); [|discriminate]. injection H as <-.
    rewrite length_insert. exact Hbl. }
  assert (Hacq : forall block e ok bl e',
            try_acquire cas (blocks s) block e = Some (ok, bl, e') ->
            length bl = n_tiles n).
  { intros block e ok bl e' H. unfold try_acquire in H.
    destruct (blocks s !! block) as [cur|]; [|discriminate].
    simpl in H. destruct (cas cur e 1) as [[ok' cur'] e''].
    injection H as _ <- _. rewrite length_insert. exact Hbl. }
  unfold step_tile in Hstep.
  destruct (t_pc tl) eqn:Hpc; simpl in Hrk, Hfo, Hfi.
  - injection Hstep as <-. unfold put_tile.
    apply Hupd; simpl; (lia || assumption).
  - destruct (release_block _ _) as [bl|] eqn:Er; [|discriminate].
    injection Hstep as <-.
    apply Hupd; simpl; try (lia || assumption). apply (Hrel _ _ Er).
  - destruct (tile_scans _ _ _ _ _ _) as [[pt pf]|] eqn:Es; [|discriminate].
    simpl in Hstep.
    destruct (tile_offsets _ _ _ _ _ _ _) as [[to fo]|] eqn:Eo;
      [|discriminate].
    injection Hstep as <-.
    apply Hupd; simpl; try (lia || assumption).
    intros _.
    destruct (tile_reservation p dflt junk (length (range s)) g (t_tmp tl))
      as (pt' & pf' & Hscan & _ & Hoffs).
    rewrite Hscan in Es. injection Es as -> ->.
    rewrite Hoffs in Eo. apply (inj Some) in Eo.
    apply (f_equal snd) in Eo. cbv beta iota delta [snd] in Eo.
    rewrite <- Eo, Hlen. apply flags_false_zero; [lia|].
    intros t Ht Hv.
    apply (Htmp g tl t Hg); [rewrite Hpc; discriminate|exact Ht|exact Hv].
  - injection Hstep as <-.
    assert (Hy : u32 (second s - t_false_off tl) = Z.of_nat n).
    { rewrite Hfo by lia. rewrite Hsnd, Z.sub_0_r.
      apply u32_small. unfold is_u32. lia. }
    apply Hupd; simpl; try (lia || assumption);
      intros _; first [apply Hfo; lia|exact Hy].
  - destruct (try_acquire _ _ _ _) as [[[ok bl] e]|] eqn:Ea; [|discriminate].
    injection Hstep as <-.
    apply Hupd; [exact Hsnd|apply (Hacq _ _ _ _ _ Ea)
                |destruct ok; simpl; lia| |];
      intros _; first [apply Hfo; lia|apply Hfi; lia].
  - destruct (write_run _ _ _ _ _ _ _ _) as [rg'|]; [|discriminate].
    injection Hstep as <-.
    apply Hupd; simpl; try (lia || assumption);
      intros _; first [apply Hfo; lia|apply Hfi; lia].
  - destruct (release_block _ _) as [bl|] eqn:Er; [|discriminate].
    injection Hstep as <-.
    apply Hupd; simpl; try (lia || assumption);
      first [apply (Hrel _ _ Er)
            |intros _; first [apply Hfo; lia|apply Hfi; lia]].
  - exfalso. rewrite Hfi in Hstep by lia.
    rewrite (full_tiles_block n Hmod) in Hstep.
    unfold try_acquire in Hstep.
    rewrite (lookup_ge_None_2 (blocks s)) in Hstep by lia.
    discriminate.
  - lia.
  - lia.
  - lia.
Qed.

Lemma run_no_false_run (n : nat) (sched : list nat) (s s' : state (A := A)) :
  (n mod SIMD_w = 0)%nat -> Z.of_nat n < 2 ^ 32 ->
  run p dflt cas junk sched s = Some s' ->
  values_ok (fun x => p x = true) dflt n s ->
  no_false_run n s -> no_false_run n s'.
Proof.
  intros Hmod Hsmall. revert s.
  induction sched as [|g sched IH]; intros s Hrun Hv Hok.
  - simpl in Hrun. congruence.
  - simpl in Hrun.
    destruct (step p dflt cas junk s g) as [s1|] eqn:E; [|discriminate].
    simpl in Hrun. apply (IH s1 Hrun).
    + apply (step_values_ok p dflt cas junk _ n s s1 g E Hv).
    + apply (step_no_false_run n s s1 g Hmod Hsmall E Hv Hok).
Qed.
End AllTrue.

(** X25.  The spin loop of [acquire_block] does not wait for the block to
    be unlocked: on any lock table, whether the entry of the block is 0, 1
    or anything else, it returns after at most two attempts, with the entry
    set to 1; and a block index outside the table is undefined. *)
Theorem acquire_block_never_waits (bl : list Z) (block fuel : nat) :
  (2 <= fuel)%nat ->
  acquire_block fuel bl block
  = if decide (block < length bl)%nat
    then Done (<[block := 1]> bl) else Undefined.
Proof.
  intros Hfuel. destruct fuel as [|[|fuel]]; [lia|lia|].
  unfold acquire_block. cbn [acquire_spin]. unfold try_acquire.
  destruct (decide (block < length bl)%nat) as [Hin|Hout].
  - destruct (lookup_lt_is_Some_2 bl block Hin) as [cur Hcur].
    rewrite Hcur. cbn [mbind option_bind]. unfold amp_cas.
    destruct (cur =? 0) eqn:E; [reflexivity|].
    rewrite (list_insert_id bl block cur Hcur), Hcur.
    cbn [mbind option_bind]. rewrite Z.eqb_refl. reflexivity.
  - rewrite (lookup_ge_None_2 bl block) by lia. reflexivity.
Qed.

Lemma acquire_block_never_waits_witness :
  acquire_block 2 [1; 1; 1] 1 = Done [1; 1; 1].
Proof.
  apply (acquire_block_never_waits [1; 1; 1] 1 2). lia.
Defined.



(** X27.  [partition] touches only its range and invents no value: under
    every schedule and whatever the compare-and-exchange does, when it
    returns, the array has its length, the positions outside [[f, l)] are
    unchanged, and every element of the array is an element of the
    input. *)
Theorem partition_confined {A : Type} (p : A -> bool) (dflt : A)
    (cas : Z -> Z -> Z -> bool * Z * Z) (junk : region -> nat -> Z)
    (sched : list nat) (a a' : list A) (f l k : nat) :
  (f < l <= length a)%nat ->
  partition p dflt cas junk sched a f l = Some (a', k) ->
  length a' = length a /\
  (forall j, ~ (f <= j < l)%nat -> a' !! j = a !! j) /\
  (forall x, x ∈ a' -> x ∈ a).
Proof.
  intros Hfl Hpart. unfold partition in Hpart.
  destruct (decide (l <= f)%nat); [lia|].
  set (rg := take (l - f) (drop f a)) in *.
  assert (Hrg : length rg = (l - f)%nat).
  { unfold rg. rewrite length_take, length_drop. lia. }
  destruct (run p dflt cas junk sched (init_state rg)) as [s|] eqn:Hrun;
    [|discriminate].
  simpl in Hpart. destruct (finished s); [|discriminate].
  injection Hpart as <- <-.
  destruct (run_values_ok p dflt cas junk (fun x => x ∈ rg) (length rg)
              sched _ s Hrun) as (Hlen & Hall & _).
  { apply init_values_ok. apply Forall_forall. intros x Hx. exact Hx. }
  split; [|split].
  - rewrite !length_app, length_take, length_drop. lia.
  - intros j Hj. destruct (decide (j < f)%nat) as [Hlt|Hge].
    + rewrite lookup_app_l by (rewrite length_take; lia).
      apply lookup_take_lt. exact Hlt.
    + rewrite lookup_app_r by (rewrite length_take; lia).
      rewrite lookup_app_r by (rewrite length_take; lia).
      rewrite lookup_drop, length_take. f_equal. lia.
  - intros x Hx. rewrite !elem_of_app in Hx.
    destruct Hx as [Hx|[Hx|Hx]].
    + apply elem_of_take in Hx as (i & Hi & _).
      apply list_elem_of_lookup. exists i. exact Hi.
    + rewrite Forall_forall in Hall. specialize (Hall x Hx).
      unfold rg in Hall. apply elem_of_take in Hall as (i & Hi & _).
      rewrite lookup_drop in Hi.
      apply list_elem_of_lookup. eexists. exact Hi.
    + apply list_elem_of_lookup in Hx as (i & Hi).
      rewrite lookup_drop in Hi.
      apply list_elem_of_lookup. eexists. exact Hi.
Qed.

Lemma partition_confined_witness :
  length [7; 2; 4; 6; 1; 3; 5; 9] = length [7; 1; 2; 3; 4; 5; 6; 9] /\
  [7; 2; 4; 6; 1; 3; 5; 9] !! 7%nat = [7; 1; 2; 3; 4; 5; 6; 9] !! 7%nat.
Proof.
  destruct (partition_confined Z.even 0 amp_cas (fun _ _ => 0)
              (replicate 10 0%nat)
              [7; 1; 2; 3; 4; 5; 6; 9] [7; 2; 4; 6; 1; 3; 5; 9] 1 7 4)
    as (Hlen & Hout & _).
  - simpl. lia.
  - reflexivity.
  - split; [exact Hlen|]. apply Hout. lia.
Defined.

(** X28.  On a range whose length is a multiple of 64 and whose elements
    all satisfy the predicate, [partition] does not return, whatever the
    schedule and the compare-and-exchange: every tile reserves its empty
    false run at the end of the range, and [acquire_block] indexes the
    lock table with [n / 64], one past its last entry. *)
Theorem partition_full_tiles_all_true {A : Type} (p : A -> bool) (dflt : A)
    (cas : Z -> Z -> Z -> bool * Z * Z) (junk : region -> nat -> Z)
    (a : list A) (f l : nat) :
  (f < l <= length a)%nat -> ((l - f) mod SIMD_w = 0)%nat ->
  Z.of_nat (l - f) < 2 ^ 32 ->
  (forall x, x ∈ take (l - f) (drop f a) -> p x = true) ->
  forall sched, partition p dflt cas junk sched a f l = None.
Proof.
  intros Hfl Hmod Hsmall Htrue sched. unfold partition.
  destruct (decide (l <= f)%nat); [lia|].
  set (rg := take (l - f) (drop f a)) in *.
  assert (Hrg : length rg = (l - f)%nat).
  { unfold rg. rewrite length_take, length_drop. lia. }
  destruct (run p dflt cas junk sched (init_state rg)) as [s|] eqn:Hrun;
    [|reflexivity].
  cbn [mbind option_bind].
  assert (Hv : values_ok (fun x => p x = true) dflt (length rg)
                 (init_state rg)).
  { apply init_values_ok. apply Forall_forall. exact Htrue. }
  assert (Hnf : no_false_run (length rg) (init_state rg)).
  { split; [simpl; apply length_replicate|]. split.
    - simpl. apply u32_small. unfold is_u32. lia.
    - intros g tl Hg. simpl in Hg.
      apply lookup_replicate in Hg as [-> _]. simpl. lia. }
  assert (Hmod' : (length rg mod SIMD_w = 0)%nat)
    by (rewrite Hrg; exact Hmod).
  assert (Hsmall' : Z.of_nat (length rg) < 2 ^ 32)
    by (rewrite Hrg; exact Hsmall).
  destruct (run_no_false_run p dflt cas junk (length rg) sched _ s
              Hmod' Hsmall' Hrun Hv Hnf) as (_ & _ & Htl).
  destruct (finished s) eqn:Hfin; [exfalso|reflexivity].
  assert (Hn : (0 < n_tiles (length rg))%nat).
  { unfold n_tiles, SIMD_w.
    pose proof (Nat.Div0.div_le_mono 64 (length rg + (64 - 1)) 64
                  ltac:(lia)) as H.
    change (64 / 64)%nat with 1%nat in H. lia. }
  assert (Hlen : length (tiles s) = n_tiles (length rg)).
  { clear -Hrun Hrg.
    assert (H0 : length (tiles (init_state rg)) = n_tiles (length rg))
      by (simpl; apply length_replicate).
    revert H0 Hrun. generalize (init_state rg).
    induction sched as [|g sched IH]; intros s0 H0 Hrun; simpl in Hrun.
    - congruence.
    - destruct (step p dflt cas junk s0 g) as [s1|] eqn:E; [|discriminate].
      simpl in Hrun. apply (IH s1); [|exact Hrun].
      rewrite (step_tiles_length p dflt junk cas s0 s1 g E). exact H0. }
  destruct (lookup_lt_is_Some_2 (tiles s) 0 ltac:(lia)) as [tl Hg].
  pose proof (finished_done s 0 tl Hfin Hg) as Hdone.
  destruct (Htl 0%nat tl Hg) as (Hrk & _). rewrite Hdone in Hrk.
  simpl in Hrk. lia.
Qed.

Lemma partition_full_tiles_all_true_witness :
  partition Z.even 0 amp_cas (fun _ _ => 0) (replicate 20 0%nat)
    (replicate 64 2) 0 64
  = None.
Proof.
  apply (partition_full_tiles_all_true Z.even 0 amp_cas (fun _ _ => 0)
           (replicate 64 2) 0 64).
  - simpl. lia.
  - reflexivity.
  - simpl. lia.
  - intros x Hx. vm_compute in Hx.
    apply list_elem_of_In in Hx.
    apply (Forall_forall (fun x => Z.even x = true) (replicate 64 2));
      [|apply list_elem_of_In; exact Hx].
    apply Forall_forall. intros y Hy.
    apply elem_of_replicate in Hy as [-> _]. reflexivity.
Defined.
